(** * PicoScheme: numbers, primitives, printer and reader

    A shallow embedding of the parts of the interpreter that live in
    [number.hpp], [primop.cpp], [streamop.cpp] and [parser.cpp], with the
    statements about them proved at the end of the file. *)

From Stdlib Require Import ZArith Bool Ascii String List Lia.
From Stdlib Require Import SpecFloat DecimalString HexadecimalString.
From Stdlib Require DecimalPos.
From stdpp Require Import base option list strings gmap.

Local Open Scope Z_scope.

(** ** Exceptions and results

    C++ exceptions are values: a computation either returns, throws, or
    (for the recursive printer and reader, which run on fuel) has not
    finished within the fuel it was given. *)

Inductive exn : Type :=
| out_of_range            (* std::vector::at, std::stoi, strtod *)
| bad_variant_access      (* std::get on the wrong alternative *)
| invalid_argument        (* std::invalid_argument *)
| parse_error (msg : string).

Inductive res (A : Type) : Type :=
| Ret (a : A)
| Throw (e : exn)
| Timeout.
Arguments Ret {A} a.
Arguments Throw {A} e.
Arguments Timeout {A}.

#[global] Instance res_ret : MRet res := fun A a => Ret a.
#[global] Instance res_bind : MBind res := fun A B k m =>
  match m with
  | Ret a => k a
  | Throw e => Throw e
  | Timeout => Timeout
  end.

(** ** number.hpp *)

Module Num.

(** [using Float = double]: IEEE-754 binary64, as [SpecFloat] has it. *)
Definition Float : Type := spec_float.
Definition prec : Z := 53.
Definition emax : Z := 1024.

(** [using Int = int64_t], a [Z] kept in range by [wrap64]. *)
Definition Int : Type := Z.
Definition wrap64 (z : Z) : Int := (z + 2 ^ 63) mod 2 ^ 64 - 2 ^ 63.

(** [using Complex = std::complex<double>]. *)
Record Complex : Type := mkComplex { re : Float; im : Float }.

(** [struct Number : std::variant<Int, Float, Complex>]. *)
Inductive Number : Type :=
| NInt (i : Int)
| NFloat (x : Float)
| NComplex (z : Complex).

Definition is_int (n : Number) : bool := match n with NInt _ => true | _ => false end.
Definition is_float (n : Number) : bool := match n with NFloat _ => true | _ => false end.
Definition is_complex (n : Number) : bool := match n with NComplex _ => true | _ => false end.

(** [static_cast<Float>] of an integer: round to nearest, ties to even. *)
Definition Float_of_Z (z : Z) : Float := binary_normalize prec emax z 0 false.

Definition Fzero : Float := S754_zero false.
Definition Fone : Float := Float_of_Z 1.
Definition Fltb (x y : Float) : bool := SFltb x y.
Definition Fgtb (x y : Float) : bool := SFltb y x.
Definition Feqb (x y : Float) : bool := SFeqb x y.

(** The arguments of the templated constructors are of an integral type or
    [Float]; [Arith] is that choice.  An integral argument carries its
    mathematical value. *)
Inductive Arith : Type :=
| AInt (z : Z)
| AFloat (x : Float).

Definition Arith_to_Float (a : Arith) : Float :=
  match a with
  | AInt z => Float_of_Z z
  | AFloat x => x
  end.

(** [y > IM{0}] and [y < IM{0}]. *)
Definition Arith_gt0 (a : Arith) : bool :=
  match a with
  | AInt z => 0 <? z
  | AFloat x => Fgtb x Fzero
  end.
Definition Arith_lt0 (a : Arith) : bool :=
  match a with
  | AInt z => z <? 0
  | AFloat x => Fltb x Fzero
  end.

(** [y == 0] and [y != 0] in C++ ([NaN != 0] holds). *)
Definition Arith_eq0 (a : Arith) : bool :=
  match a with
  | AInt z => z =? 0
  | AFloat x => Feqb x Fzero
  end.
Definition Arith_nonzero (a : Arith) : bool := negb (Arith_eq0 a).

(** [std::isnan(y)] for a floating argument; an integer is never NaN. *)
Definition Arith_is_nan (a : Arith) : bool :=
  match a with
  | AFloat S754_nan => true
  | _ => false
  end.

(** [Number(T x)] for integral [T], and [Number(Float x)]. *)
Definition Number_of (x : Arith) : Number :=
  match x with
  | AInt z => NInt (wrap64 z)
  | AFloat f => NFloat f
  end.

(** [template <RE, IM> Number(RE x, IM y)]. *)
Definition Number_re_im (x y : Arith) : Number :=
  if Arith_gt0 y || Arith_lt0 y
  then NComplex (mkComplex (Arith_to_Float x) (Arith_to_Float y))
  else Number_of x.

(** [Number(const Complex& z)]. *)
Definition Number_of_Complex (z : Complex) : Number :=
  Number_re_im (AFloat (re z)) (AFloat (im z)).

End Num.

(** ** Cells and the store

    [Cell] is the tagged union of [types.hpp]; only its uses are in the
    sources at hand, so the alternatives are those the printer of
    [streamop.cpp] dispatches on.  Heap-bearing alternatives ([Cons*],
    [VectorPtr]) are addresses into a store, so that sharing, mutation and
    cycles are those of the program. *)

Definition Char : Type := Z.
Definition EOF : Z := -1.
Definition Symbol : Type := string.

(** [enum class Intern]: the opcodes named in [streamop.cpp] and
    [primop.cpp]; [op_other] stands for the remaining ones. *)
Inductive Intern : Type :=
| _or | _and | _if | _cond | _else | _arrow | _when | _unless | _define
| _setb | _begin | _lambda | _macro | _apply | _quote | _quasiquote
| _unquote | _unquotesplice
| op_cons | op_car | op_cdr | op_setcar | op_setcdr | op_list
| op_add | op_sub | op_mul | op_div
| op_other (n : nat).

Inductive Cell : Type :=
| CNone
| CNil
| CIntern (op : Intern)
| CBool (b : bool)
| CChar (c : Char)
| CNumber (n : Num.Number)
| CPair (p : nat)                  (* Cons*: address of a cons cell *)
| CString (s : string)             (* StringPtr *)
| CVector (v : nat)                (* VectorPtr: address of a vector *)
| CPort
| CSymbol (sym : Symbol)
| CSymenv (addr : nat)             (* SymenvPtr *)
| CFunction (name : string)        (* FunctionPtr *)
| CProcedure (is_macro : bool)
| CRegex (pattern : string)        (* RegexPtr *)
| CMap                             (* MapPtr *)
| CClock (shown : string).         (* ClockPtr, with its printed form *)

Definition none : Cell := CNone.
Definition nil : Cell := CNil.

(** [struct Cons]: car, cdr and the mark bit. *)
Record Cons : Type := mkCons { cons_car : Cell; cons_cdr : Cell; cons_mrk : bool }.

(** The interpreter's mutable state: the cons arena, the vectors, the
    symbol table and the top environment. *)
Record Scheme : Type := mkScheme {
  conses : list Cons;
  vectors : list (list Cell);
  symtab : gset string;
  topenv : gmap string Cell
}.

Definition is_pair (c : Cell) : bool := match c with CPair _ => true | _ => false end.
Definition is_nil (c : Cell) : bool := match c with CNil => true | _ => false end.

(** Modelled from the spec: the pair accessors of [cell.hpp], which is not
    among the sources.  A pair is "a mutable record of (car, cdr, mark)";
    the accessors throw on a cell that is not a pair, as [std::get] does. *)
Definition car (scm : Scheme) (c : Cell) : res Cell :=
  match c with
  | CPair p => match conses scm !! p with
               | Some k => Ret (cons_car k)
               | None => Throw bad_variant_access
               end
  | _ => Throw bad_variant_access
  end.

Definition cdr (scm : Scheme) (c : Cell) : res Cell :=
  match c with
  | CPair p => match conses scm !! p with
               | Some k => Ret (cons_cdr k)
               | None => Throw bad_variant_access
               end
  | _ => Throw bad_variant_access
  end.

Definition with_conses (scm : Scheme) (h : list Cons) : Scheme :=
  mkScheme h (vectors scm) (symtab scm) (topenv scm).

Definition set_car (scm : Scheme) (c v : Cell) : res unit * Scheme :=
  match c with
  | CPair p => match conses scm !! p with
               | Some k => (Ret (), with_conses scm (<[p := mkCons v (cons_cdr k) (cons_mrk k)]> (conses scm)))
               | None => (Throw bad_variant_access, scm)
               end
  | _ => (Throw bad_variant_access, scm)
  end.

Definition set_cdr (scm : Scheme) (c v : Cell) : res unit * Scheme :=
  match c with
  | CPair p => match conses scm !! p with
               | Some k => (Ret (), with_conses scm (<[p := mkCons (cons_car k) v (cons_mrk k)]> (conses scm)))
               | None => (Throw bad_variant_access, scm)
               end
  | _ => (Throw bad_variant_access, scm)
  end.

(** Modelled from the spec: [cons] allocates a fresh pair at the end of the
    arena and returns its address. *)
Definition cons (scm : Scheme) (a d : Cell) : Cell * Scheme :=
  (CPair (length (conses scm)), with_conses scm (conses scm ++ [mkCons a d false])).

(** State-and-exception monad of the code that mutates the interpreter. *)
Definition M (A : Type) : Type := Scheme → res A * Scheme.

#[global] Instance M_ret : MRet M := fun A a scm => (Ret a, scm).
#[global] Instance M_bind : MBind M := fun A B k m scm =>
  match m scm with
  | (Ret a, scm') => k a scm'
  | (Throw e, scm') => (Throw e, scm')
  | (Timeout, scm') => (Timeout, scm')
  end.

Definition lift {A} (f : Scheme → res A) : M A := fun scm => (f scm, scm).
Definition throw {A} (e : exn) : M A := fun scm => (Throw e, scm).
Definition m_cons (a d : Cell) : M Cell := fun scm => let '(c, scm') := cons scm a d in (Ret c, scm').
Definition m_set_car (c v : Cell) : M unit := fun scm => set_car scm c v.
Definition m_set_cdr (c v : Cell) : M unit := fun scm => set_cdr scm c v.

(** ** primop.cpp *)

(** The arithmetic operators on [Number] are declared in [number.hpp] and
    defined in [number.cpp], which is not among the sources: the primitives
    take them as an interface. *)
Class NumberOps : Type := {
  num_add : Num.Number → Num.Number → Num.Number;   (* operator+= *)
  num_sub : Num.Number → Num.Number → Num.Number;   (* operator-= *)
  num_mul : Num.Number → Num.Number → Num.Number;   (* operator*= *)
  num_div : Num.Number → Num.Number → Num.Number;   (* operator/= *)
  num_neg : Num.Number → Num.Number;                (* unary operator- *)
  num_inv : Num.Number → Num.Number;                (* inv *)
  num_trunc : Num.Number → Num.Number               (* trunc *)
}.

(** The conversion of a [Cell] to [Number], [std::get<Number>]. *)
Definition to_Number (c : Cell) : res Num.Number :=
  match c with
  | CNumber n => Ret n
  | _ => Throw bad_variant_access
  end.

(** [args.at(i)]. *)
Definition at_ (args : list Cell) (i : nat) : res Cell :=
  match args !! i with
  | Some c => Ret c
  | None => Throw out_of_range
  end.

Section Primop.
Context {ops : NumberOps}.

(** The loop [for (...) res op= val] shared by the four primitives. *)
Fixpoint accumulate (op : Num.Number → Num.Number → Num.Number)
    (acc : Num.Number) (args : list Cell) : res Num.Number :=
  match args with
  | [] => Ret acc
  | c :: rest => val ← to_Number c; accumulate op (op acc val) rest
  end.

Definition fun_add (args : list Cell) : res Cell :=
  r ← accumulate num_add (Num.NInt 0) args; Ret (CNumber r).

Definition fun_sub (args : list Cell) : res Cell :=
  c ← at_ args 0;
  r0 ← to_Number c;
  r ← accumulate num_sub r0 (tail args);
  Ret (CNumber r).

Definition fun_mul (args : list Cell) : res Cell :=
  r ← accumulate num_mul (Num.NInt 1) args; Ret (CNumber r).

Definition fun_div (args : list Cell) : res Cell :=
  c ← at_ args 0;
  r0 ← to_Number c;
  r ← accumulate num_div r0 (tail args);
  Ret (CNumber r).

(** [fun_list]: the tail is extended in place. *)
Fixpoint fun_list_loop (tl : Cell) (rest : list Cell) : M unit :=
  match rest with
  | [] => mret ()
  | c :: rest' =>
      k ← m_cons c nil;
      _ ← m_set_cdr tl k;
      tl' ← lift (fun scm => cdr scm tl);
      fun_list_loop tl' rest'
  end.

Definition fun_list (args : list Cell) : M Cell :=
  match args with
  | [] => mret nil
  | c :: rest =>
      l ← m_cons c nil;
      _ ← fun_list_loop l rest;
      mret l
  end.

(** [Cell call(const Symenv& senv, Intern primop, const varg& args)]. *)
Definition call (senv : Cell) (primop : Intern) (args : list Cell) : M Cell :=
  match primop with
  | op_cons => a ← lift (fun _ => at_ args 0); d ← lift (fun _ => at_ args 1); m_cons a d
  | op_car => a ← lift (fun _ => at_ args 0); lift (fun scm => car scm a)
  | op_cdr => a ← lift (fun _ => at_ args 0); lift (fun scm => cdr scm a)
  | op_setcar =>
      a ← lift (fun _ => at_ args 0); d ← lift (fun _ => at_ args 1);
      _ ← m_set_car a d; mret none
  | op_setcdr =>
      a ← lift (fun _ => at_ args 0); d ← lift (fun _ => at_ args 1);
      _ ← m_set_cdr a d; mret none
  | op_list => fun_list args
  | op_add => lift (fun _ => fun_add args)
  | op_sub => lift (fun _ => fun_sub args)
  | op_mul => lift (fun _ => fun_mul args)
  | op_div => lift (fun _ => fun_div args)
  | _ => throw invalid_argument
  end.

End Primop.

(** Modelled from the spec: the arithmetic of [number.cpp].  Operands are
    promoted to the wider of their two domains ("cross-type ... promote to
    the wider domain"), the operation is carried out there ([Int] in 64-bit
    two's complement, [Float] in binary64, [Complex] by the textbook
    formulas over binary64), and a complex result goes through the
    constructor, so that a zero imaginary part normalizes to the real part.
    A quotient of two [Int]s is an [Int] when the division is exact and a
    [Float] otherwise ("(/ 10 2 2) -> 2.5"). *)
Module NumSpec.
Import Num.

Definition fadd : Float → Float → Float := SFadd prec emax.
Definition fsub : Float → Float → Float := SFsub prec emax.
Definition fmul : Float → Float → Float := SFmul prec emax.
Definition fdiv : Float → Float → Float := SFdiv prec emax.

Definition to_Float (n : Number) : Float :=
  match n with
  | NInt i => Float_of_Z i
  | NFloat x => x
  | NComplex z => re z          (* only used below on non-complex operands *)
  end.

Definition to_Complex (n : Number) : Complex :=
  match n with
  | NComplex z => z
  | _ => mkComplex (to_Float n) Fzero
  end.

Definition cadd (a b : Complex) : Complex :=
  mkComplex (fadd (re a) (re b)) (fadd (im a) (im b)).
Definition csub (a b : Complex) : Complex :=
  mkComplex (fsub (re a) (re b)) (fsub (im a) (im b)).
Definition cmul (a b : Complex) : Complex :=
  mkComplex (fsub (fmul (re a) (re b)) (fmul (im a) (im b)))
            (fadd (fmul (re a) (im b)) (fmul (im a) (re b))).
Definition cdiv (a b : Complex) : Complex :=
  let d := fadd (fmul (re b) (re b)) (fmul (im b) (im b)) in
  mkComplex (fdiv (fadd (fmul (re a) (re b)) (fmul (im a) (im b))) d)
            (fdiv (fsub (fmul (im a) (re b)) (fmul (re a) (im b))) d).

Definition binop (fi : Z → Z → Number) (ff : Float → Float → Float)
    (fc : Complex → Complex → Complex) (a b : Number) : Number :=
  match a, b with
  | NInt x, NInt y => fi x y
  | NComplex _, _ | _, NComplex _ => Number_of_Complex (fc (to_Complex a) (to_Complex b))
  | _, _ => NFloat (ff (to_Float a) (to_Float b))
  end.

Definition add : Number → Number → Number :=
  binop (fun x y => NInt (wrap64 (x + y))) fadd cadd.
Definition sub : Number → Number → Number :=
  binop (fun x y => NInt (wrap64 (x - y))) fsub csub.
Definition mul : Number → Number → Number :=
  binop (fun x y => NInt (wrap64 (x * y))) fmul cmul.
Definition div : Number → Number → Number :=
  binop (fun x y => if (negb (y =? 0)) && (x mod y =? 0)
                    then NInt (wrap64 (Z.quot x y))
                    else NFloat (fdiv (Float_of_Z x) (Float_of_Z y)))
        fdiv cdiv.
Definition neg (a : Number) : Number := sub (NInt 0) a.
Definition inv (a : Number) : Number := div (NInt 1) a.

(** "[#e] truncates toward zero": the integer part of a finite [Float]. *)
Definition Z_of_Float (x : Float) : Z :=
  match x with
  | S754_finite s m e =>
      let a := if 0 <=? e then Z.pos m * 2 ^ e else Z.pos m / 2 ^ (- e) in
      if s then - a else a
  | _ => 0
  end.
Definition trunc (a : Number) : Number :=
  match a with
  | NInt i => NInt i
  | NFloat x => NInt (wrap64 (Z_of_Float x))
  | NComplex z => Number_re_im (AInt (Z_of_Float (re z))) (AInt (Z_of_Float (im z)))
  end.

#[export] Instance ops : NumberOps :=
  {| num_add := add; num_sub := sub; num_mul := mul; num_div := div;
     num_neg := neg; num_inv := inv; num_trunc := trunc |}.

End NumSpec.

(** ** Printing numbers (number.hpp) *)

Module NumPrint.
Import Num.

(** [os << x] for an [Int]: plain decimal. *)
Definition decimal (i : Z) : string := DecimalString.NilZero.string_of_int (Z.to_int i).

(** The stream's own formatting of a [double] under [std::scientific] with
    the default precision 6 is the library's; it is modelled as the C
    standard describes [%e]: one digit, a point, six digits correctly
    rounded (ties to even on the exact value), [e], a sign and at least two
    exponent digits. *)
Definition pow10_le (k : Z) (num den : Z) : bool :=
  if 0 <=? k then 10 ^ k * den <=? num else den <=? num * 10 ^ (- k).

Fixpoint decimal_exponent (fuel : nat) (k : Z) (num den : Z) : Z :=
  match fuel with
  | O => k
  | S fuel' => if pow10_le k num den then k else decimal_exponent fuel' (k - 1) num den
  end.

Definition round_half_even (num den : Z) : Z :=
  let q := num / den in
  let r := num mod den in
  match 2 * r ?= den with
  | Lt => q
  | Gt => q + 1
  | Eq => if Z.even q then q else q + 1
  end.

Definition scaled_digits (k : Z) (num den : Z) : Z :=
  if k <=? 6 then round_half_even (num * 10 ^ (6 - k)) den
  else round_half_even num (den * 10 ^ (k - 6)).

Definition exponent_text (k : Z) : string :=
  (if k <? 0 then "-" else "+") +:+ (if Z.abs k <? 10 then "0" else "") +:+ decimal (Z.abs k).

Definition mantissa_text (q : Z) : string :=
  match decimal q with
  | String d rest => String d (String "." rest)
  | EmptyString => EmptyString
  end.

Definition sign_text (s : bool) : string := if s then "-" else "".

Definition scientific (x : Float) : string :=
  match x with
  | S754_nan => "nan"
  | S754_infinity s => sign_text s +:+ "inf"
  | S754_zero s => sign_text s +:+ "0.000000e+00"
  | S754_finite s m e =>
      let num := if 0 <=? e then Z.pos m * 2 ^ e else Z.pos m in
      let den := if 0 <=? e then 1 else 2 ^ (- e) in
      let k := decimal_exponent 700 309 num den in
      let q := scaled_digits k num den in
      let '(q, k) := if q =? 10 ^ 7 then (10 ^ 6, k + 1) else (q, k) in
      sign_text s +:+ mantissa_text q +:+ "e" +:+ exponent_text k
  end.

(** [operator<<(os, const Complex&)]; [fmt] is the stream's current
    formatting of a [double]. *)
Definition write_Complex (fmt : Float → string) (z : Complex) : string :=
  let im := im z in
  let one := Fone in
  let mone := SFopp one in
  if Fgtb im Fzero || Fltb im Fzero then
    if Fltb im Fzero then
      fmt (re z) +:+
      (if Fgtb im mone || Fltb im mone
       then "-" +:+ fmt im +:+ "i"
       else "-i")
    else if Fgtb im one || Fltb im one
    then fmt (re z) +:+ "+" +:+ fmt im +:+ "i"
    else fmt (re z) +:+ "+i"
  else fmt (re z).

(** [operator<<(os, const Number&)]. *)
Definition write_Number (n : Number) : string :=
  match n with
  | NInt i => decimal i
  | NFloat x => scientific x
  | NComplex z => write_Complex scientific z
  end.

End NumPrint.

(** ** Characters and the C library

    [Char] is the narrow [char] here ([PLATFORM_CHAR]); a character of a
    lexeme is an [ascii] byte and its [int] value is in 0..255.  The
    classification functions are those of the "C" locale. *)

Module Ctype.

Definition int_of_char (c : ascii) : Z := Z.of_N (N_of_ascii c).
Definition char_of_int (i : Z) : ascii := ascii_of_N (Z.to_N (i mod 256)).

Definition isspace (c : Z) : bool := (c =? 32) || ((9 <=? c) && (c <=? 13)).
Definition iswspace (c : Z) : bool := isspace c.
Definition iswdigit (c : Z) : bool := (48 <=? c) && (c <=? 57).
Definition iswprint (c : Z) : bool := (32 <=? c) && (c <=? 126).
Definition iswgraph (c : Z) : bool := (33 <=? c) && (c <=? 126).
Definition isupper (c : Z) : bool := (65 <=? c) && (c <=? 90).
Definition tolower (c : Z) : Z := if isupper c then c + 32 else c.

(** [strchr(set, c)] as a truth value: [c] is converted to [char], and the
    terminating NUL of [set] counts as part of it. *)
Definition strchr (set : string) (c : Z) : bool :=
  let ch := char_of_int c in
  bool_decide (ch ∈ list_ascii_of_string set) || bool_decide (ch = "000"%char).

(** [transform(str.begin(), str.end(), back_inserter(name), ::tolower)]. *)
Definition lower_string (s : string) : string :=
  string_of_list_ascii ((fun c => char_of_int (tolower (int_of_char c))) <$> list_ascii_of_string s).

(** Decimal digits at the head of a character list, with their value. *)
Fixpoint take_digits (acc : Z) (n : nat) (l : list ascii) : Z * nat * list ascii :=
  match l with
  | c :: l' => if iswdigit (int_of_char c)
               then take_digits (10 * acc + (int_of_char c - 48)) (S n) l'
               else (acc, n, l)
  | [] => (acc, n, l)
  end.

Fixpoint skip_space (l : list ascii) : list ascii :=
  match l with
  | c :: l' => if isspace (int_of_char c) then skip_space l' else l
  | [] => []
  end.

(** [strtol(s, &end, 10)] under [std::stoi] / [std::stol]: white space, an
    optional sign, decimal digits; [invalid_argument] without a digit and
    [out_of_range] outside the result type. *)
Definition sto_int (lo hi : Z) (s : string) : res Z :=
  let l := skip_space (list_ascii_of_string s) in
  let '(neg, l) := match l with
                   | "-"%char :: l' => (true, l')
                   | "+"%char :: l' => (false, l')
                   | _ => (false, l)
                   end in
  let '(v, n, _) := take_digits 0 0 l in
  if (n =? 0)%nat then Throw invalid_argument
  else let v := if neg then - v else v in
       if (lo <=? v) && (v <=? hi) then Ret v else Throw out_of_range.

Definition stoi : string → res Z := sto_int (- 2 ^ 31) (2 ^ 31 - 1).
Definition stol : string → res Z := sto_int (- 2 ^ 63) (2 ^ 63 - 1).

End Ctype.

(** ** Input streams

    [std::istream] as the reader uses it: the characters still to be read,
    those already read (for [putback]), the state bits and the [skipws]
    flag. *)

Record istream : Type := mkIstream {
  ahead : list ascii;
  behind : list ascii;
  eofbit : bool;
  failbit : bool;
  badbit : bool;
  skipws : bool
}.

Module Stream.

Definition good (s : istream) : bool := negb (eofbit s || failbit s || badbit s).
Definition eof (s : istream) : bool := eofbit s.
Definition fail (s : istream) : bool := failbit s || badbit s.
(** [while (in)], [in >> c && ...]: [operator bool]. *)
Definition ok (s : istream) : bool := negb (fail s).

Definition clear (s : istream) : istream :=
  mkIstream (ahead s) (behind s) false false false (skipws s).
Definition set_fail (s : istream) : istream :=
  mkIstream (ahead s) (behind s) (eofbit s) true (badbit s) (skipws s).
Definition set_eof (s : istream) : istream :=
  mkIstream (ahead s) (behind s) true (failbit s) (badbit s) (skipws s).
Definition set_bad (s : istream) : istream :=
  mkIstream (ahead s) (behind s) (eofbit s) (failbit s) true (skipws s).
Definition noskipws (s : istream) : istream :=
  mkIstream (ahead s) (behind s) (eofbit s) (failbit s) (badbit s) false.
Definition move (s : istream) (a b : list ascii) : istream :=
  mkIstream a b (eofbit s) (failbit s) (badbit s) (skipws s).

(** White space skipped by the sentry of a formatted read. *)
Fixpoint skip (a b : list ascii) : list ascii * list ascii :=
  match a with
  | c :: a' => if Ctype.isspace (Ctype.int_of_char c) then skip a' (c :: b) else (a, b)
  | [] => ([], b)
  end.

(** [in >> c] for a [Char]: the character read, if any, and the stream.
    Nothing is stored in [c] when the read fails. *)
Definition extract (s : istream) : option ascii * istream :=
  if good s then
    let '(a, b) := if skipws s then skip (ahead s) (behind s) else (ahead s, behind s) in
    match a with
    | c :: a' => (Some c, move s a' (c :: b))
    | [] => (None, set_fail (set_eof (move s a b)))
    end
  else (None, set_fail s).

(** [in.peek()]. *)
Definition peek (s : istream) : Z * istream :=
  if good s then
    match ahead s with
    | c :: _ => (Ctype.int_of_char c, s)
    | [] => (EOF, set_eof s)
    end
  else (EOF, set_fail s).

(** [in.get()]. *)
Definition get (s : istream) : Z * istream :=
  if good s then
    match ahead s with
    | c :: a' => (Ctype.int_of_char c, move s a' (c :: behind s))
    | [] => (EOF, set_fail (set_eof s))
    end
  else (EOF, set_fail s).

(** [in.putback(c)]: the eof bit is cleared first; on a stream that is then
    good the last character read is made available again, which needs it
    to be [c] (the buffer is read-only). *)
Definition putback (c : ascii) (s : istream) : istream :=
  let s := mkIstream (ahead s) (behind s) false (failbit s) (badbit s) (skipws s) in
  if good s then
    match behind s with
    | p :: b' => if bool_decide (p = c) then move s (p :: ahead s) b' else set_bad s
    | [] => set_bad s
    end
  else set_fail s.

(** [in.ignore(max, '\n')]. *)
Fixpoint drop_line (a b : list ascii) : option (list ascii * list ascii) :=
  match a with
  | c :: a' => if bool_decide (c = "010"%char) then Some (a', c :: b) else drop_line a' (c :: b)
  | [] => None
  end.

Definition ignore_line (s : istream) : istream :=
  if good s then
    match drop_line (ahead s) (behind s) with
    | Some (a, b) => move s a b
    | None => set_eof (move s [] (rev (ahead s) ++ behind s))
    end
  else set_fail s.

Definition of_string (text : string) : istream :=
  mkIstream (list_ascii_of_string text) [] false false false true.

End Stream.

(** ** Decimal text to [double]

    [strtod] is the C library's; it is modelled on the decimal forms, the
    only ones [lex_number] lets through: white space, a sign, digits with
    an optional point, an optional exponent; the value is rounded to
    nearest, ties to even.  [ERANGE] is raised on overflow and on a result
    below the normal range. *)
Module Strtod.
Import Num Ctype.

Definition frac_exp (l : list ascii) : Z * list ascii :=
  match l with
  | c :: l' =>
      if bool_decide (c = "e"%char) || bool_decide (c = "E"%char) then
        let '(neg, l'') := match l' with
                           | "-"%char :: t => (true, t)
                           | "+"%char :: t => (false, t)
                           | _ => (false, l')
                           end in
        let '(v, n, rest) := take_digits 0 0 l'' in
        if (n =? 0)%nat then (0, l) else (if neg then - v else v, rest)
      else (0, l)
  | [] => (0, l)
  end.

(** The rounded quotient [m * 10^e10], for [m > 0]. *)
Definition round_decimal (s : bool) (m : positive) (e10 : Z) : Float :=
  if 0 <=? e10 then binary_normalize prec emax (if s then Z.neg m * 10 ^ e10 else Z.pos m * 10 ^ e10) 0 s
  else SFdiv prec emax (S754_finite s m 0) (S754_finite false (Z.to_pos (10 ^ (- e10))) 0).

Definition below_normal (x : Float) : bool :=
  match x with
  | S754_finite _ m _ => Z.pos (digits2_pos m) <? prec
  | _ => false
  end.

Record parsed : Type := mkParsed {
  value : Float;         (* the result *)
  consumed : bool;       (* whether any conversion took place *)
  erange : bool          (* errno == ERANGE *)
}.

Definition strtod (s : string) : parsed :=
  let l := skip_space (list_ascii_of_string s) in
  let '(neg, l) := match l with
                   | "-"%char :: t => (true, t)
                   | "+"%char :: t => (false, t)
                   | _ => (false, l)
                   end in
  let '(ip, n1, l) := take_digits 0 0 l in
  let '(m, n2, l) := match l with
                     | "."%char :: t =>
                         let '(m, n2, t') := take_digits ip 0 t in
                         if (n1 + n2 =? 0)%nat then (ip, 0%nat, l) else (m, n2, t')
                     | _ => (ip, 0%nat, l)
                     end in
  if (n1 + n2 =? 0)%nat then mkParsed Fzero false false
  else
    let '(e10, _) := frac_exp l in
    match m with
    | Z.pos p =>
        let x := round_decimal neg p (e10 - Z.of_nat n2) in
        let range := match x with
                     | S754_infinity _ | S754_zero _ => true
                     | _ => below_normal x
                     end in
        mkParsed x true range
    | _ => mkParsed (S754_zero neg) true false
    end.

(** [std::stod]. *)
Definition stod (s : string) : res Float :=
  let r := strtod s in
  if negb (consumed r) then Throw invalid_argument
  else if erange r then Throw out_of_range
  else Ret (value r).

(** [str2double] of [parser.cpp], called without [pos]. *)
Definition str2double (s : string) : res Float :=
  let r := strtod s in
  let x := value r in
  if erange r then
    if negb (negb (Feqb x Fzero) && Fgtb x (S754_infinity true) && Fltb x (S754_infinity false))
    then Throw out_of_range
    else Ret x
  else Ret x.

End Strtod.

(** ** parser.cpp: the lexers *)

(** [enum class Parser::Token]. *)
Inductive Token : Type :=
| Tok_None | Tok_OBrace | Tok_CBrace | Tok_Comment | Tok_Dot
| Tok_Quote | Tok_QuasiQuote | Tok_Unquote | Tok_UnquoteSplice
| Tok_True | Tok_False | Tok_Char | Tok_String | Tok_Number | Tok_Regex
| Tok_Symbol | Tok_Vector | Tok_Eof | Tok_Error.

#[global] Instance Token_eq_dec : EqDecision Token.
Proof. solve_decision. Defined.

Module Lexer.
Import Num Ctype.

Definition dquote : ascii := "034"%char.
Definition backslash : ascii := "\"%char.

(** [str[i]]; reading at [str.size()] yields the terminating NUL. *)
Definition char_at (s : string) (i : nat) : ascii :=
  default "000"%char (list_ascii_of_string s !! i).
Definition code_at (s : string) (i : nat) : Z := int_of_char (char_at s i).
Definition size (s : string) : nat := String.length s.
(** [str.substr(pos)] and [str.substr(pos, n)] for [pos <= size]. *)
Definition substr (s : string) (pos : nat) : string := string_of_list_ascii (drop pos (list_ascii_of_string s)).
Definition substr_n (s : string) (pos n : nat) : string :=
  string_of_list_ascii (take n (drop pos (list_ascii_of_string s))).
Definition push_back (s : string) (c : ascii) : string := s +:+ String c EmptyString.

(** [static_cast<Char>] of an [int]: the cell keeps the code point. *)
Definition to_Char (i : Z) : Char := i.

(** [bool Parser::is_special(int c)]. *)
Definition is_special (c : Z) : bool := strchr (String dquote "()'`,;") c.

(** [bool Parser::is_alpha(int c)]. *)
Definition is_alpha (c : Z) : bool := iswgraph c && negb (iswdigit c) && negb (is_special c).

(** [bool Parser::is_digit(const String& str, size_t n)]. *)
Fixpoint is_digit_loop (l : list ascii) (has_digit has_imag : bool) : option (bool * bool) :=
  match l with
  | [] => Some (has_digit, has_imag)
  | c :: l' =>
      let ci := int_of_char c in
      let has_digit := if has_digit then true else iswdigit ci in
      let has_imag := if has_imag then true else strchr "iI" ci in
      if negb (iswdigit ci) && negb (strchr "+-.iIeE" ci) then None
      else is_digit_loop l' has_digit has_imag
  end.

Definition is_digit (str : string) (n : nat) : bool :=
  let n := if (n =? 0)%nat then size str else Nat.min n (size str) in
  let has_digit := iswdigit (code_at str 0) in
  let has_sign := strchr "+-" (code_at str 0) in
  if (size str =? 0)%nat || ((size str =? 1)%nat && negb has_digit) then false
  else match is_digit_loop (take n (list_ascii_of_string str)) has_digit false with
       | None => false
       | Some (has_digit, has_imag) =>
           has_digit || ((size str <=? 2)%nat && (has_sign || has_imag))
       end.

(** [Parser::lex_symbol]. *)
Definition lex_symbol (str : string) : Token :=
  if (size str =? 0)%nat || negb (is_alpha (code_at str 0)) then Tok_Error
  else if forallb (fun c => is_alpha (int_of_char c) || iswdigit (int_of_char c))
                  (list_ascii_of_string str)
       then Tok_Symbol else Tok_Error.

(** [Parser::lex_number].  The loop state is [is_flo], [is_cpx], the
    complex [z] under construction and [pos]; [ip] is the index of the
    character looked at. *)
Record numstate : Type := mkNumstate {
  is_flo : bool; is_cpx : bool; zre : Float; zim : Float; pos : nat
}.

Fixpoint lex_number_loop (str : string) (rest : list ascii) (ip : nat) (prev : ascii)
    (st : numstate) : res (option numstate) :=
  match rest with
  | [] => Ret (Some st)
  | c :: rest' =>
      let ci := int_of_char c in
      if iswdigit ci then lex_number_loop str rest' (S ip) c st
      else if strchr ".eE" ci then
        lex_number_loop str rest' (S ip) c (mkNumstate true (is_cpx st) (zre st) (zim st) (pos st))
      else if strchr "+-" ci then
        if negb (strchr "eE" (int_of_char prev)) then
          x ← Strtod.stod (substr_n str 0 ip);
          let im := if bool_decide (c = "+"%char) then zim st else Float_of_Z (-1) in
          lex_number_loop str rest' (S ip) c (mkNumstate (is_flo st) true x im ip)
        else lex_number_loop str rest' (S ip) c st
      else if strchr "iI" ci && (length rest' =? 0)%nat then
        if (size str <=? pos st)%nat then Throw out_of_range     (* str.at(pos) *)
        else if iswdigit (code_at str (pos st)) || (pos st + 2 <? size str)%nat then
          x ← Strtod.stod (substr str (pos st));
          let im := if SFleb Fzero (zim st) then x else SFopp x in
          lex_number_loop str rest' (S ip) c (mkNumstate (is_flo st) true (zre st) im (pos st))
        else lex_number_loop str rest' (S ip) c (mkNumstate (is_flo st) true (zre st) (zim st) (pos st))
      else Ret None
  end.

Definition lex_number (str : string) (num : Number) : res (Token * Number) :=
  if (size str =? 0)%nat then Ret (Tok_Error, num)
  else
    let c0 := code_at str 0 in
    if strchr "+-" c0 && strchr "iI" (code_at str 1) then
      let z := if negb (c0 =? int_of_char "-"%char)
               then mkComplex Fzero Fone
               else mkComplex (SFopp Fzero) (SFopp Fone) in
      Ret (Tok_Number, Number_of_Complex z)
    else
      let signed := strchr "+-." c0 in
      let flo := signed && (c0 =? int_of_char "."%char) in
      let ip := if signed then 1%nat else 0%nat in
      if iswdigit (code_at str ip) then
        r ← lex_number_loop str (drop (S ip) (list_ascii_of_string str)) (S ip) (char_at str ip)
              (mkNumstate flo false Fzero Fone 0);
        match r with
        | None => Ret (Tok_Error, NInt 0)
        | Some st =>
            if is_cpx st then Ret (Tok_Number, Number_of_Complex (mkComplex (zre st) (zim st)))
            else if is_flo st then
              x ← Strtod.str2double str; Ret (Tok_Number, NFloat x)
            else
              match stol str with
              | Ret i => Ret (Tok_Number, NInt i)
              | Throw out_of_range => x ← Strtod.stod str; Ret (Tok_Number, NFloat x)
              | Throw e => Throw e
              | Timeout => Timeout
              end
        end
      else Ret (Tok_Error, NInt 0).

(** [Parser::lex_string]: [c] is the local that survives a failed read; it
    starts out indeterminate ([None], which no case label matches and
    which is not printable). *)
Fixpoint lex_string_loop (fuel : nat) (c : option ascii) (str : string) (ins : istream)
    : Token * string * istream :=
  match fuel with
  | O => (Tok_Error, str, ins)
  | S fuel' =>
      if Stream.ok ins then
        let '(r, ins) := Stream.extract (Stream.noskipws ins) in
        let c := match r with Some x => Some x | None => c end in
        if bool_decide (c = Some dquote) then (Tok_String, str, ins)
        else
          let '(c, str, ins) :=
            if bool_decide (c = Some backslash) then
              let '(r, ins) := Stream.extract ins in
              (match r with Some x => Some x | None => c end, push_back str backslash, ins)
            else (c, str, ins) in
          match c with
          | Some x => if iswprint (int_of_char x)
                      then lex_string_loop fuel' c (push_back str x) ins
                      else (Tok_Error, str, ins)
          | None => (Tok_Error, str, ins)
          end
      else (Tok_Error, str, ins)
  end.

Definition lex_string (ins : istream) : Token * string * istream :=
  lex_string_loop (S (S (length (ahead ins)))) None EmptyString ins.

(** [Parser::lex_regex]. *)
Definition lex_regex (str : string) (ins : istream) : Token * string * istream :=
  if negb (bool_decide (str = "#re")) then (Tok_Error, str, ins)
  else
    let '(c, ins) := Stream.get ins in
    if negb (c =? int_of_char dquote) then (Tok_Error, str, ins)
    else
      let '(tok, str, ins) := lex_string ins in
      if negb (bool_decide (tok = Tok_String)) then (Tok_Error, str, ins)
      else (Tok_Regex, str, ins).

End Lexer.

(** ** parser.cpp: character literals *)

Module CharLexer.
Import Ctype Lexer.

(** The table [stab] of [lex_char], in the order of the source, duplicates
    included; the named characters are given by their code points. *)
Definition stab : list (string * Z) :=
  [
    ("#\eof", EOF); ("#\alarm", 7); ("#\backspace", 8);
    ("#\delete", 0); ("#\escape", 0); ("#\newline", 10);
    ("#\null", 0); ("#\return", 13); ("#\space", 32);
    ("#\tab", 9); ("#\ae", 228); ("#\AE", 196);
    ("#\ue", 252); ("#\UE", 220); ("#\oe", 246);
    ("#\OE", 214); ("#\ss", 223); ("#\_0", 8320);
    ("#\^0", 8304); ("#\_1", 8321); ("#\^1", 185);
    ("#\_2", 8322); ("#\^2", 178); ("#\_3", 8323);
    ("#\^3", 179); ("#\_4", 8324); ("#\^4", 8308);
    ("#\_5", 8325); ("#\^5", 8309); ("#\_6", 8326);
    ("#\^6", 8310); ("#\_7", 8327); ("#\^7", 8311);
    ("#\_8", 8328); ("#\^8", 8312); ("#\_9", 8329);
    ("#\^9", 8313); ("#\alpha", 945); ("#\beta", 946);
    ("#\gamma", 947); ("#\Gamma", 915); ("#\delta", 948);
    ("#\Delta", 916); ("#\epsilon", 949); ("#\zeta", 950);
    ("#\eta", 951); ("#\theta", 952); ("#\iota", 953);
    ("#\kappa", 954); ("#\lambda", 955); ("#\mu", 956);
    ("#\nu", 957); ("#\xi", 958); ("#\Xi", 926);
    ("#\omicron", 959); ("#\pi", 960); ("#\Pi", 928);
    ("#\rho", 961); ("#\tau", 964); ("#\sigma", 963);
    ("#\Sigma", 931); ("#\upsilon", 965); ("#\phi", 966);
    ("#\Phi", 934); ("#\chi", 967); ("#\psi", 968);
    ("#\Psi", 936); ("#\omega", 969); ("#\Omega", 937);
    ("#\le", 8804); ("#\ge", 8805); ("#\sim", 8764);
    ("#\simeq", 8771); ("#\approx", 8776); ("#\nabla", 8711);
    ("#\nabla", 8711); ("#\nabla", 8711); ("#\sum", 8721);
    ("#\prod", 8719); ("#\int", 8747); ("#\oint", 8750);
    ("#\pm", 177); ("#\div", 247); ("#\cdot", 183);
    ("#\star", 8902); ("#\circ", 8728); ("#\bullet", 8226);
    ("#\diamond", 9671); ("#\lhd", 9665); ("#\rhd", 9655);
    ("#\trup", 9651); ("#\trdown", 9661); ("#\times", 215);
    ("#\otimes", 8855); ("#\in", 8712); ("#\notin", 8713);
    ("#\subset", 8834); ("#\subseteq", 8838); ("#\in", 8712);
    ("#\infty", 8734)
  ].

(** The loop over [stab]: the first entry whose name is [name]. *)
Fixpoint stab_find (tab : list (string * Z)) (name : string) : option Z :=
  match tab with
  | [] => None
  | (n, c) :: tab' => if bool_decide (n = name) then Some c else stab_find tab' name
  end.

(** [Parser::lex_char(const String& str, Char& c, istream_type& in)]. *)
Definition lex_char (str : string) (c : Char) (ins : istream) : res (Token * Char * istream) :=
  let '(delimited, ins) :=
    if (size str =? 2)%nat then
      let '(p, ins) := Stream.peek ins in
      if isspace p then (true, ins)
      else let '(p, ins) := Stream.peek ins in (is_special p, ins)
    else (false, ins) in
  if delimited then
    let '(g, ins) := Stream.get ins in Ret (Tok_Char, to_Char g, ins)
  else if (size str =? 3)%nat then Ret (Tok_Char, to_Char (code_at str 2), ins)
  else if (3 <? size str)%nat && bool_decide (char_at str 2 = "x"%char) then
    let s := String "0"%char (substr (substr str 1) 1) in
    v ← stoi s;
    Ret (Tok_Char, to_Char v, ins)
  else
    match stab_find stab (lower_string str) with
    | Some k => Ret (Tok_Char, to_Char k, ins)
    | None => Ret (Tok_Error, c, ins)
    end.

End CharLexer.

(** ** streamop.cpp: the printer *)

#[global] Instance spec_float_eq_dec : EqDecision spec_float.
Proof. solve_decision. Defined.
#[global] Instance Complex_eq_dec : EqDecision Num.Complex.
Proof. solve_decision. Defined.
#[global] Instance Number_eq_dec : EqDecision Num.Number.
Proof. solve_decision. Defined.
#[global] Instance Intern_eq_dec : EqDecision Intern.
Proof. solve_decision. Defined.
#[global] Instance Cell_eq_dec : EqDecision Cell.
Proof. solve_decision. Defined.

Module Printer.
Import Ctype Lexer.

(** [operator<<(os, const Symbol&)]. *)
Definition write_Symbol (name : string) : string :=
  if bool_decide (" "%char ∈ list_ascii_of_string name) then "|" +:+ name +:+ "|" else name.

(** [operator<<(os, const DisplayManip<StringPtr>&)]. *)
Definition escape (c : ascii) : ascii :=
  if bool_decide (c = "a"%char) then "007"%char
  else if bool_decide (c = "b"%char) then "008"%char
  else if bool_decide (c = "n"%char) then "010"%char
  else if bool_decide (c = "r"%char) then "013"%char
  else if bool_decide (c = "t"%char) then "009"%char
  else c.

Fixpoint display_chars (l : list ascii) : list ascii :=
  match l with
  | [] => []
  | c :: rest =>
      if bool_decide (c = backslash) then
        match rest with
        | d :: rest' => escape d :: display_chars rest'
        | [] => [c]
        end
      else c :: display_chars rest
  end.

Definition display_String (s : string) : string :=
  string_of_list_ascii (display_chars (list_ascii_of_string s)).

(** [operator<<(os, Intern opcode)]. *)
Definition write_Intern (op : Intern) : string :=
  match op with
  | _or => "or" | _and => "and" | _if => "if" | _cond => "cond"
  | _else => "else" | _arrow => "=>" | _when => "when" | _unless => "unless"
  | _define => "define" | _setb => "set!" | _begin => "begin"
  | _lambda => "lambda" | _macro => "define-macro" | _apply => "apply"
  | _quote => "quote" | _quasiquote => "quasiquote" | _unquote => "unquote"
  | _unquotesplice => "unquote-splicing"
  | _ => "#<primop>"
  end.

(** [operator<<(os, const Procedure&)]. *)
Definition write_Procedure (is_macro : bool) : string :=
  if is_macro then "#<macro>" else "#<clojure>".

(** The stream's rendering of a pointer. *)
Definition write_pointer (addr : nat) : string :=
  "0x" +:+ HexadecimalString.NilZero.string_of_uint (N.to_hex_uint (N.of_nat addr)).

(** [slow == iter] on cells. *)
Definition same (a b : Cell) : bool := bool_decide (a = b).

Section Lists.
(** [pr] is the printer of the elements, [operator<<(os, const Cell&)]. *)
Variable pr : Cell → res string.
Variable scm : Scheme.

(** The end of the printer of [Cons] pointers, after the loop. *)
Definition write_tail (iter : Cell) (out : string) : res string :=
  if is_nil iter then Ret (out +:+ ")")
  else s ← pr iter; Ret (out +:+ " . " +:+ s +:+ ")").

(** The [for] loop of the printer of [Cons] pointers: one unit of fuel for each
    iteration. *)
Fixpoint write_loop (n : nat) (iter slow : Cell) (out : string) : res string :=
  match n with
  | O => Timeout
  | S n' =>
      if is_pair iter then
        a ← car scm iter;
        sa ← pr a;
        let out := out +:+ " " +:+ sa in
        iter ← cdr scm iter;
        if negb (is_pair iter) || same slow iter then
          if same slow iter then Ret (out +:+ " ...)")
          else write_tail iter out
        else
          b ← car scm iter;
          sb ← pr b;
          let out := out +:+ " " +:+ sb in
          iter ← cdr scm iter;
          slow ← cdr scm slow;
          write_loop n' iter slow out
      else write_tail iter out
  end.

(** the printer of [Cons] pointers. *)
Definition write_Cons (n : nat) (cons : Cell) : res string :=
  a ← car scm cons;
  sa ← pr a;
  iter ← cdr scm cons;
  write_loop n iter iter ("(" +:+ sa).

(** [operator<<(os, const VectorPtr&)]. *)
Fixpoint write_elements (l : list Cell) (out : string) : res string :=
  match l with
  | [] => Ret out
  | c :: l' => s ← pr c; write_elements l' (out +:+ " " +:+ s)
  end.

Definition write_Vector (v : nat) : res string :=
  match vectors scm !! v with
  | None => Throw bad_variant_access
  | Some [] => Ret "#()"
  | Some (c :: l) => s ← pr c; out ← write_elements l ("#(" +:+ s); Ret (out +:+ ")")
  end.

End Lists.

(** [operator<<(os, const Cell&)], the write form.  The recursion through
    the elements of lists and vectors runs on fuel. *)
Fixpoint write_Cell (fuel : nat) (scm : Scheme) (c : Cell) : res string :=
  match fuel with
  | O => Timeout
  | S fuel' =>
      match c with
      | CNone => Ret "#<none>"
      | CNil => Ret "()"
      | CBool b => Ret (if b then "#t" else "#f")
      | CChar ch => Ret (if negb (ch =? EOF) then "#\" +:+ String (char_of_int ch) "" else "#\eof")
      | CString s => Ret (String dquote s +:+ String dquote "")
      | CRegex _ => Ret "#<regex>"
      | CMap => Ret "#<dict>"
      | CSymenv a => Ret ("#<symenv " +:+ write_pointer a +:+ ">")
      | CFunction name => Ret ("#<function " +:+ name +:+ ">")
      | CPort => Ret "#<port>"
      | CClock shown => Ret ("#<clock " +:+ shown +:+ ">")
      | CNumber n => Ret (NumPrint.write_Number n)
      | CIntern op => Ret (write_Intern op)
      | CSymbol s => Ret (write_Symbol s)
      | CProcedure m => Ret (write_Procedure m)
      | CPair _ => write_Cons (write_Cell fuel' scm) scm fuel' c
      | CVector v => write_Vector (write_Cell fuel' scm) scm v
      end
  end.

(** [operator<<(os, DisplayManip<Cell>)], the display form. *)
Definition display_Cell (fuel : nat) (scm : Scheme) (c : Cell) : res string :=
  match c with
  | CNone => Ret ""
  | CChar ch => Ret (String (char_of_int ch) "")
  | CString s => Ret (display_String s)
  | _ => write_Cell fuel scm c
  end.

End Printer.

(** ** String literals, item by item

    The body of a string literal as the reader meets it: plain characters
    and backslash escapes. *)
Module Literal.
Import Ctype Lexer.

Inductive item : Type :=
| Plain (c : ascii)
| Escaped (c : ascii).

(** The source text of an item and what [display] makes of it. *)
Definition source (it : item) : list ascii :=
  match it with
  | Plain c => [c]
  | Escaped c => [backslash; c]
  end.

(** "Recognized display-time escapes are \a \b \n \r \t; any other
    escape displays as the literal following character." *)
Definition expansion (c : ascii) : ascii :=
  match c with
  | "a" => "007"
  | "b" => "008"
  | "n" => "010"
  | "r" => "013"
  | "t" => "009"
  | _ => c
  end%char.

Definition shown (it : item) : ascii :=
  match it with
  | Plain c => c
  | Escaped c => expansion c
  end.

Definition well_formed (it : item) : bool :=
  match it with
  | Plain c => iswprint (int_of_char c) && negb (bool_decide (c = dquote))
               && negb (bool_decide (c = backslash))
  | Escaped c => iswprint (int_of_char c)
  end.

Definition sources (items : list item) : list ascii := concat (source <$> items).

End Literal.

(** ** The shape of a cell graph

    What the printer walks: the chain of [cdr]s from a cell and the
    nesting of elements through [car]s and vectors. *)
Module Shape.

Definition is_vector (c : Cell) : bool := match c with CVector _ => true | _ => false end.

(** One [cdr] step, where there is one. *)
Definition step (scm : Scheme) (t : Cell) : option Cell :=
  match t with
  | CPair p => cons_cdr <$> conses scm !! p
  | _ => None
  end.

(** The cell [k] [cdr]s away from [c]. *)
Fixpoint nth_cdr (scm : Scheme) (k : nat) (c : Cell) : option Cell :=
  match k with
  | O => Some c
  | S k' => t ← step scm c; nth_cdr scm k' t
  end.

(** A list is cyclic when its chain of [cdr]s never leaves the pairs. *)
Definition cyclic (scm : Scheme) (c : Cell) : Prop :=
  ∀ i, ∃ q, nth_cdr scm i c = Some (CPair q).

(** [depth_le scm d c]: every pointer met from [c] is valid, and elements
    (the [car]s along a chain of [cdr]s, the last [cdr], the elements of a
    vector) nest at most [d] deep.  The chain of [cdr]s itself may be
    cyclic. *)
Fixpoint depth_le (scm : Scheme) (d : nat) (c : Cell) {struct d} : Prop :=
  match d with
  | O => is_pair c = false ∧ is_vector c = false
  | S d' =>
      match c with
      | CPair _ =>
          ∀ k t, nth_cdr scm k c = Some t →
            match t with
            | CPair q => ∃ kons, conses scm !! q = Some kons ∧ depth_le scm d' (cons_car kons)
            | _ => depth_le scm d' t
            end
      | CVector v => ∃ l, vectors scm !! v = Some l ∧ Forall (depth_le scm d') l
      | _ => True
      end
  end.

(** Every pair of the chain from [c0] has a valid address. *)
Definition chain_valid (scm : Scheme) (c0 : Cell) : Prop :=
  ∀ k q, nth_cdr scm k c0 = Some (CPair q) → is_Some (conses scm !! q).

(** The loop of the printer stops in its iteration [k]: the hare meets the
    end of the list after one step or after two, or it meets the
    tortoise. *)
Definition stops (scm : Scheme) (c0 : Cell) (k : nat) : Prop :=
    (∃ t, nth_cdr scm (2 * k + 1) c0 = Some t ∧ is_pair t = false)
  ∨ (∃ t, nth_cdr scm (2 * k + 2) c0 = Some t ∧ is_pair t = false)
  ∨ (∃ t, nth_cdr scm (k + 1) c0 = Some t ∧ nth_cdr scm (2 * k + 2) c0 = Some t).

(** The number of pairs in the arena bounds the iterations of the
    printer's loop, and with the depth the fuel that printing needs. *)
Definition enough_fuel (scm : Scheme) (d : nat) : nat :=
  (d + length (conses scm) * length (conses scm) + 2)%nat.

(** [s] ends with the mark of a cycle. *)
Definition ends_with_dots (s : string) : Prop := ∃ pre, s = pre +:+ " ...)".

End Shape.

(** ** Two small heaps

    [(define x (list 1)) (set-car! x x)] run through [call], and the
    two-element list whose last [cdr] was set back to its first pair. *)
Module Heaps.

Definition empty : Scheme := mkScheme [] [] ∅ ∅.

Definition self_car : Scheme :=
  let scm1 := (call (ops := NumSpec.ops) CNone op_cons [CNumber (Num.NInt 1); CNil] empty).2 in
  (call (ops := NumSpec.ops) CNone op_setcar [CPair 0; CPair 0] scm1).2.

Definition two_cycle : Scheme :=
  let scm1 := (call (ops := NumSpec.ops) CNone op_list
                 [CNumber (Num.NInt 1); CNumber (Num.NInt 2)] empty).2 in
  (call (ops := NumSpec.ops) CNone op_setcdr [CPair 1; CPair 0] scm1).2.

End Heaps.

(** ** parser.cpp: tokens and the reader *)

(** The symbols the parser holds ([s_quote] ... [s_expr]); they are set
    when the parser is built and never change. *)
Record Symbols : Type := mkSymbols {
  s_quote : Symbol;
  s_quasiquote : Symbol;
  s_unquote : Symbol;
  s_unquotesplice : Symbol;
  s_expr : Symbol
}.

(** What a call of the reader works on: the parser's registers ([strtok],
    [numtok], [chrtok], [put_back]), the input stream and the interpreter
    [scm]. *)
Record Reader : Type := mkReader {
  strtok : string;
  numtok : Num.Number;
  chrtok : Char;
  put_back : Token;
  input : istream;
  world : Scheme
}.

Definition R (A : Type) : Type := Reader → res A * Reader.

#[global] Instance R_ret : MRet R := fun A a st => (Ret a, st).
#[global] Instance R_bind : MBind R := fun A B k m st =>
  match m st with
  | (Ret a, st') => k a st'
  | (Throw e, st') => (Throw e, st')
  | (Timeout, st') => (Timeout, st')
  end.

Module Parser.
Import Num Ctype Lexer CharLexer.

Definition raise {A} (e : exn) : R A := fun st => (Throw e, st).
Definition timeout {A} : R A := fun st => (Timeout, st).

Definition with_input (st : Reader) (ins : istream) : Reader :=
  mkReader (strtok st) (numtok st) (chrtok st) (put_back st) ins (world st).
Definition with_world (st : Reader) (scm : Scheme) : Reader :=
  mkReader (strtok st) (numtok st) (chrtok st) (put_back st) (input st) scm.
Definition with_put_back (st : Reader) (tok : Token) : Reader :=
  mkReader (strtok st) (numtok st) (chrtok st) tok (input st) (world st).
Definition with_lexeme (st : Reader) (str : string) (ins : istream) : Reader :=
  mkReader str (numtok st) (chrtok st) (put_back st) ins (world st).

(** The interpreter's operations, run on the reader's [scm]. *)
Definition in_world {A} (m : M A) : R A := fun st =>
  let '(r, scm) := m (world st) in (r, with_world st scm).

(** Modelled from the spec: [Scheme::cons], [Scheme::list], [Scheme::symbol]
    and [Scheme::addenv], whose class is not among the sources.  [symbol]
    interns a name; [addenv] binds a symbol in the top environment,
    replacing an earlier binding. *)
Definition scm_cons (a d : Cell) : R Cell := in_world (m_cons a d).
Definition scm_list2 (a b : Cell) : R Cell :=
  in_world (t ← m_cons b nil; m_cons a t).
Definition scm_symbol (name : string) : R Cell := fun st =>
  let scm := world st in
  (Ret (CSymbol name),
   with_world st (mkScheme (conses scm) (vectors scm) ({[name]} ∪ symtab scm) (topenv scm))).
Definition scm_addenv (sym : Symbol) (val : Cell) : R unit := fun st =>
  let scm := world st in
  (Ret (), with_world st (mkScheme (conses scm) (vectors scm) (symtab scm)
                            (<[sym := val]> (topenv scm)))).

(** [vec(0, none)] and [vptr->push_back(cell)]. *)
Definition new_vector : R nat := fun st =>
  let scm := world st in
  (Ret (length (vectors scm)),
   with_world st (mkScheme (conses scm) (vectors scm ++ [[]]) (symtab scm) (topenv scm))).
Definition vector_push (v : nat) (c : Cell) : R unit := fun st =>
  let scm := world st in
  match vectors scm !! v with
  | Some l => (Ret (), with_world st (mkScheme (conses scm) (<[v := l ++ [c]]> (vectors scm))
                                        (symtab scm) (topenv scm)))
  | None => (Throw bad_variant_access, st)
  end.

(** [Parser::lex_unquote]. *)
Definition lex_unquote (str : string) (ins : istream) : Token * istream :=
  if negb (size str =? 1)%nat then (Tok_Error, ins)
  else
    let '(p, ins) := Stream.peek ins in
    if p =? int_of_char "@"%char
    then let '(_, ins) := Stream.get ins in (Tok_UnquoteSplice, ins)
    else (Tok_Unquote, ins).

(** [Parser::skip_comment]. *)
Definition skip_comment (ins : istream) : Token * istream :=
  (Tok_Comment, Stream.ignore_line ins).

Section Reading.
Context {ops : NumberOps}.
Variable sy : Symbols.

(** [Parser::lex_special]: the lexeme may be rewritten (by [lex_regex]),
    and so may [chrtok] and [numtok]. *)
Definition lex_special : R Token := fun st =>
  let str := strtok st in
  let via_char :=
    match lex_char str (chrtok st) (input st) with
    | Ret (tok, c, ins) => (Ret tok, mkReader str (numtok st) c (put_back st) ins (world st))
    | Throw e => (Throw e, st)
    | Timeout => (Timeout, st)
    end in
  let via_number (exact : bool) :=
    match lex_number (substr str 2) (numtok st) with
    | Ret (tok, num) =>
        let num := if exact && bool_decide (tok = Tok_Number) then num_trunc num else num in
        (Ret tok, mkReader str num (chrtok st) (put_back st) (input st) (world st))
    | Throw e => (Throw e, st)
    | Timeout => (Timeout, st)
    end in
  if bool_decide (str = "#") then (Ret Tok_Vector, st)
  else if (size str <? 2)%nat then (Throw out_of_range, st)
  else
    let c1 := char_at str 1 in
    if bool_decide (c1 = "t"%char) then
      if bool_decide (str = "#t") || bool_decide (str = "#true") then (Ret Tok_True, st)
      else if bool_decide (str = "#f") || bool_decide (str = "#false") then (Ret Tok_False, st)
      else via_char
    else if bool_decide (c1 = "f"%char) then
      if bool_decide (str = "#f") || bool_decide (str = "#false") then (Ret Tok_False, st)
      else via_char
    else if bool_decide (c1 = backslash) then via_char
    else if bool_decide (c1 = "e"%char) then via_number true
    else if bool_decide (c1 = "i"%char) then via_number false
    else if bool_decide (c1 = "r"%char) then
      let '(tok, str', ins) := lex_regex str (input st) in
      (Ret tok, with_lexeme st str' ins)
    else (Ret Tok_Error, st).

(** [while (in >> c && iswspace(c));] *)
Fixpoint skip_blanks (fuel : nat) (c : option ascii) (ins : istream) : option ascii * istream :=
  match fuel with
  | O => (c, ins)
  | S fuel' =>
      let '(r, ins) := Stream.extract ins in
      match r with
      | None => (c, ins)
      | Some x => if iswspace (int_of_char x) then skip_blanks fuel' (Some x) ins
                  else (Some x, ins)
      end
  end.

(** [while (in >> std::noskipws >> c && !iswspace(c) && !is_special(c))
    strtok.push_back(c);] *)
Fixpoint read_lexeme (fuel : nat) (c : ascii) (str : string) (ins : istream)
    : ascii * string * istream :=
  match fuel with
  | O => (c, str, ins)
  | S fuel' =>
      let '(r, ins) := Stream.extract (Stream.noskipws ins) in
      match r with
      | None => (c, str, ins)
      | Some x =>
          if negb (iswspace (int_of_char x)) && negb (is_special (int_of_char x))
          then read_lexeme fuel' x (push_back str x) ins
          else (x, str, ins)
      end
  end.

(** The [switch] at the end of [Parser::get_token], on the first character
    of the lexeme. *)
Definition classify : R Token := fun st =>
  let str := strtok st in
  let c := char_at str 0 in
  let by_content :=
    if is_digit str 2 then
      match lex_number str (numtok st) with
      | Ret (tok, num) =>
          (Ret tok, mkReader str num (chrtok st) (put_back st) (input st) (world st))
      | Throw e => (Throw e, st)
      | Timeout => (Timeout, st)
      end
    else (Ret (lex_symbol str), st) in
  if bool_decide (c = "("%char) then (Ret Tok_OBrace, st)
  else if bool_decide (c = ")"%char) then (Ret Tok_CBrace, st)
  else if bool_decide (c = "'"%char) then (Ret Tok_Quote, st)
  else if bool_decide (c = "`"%char) then (Ret Tok_QuasiQuote, st)
  else if bool_decide (c = ","%char) then
    let '(tok, ins) := lex_unquote str (input st) in (Ret tok, with_input st ins)
  else if bool_decide (c = ";"%char) then
    let '(tok, ins) := skip_comment (input st) in (Ret tok, with_input st ins)
  else if bool_decide (c = "#"%char) then lex_special st
  else if bool_decide (c = dquote) then
    let '(tok, str', ins) := lex_string (input st) in (Ret tok, with_lexeme st str' ins)
  else if bool_decide (c = "."%char) && (size str =? 1)%nat then (Ret Tok_Dot, st)
  else by_content.

(** [Parser::get_token]. *)
Definition get_token : R Token := fun st =>
  if negb (bool_decide (put_back st = Tok_None)) then
    (Ret (put_back st), with_put_back st Tok_None)
  else
    let '(c, ins) := skip_blanks (S (length (ahead (input st)))) None (input st) in
    if negb (Stream.good ins) then
      (Ret (if Stream.eof ins then Tok_Eof else Tok_Error), with_input st ins)
    else
      match c with
      | None => (Ret Tok_Error, with_input st ins)
      | Some c =>
          let str := String c EmptyString in
          if is_special (int_of_char c) then classify (with_lexeme st str ins)
          else
            let '(c, str, ins) := read_lexeme (S (length (ahead ins))) c str ins in
            if negb (Stream.good ins) && negb (Stream.eof ins)
            then (Ret Tok_Error, with_lexeme st str ins)
            else classify (with_lexeme st str (Stream.putback c ins))
      end.

Definition clear_input : R unit := fun st => (Ret (), with_input st (Stream.clear (input st))).
Definition input_good : R bool := fun st => (Ret (Stream.good (input st)), st).
Definition set_put_back (tok : Token) : R unit := fun st => (Ret (), with_put_back st tok).
Definition the_lexeme : R string := fun st => (Ret (strtok st), st).
Definition the_number : R Number := fun st => (Ret (numtok st), st).
Definition the_char : R Char := fun st => (Ret (chrtok st), st).

Definition list_error : exn := parse_error "error while reading list".
Definition vector_error : exn := parse_error "error while reading vector".

(** [Parser::read], [Parser::parse_list] and [Parser::parse_vector]: one
    unit of fuel for each iteration of their loops and each call among
    them.  [read_tokens] is the [for (;;)] of [read], [parse_list_loop] and
    [parse_vector_loop] are the [while (in.good())] loops, with the locals
    [list], [tail] and [vptr] as arguments. *)
Fixpoint read_tokens (fuel : nat) : R Cell :=
  match fuel with
  | O => timeout
  | S fuel' =>
      let read := (_ ← clear_input; read_tokens fuel') in
      tok ← get_token;
      match tok with
      | Tok_Comment => read_tokens fuel'
      | Tok_True => mret (CBool true)
      | Tok_False => mret (CBool false)
      | Tok_Char => c ← the_char; mret (CChar c)
      | Tok_Quote => c ← read; scm_list2 (CSymbol (s_quote sy)) c
      | Tok_QuasiQuote => c ← read; scm_list2 (CSymbol (s_quasiquote sy)) c
      | Tok_Unquote => c ← read; scm_list2 (CSymbol (s_unquote sy)) c
      | Tok_UnquoteSplice => c ← read; scm_list2 (CSymbol (s_unquotesplice sy)) c
      | Tok_Number => n ← the_number; mret (CNumber n)
      | Tok_String => s ← the_lexeme; mret (CString s)
      | Tok_Regex => s ← the_lexeme; mret (CRegex s)
      | Tok_Symbol => s ← the_lexeme; scm_symbol s
      | Tok_Vector =>
          v ← new_vector;
          tok ← get_token;
          if bool_decide (tok = Tok_OBrace) then parse_vector_loop fuel' v
          else raise vector_error
      | Tok_OBrace => parse_list_loop fuel' nil nil
      | Tok_Eof => mret (CChar (to_Char EOF))
      | _ => raise (parse_error "invalid token")
      end
  end
with parse_list_loop (fuel : nat) (list tail : Cell) : R Cell :=
  match fuel with
  | O => timeout
  | S fuel' =>
      let read := (_ ← clear_input; read_tokens fuel') in
      good ← input_good;
      if negb good then raise list_error
      else
        tok ← get_token;
        match tok with
        | Tok_Comment => parse_list_loop fuel' list tail
        | Tok_CBrace => mret list
        | Tok_Dot =>
            cell ← read;
            tok ← get_token;
            if bool_decide (tok = Tok_CBrace)
            then (_ ← in_world (m_set_cdr tail cell); mret list)
            else raise list_error
        | Tok_Eof | Tok_Error => raise list_error
        | _ =>
            _ ← set_put_back tok;
            cell ← read;
            if is_pair tail then
              k ← scm_cons cell nil;
              _ ← in_world (m_set_cdr tail k);
              tail ← in_world (lift (fun scm => cdr scm tail));
              parse_list_loop fuel' list tail
            else
              l ← scm_cons cell nil;
              _ ← scm_addenv (s_expr sy) l;
              parse_list_loop fuel' l l
        end
  end
with parse_vector_loop (fuel : nat) (vptr : nat) : R Cell :=
  match fuel with
  | O => timeout
  | S fuel' =>
      let read := (_ ← clear_input; read_tokens fuel') in
      good ← input_good;
      if negb good then raise vector_error
      else
        tok ← get_token;
        match tok with
        | Tok_Comment => parse_vector_loop fuel' vptr
        | Tok_CBrace => mret (CVector vptr)
        | Tok_Eof | Tok_Error => raise vector_error
        | _ =>
            _ ← set_put_back tok;
            cell ← read;
            _ ← vector_push vptr cell;
            parse_vector_loop fuel' vptr
        end
  end.

(** [Cell Parser::read(istream_type& in)]. *)
Definition read (fuel : nat) : R Cell := _ ← clear_input; read_tokens fuel.

(** [Cell Parser::parse_list(istream_type& in)]. *)
Definition parse_list (fuel : nat) : R Cell := parse_list_loop fuel nil nil.

End Reading.

(** A reader at the start of [text], over the interpreter [scm]. *)
Definition start (text : string) (scm : Scheme) : Reader :=
  mkReader EmptyString (NInt 0) 0 Tok_None (Stream.of_string text) scm.

Definition symbols : Symbols :=
  mkSymbols "quote" "quasiquote" "unquote" "unquote-splicing" "expr".

End Parser.

(** ** The reader and the slot of the sentinel *)
Module Rooting.

Section Slot.
Variable sy : Symbols.

Definition env (st : Reader) : gmap string Cell := topenv (world st).

(** The slot of the sentinel holds a pair. *)
Definition rooted (st : Reader) : Prop := ∃ q, env st !! s_expr sy = Some (CPair q).

(** What the reader may do to the top environment between two states:
    nothing outside the slot of the sentinel, and in the slot nothing or
    the storing of a pair. *)
Definition frame (st st' : Reader) : Prop :=
  (∀ sym, sym ≠ s_expr sy → env st' !! sym = env st !! sym)
  ∧ (env st' !! s_expr sy = env st !! s_expr sy ∨ rooted st').

(** A computation of the reader keeps to the frame. *)
Definition framed {A} (m : R A) : Prop :=
  ∀ st r st', m st = (r, st') → frame st st'.

(** The tokens that start an element of a list. *)
Definition is_item (tok : Token) : bool :=
  match tok with
  | Tok_Comment | Tok_CBrace | Tok_Dot | Tok_Eof | Tok_Error => false
  | _ => true
  end.

(** The state after the first element [cell] of a list was read in [st]:
    a pair for it at the end of the arena, stored under the sentinel. *)
Definition rooted_first (cell : Cell) (st : Reader) : Reader :=
  let scm := world st in
  Parser.with_world st
    (mkScheme (conses scm ++ [mkCons cell nil false]) (vectors scm) (symtab scm)
       (<[s_expr sy := CPair (length (conses scm))]> (topenv scm))).

End Slot.

End Rooting.

(** ** Lists in the arena *)

Module Lists.

(** [list_of scm es t c]: from [c], the [car]s met along the [cdr]s are
    [es] and the last [cdr] is [t]. *)
Fixpoint list_of (scm : Scheme) (es : list Cell) (t : Cell) (c : Cell) : Prop :=
  match es with
  | [] => c = t
  | e :: es' =>
      ∃ p k, c = CPair p ∧ conses scm !! p = Some k ∧ cons_car k = e
             ∧ list_of scm es' t (cons_cdr k)
  end.

(** The pairs of a list of [es] laid out from address [n] on, each linked
    to the next. *)
Fixpoint list_cells (n : nat) (es : list Cell) : list Cons :=
  match es with
  | [] => []
  | e :: es' =>
      mkCons e (match es' with [] => CNil | _ => CPair (S n) end) false
      :: list_cells (S n) es'
  end.

Definition is_number (c : Cell) : bool := match c with CNumber _ => true | _ => false end.

End Lists.

(** ** The text of a printed sequence *)

Module Text.

(** The printed elements, each after a blank. *)
Definition spaced (ss : list string) : string :=
  foldr (fun s acc => " " +:+ s +:+ acc) "" ss.

(** The list [(1 2)] made by [list]. *)
Definition one_two : Scheme :=
  (call (ops := NumSpec.ops) CNone op_list
     [CNumber (Num.NInt 1); CNumber (Num.NInt 2)] Heaps.empty).2.

(** A heap with the vector [#(1 #t)]. *)
Definition with_vector : Scheme :=
  mkScheme [] [[CNumber (Num.NInt 1); CBool true]] ∅ ∅.

End Text.

(** ** Where a string literal stops *)

Module Unclosed.
Import Lexer Literal.

Definition payload (it : item) : ascii :=
  match it with
  | Plain c => c
  | Escaped c => c
  end.

(** The character last stored in the local [c] of [lex_string] once the
    items have been read. *)
Fixpoint last_read (c : option ascii) (items : list item) : option ascii :=
  match items with
  | [] => c
  | it :: items' => last_read (Some (payload it)) items'
  end.

(** The body ends with an escaped double quote. *)
Definition ends_with_escaped_quote (items : list item) : bool :=
  match last items with
  | Some (Escaped c) => bool_decide (c = dquote)
  | _ => false
  end.

End Unclosed.

(** ** Lexemes *)

Module Lexeme.
Import Ctype Lexer.

(** White space, as [get_token] skips it. *)
Definition blank (c : ascii) : bool := iswspace (int_of_char c).

(** The characters that end a lexeme: white space and the special ones. *)
Definition delimiter (c : ascii) : bool :=
  iswspace (int_of_char c) || is_special (int_of_char c).

(** The first characters on which [get_token] dispatches before it looks
    at the content of the lexeme. *)
Definition dispatch : list ascii :=
  ["("; ")"; "'"; "`"; ","; ";"; "#"; dquote; "."]%char.

(** What may follow a lexeme: the end of the input or a delimiter. *)
Definition ends (rest : list ascii) : bool :=
  match rest with
  | [] => true
  | d :: _ => delimiter d
  end.

End Lexeme.

(** ** port.hpp: ports and their exceptions *)

Module Port.

(** [std::ios_base::openmode] is a bit mask; the values of the bits are
    the library's (those of libstdc++ here). *)
Definition openmode : Type := Z.
Definition ios_binary : openmode := 4.
Definition ios_in : openmode := 8.
Definition ios_out : openmode := 16.

(** The state bits of the stream of a port. *)
Record iostate : Type := mkIostate {
  eofbit : bool;
  failbit : bool;
  badbit : bool
}.

Definition goodbit : iostate := mkIostate false false false.

(** [class Port]: the stream, as far as its state goes, and the [mode]. *)
Record Port : Type := mkPort {
  m_stream : iostate;
  mode : openmode
}.

Definition eof (p : Port) : bool := eofbit (m_stream p).
Definition fail (p : Port) : bool := failbit (m_stream p) || badbit (m_stream p).
Definition good (p : Port) : bool :=
  negb (eofbit (m_stream p) || failbit (m_stream p) || badbit (m_stream p)).
Definition bad (p : Port) : bool := badbit (m_stream p).

Definition clear (p : Port) : Port := mkPort goodbit (mode p).

Definition isInput (p : Port) : bool := negb (Z.land (mode p) ios_in =? 0).
Definition isOutput (p : Port) : bool := negb (Z.land (mode p) ios_out =? 0).
Definition isBinary (p : Port) : bool := negb (Z.land (mode p) ios_binary =? 0).

(** [setstate(eofbit)] on a stream whose exception mask is [badbit], as
    the constructor of [Port] sets it: [None] stands for the
    [ios_base::failure] thrown when the bad bit is set in the new state. *)
Definition setstate_eofbit (s : iostate) : option iostate :=
  let s := mkIostate true (failbit s) (badbit s) in
  if badbit s then None else Some s.

Section Close.
(** [flush] is the library's: what it does to the state bits depends on
    the buffer, and it may throw. *)
Variable flush : iostate → option iostate.

(** [Port::close]. *)
Definition close (p : Port) : option Port :=
  s ← flush (m_stream p);
  s ← setstate_eofbit (m_stream (clear (mkPort s (mode p))));
  Some (mkPort s (mode p)).

End Close.

(** The constructor of [input_port_exception]: the [reason] that [what]
    returns, and the port, which is cleared. *)
Definition input_port_exception (port : Port) : string * Port :=
  let reason :=
    if negb (isInput port) then "not an input port"
    else if fail port then "reading from input port failed"
    else if eof port then "end of file reached"
    else if bad port then "bad input port state"
    else "unknown input port error" in
  (reason, clear port).

(** The constructor of [output_port_exception]. *)
Definition output_port_exception (port : Port) : string * Port :=
  let reason :=
    if negb (isOutput port) then "not an output port"
    else if fail port then "writing to output port failed"
    else if eof port then "end of file reached"
    else if bad port then "bad output port state"
    else "unknown output port error" in
  (reason, clear port).

End Port.

(** ** parser.cpp: text to number *)

Module ParserNum.
Import Num Lexer.

Section Strnum.
Context {ops : NumberOps}.

(** [Cell Parser::strnum(const String& str)]; [num] starts out as the
    default [Number], the integer 0. *)
Definition strnum (str : string) : res Cell :=
  '(tok, num) ←
    (if bool_decide (substr_n str 0 2 = "#i") then lex_number (substr str 2) (NInt 0)
     else if bool_decide (substr_n str 0 2 = "#e") then
       '(tok, num) ← lex_number (substr str 2) (NInt 0);
       Ret (tok, if bool_decide (tok = Tok_Number) then num_trunc num else num)
     else lex_number str (NInt 0));
  Ret (if bool_decide (tok = Tok_Error) then CBool false else CNumber num).

End Strnum.

End ParserNum.

(** ** The quote marks *)

Module Quotes.

(** The marks that [get_token] knows and the symbol that [read] puts in
    front of the datum that follows each. *)
Definition marks (sy : Symbols) : list (list ascii * Symbol) :=
  [ (["'"%char], s_quote sy);
    (["`"%char], s_quasiquote sy);
    ([","%char], s_unquote sy);
    ([","%char; "@"%char], s_unquotesplice sy) ].

End Quotes.

(** * Properties *)

(** ** The arithmetic primitives *)

Section PrimopFacts.
Context {ops : NumberOps}.

Lemma accumulate_numbers op acc (nums : list Num.Number) :
  accumulate op acc (CNumber <$> nums) = Ret (foldl op acc nums).
Proof.
  revert acc. induction nums as [|n nums IH]; intros acc; simpl; [done|].
  apply IH.
Qed.

End PrimopFacts.

(** C9: [+] of no arguments is 0 and [*] of no arguments is 1; on any
    vector of numbers [+] is the left-to-right sum from 0 and [*] the
    left-to-right product from 1, whatever the operators of [number.cpp]
    are; with the arithmetic of the spec, [(+ 1 2 3)] is 6. *)
Theorem C9_add_mul_fold :
  (∀ ops : NumberOps,
      fun_add [] = Ret (CNumber (Num.NInt 0))
    ∧ fun_mul [] = Ret (CNumber (Num.NInt 1))
    ∧ (∀ nums, fun_add (CNumber <$> nums) = Ret (CNumber (foldl num_add (Num.NInt 0) nums)))
    ∧ (∀ nums, fun_mul (CNumber <$> nums) = Ret (CNumber (foldl num_mul (Num.NInt 1) nums))))
  ∧ @fun_add NumSpec.ops [CNumber (Num.NInt 1); CNumber (Num.NInt 2); CNumber (Num.NInt 3)]
    = Ret (CNumber (Num.NInt 6)).
Proof.
  split; [|reflexivity].
  intros ops. repeat split; try reflexivity.
  - intros nums. unfold fun_add. by rewrite accumulate_numbers.
  - intros nums. unfold fun_mul. by rewrite accumulate_numbers.
Qed.

(** C10: [-] and [/] on an empty argument vector throw [out_of_range]
    (from [args.at(0)]) and leave the interpreter state, hence every cell
    and every binding, as it was. *)
Theorem C10_sub_div_empty (ops : NumberOps) (senv : Cell) (scm : Scheme) :
    fun_sub [] = Throw out_of_range
  ∧ fun_div [] = Throw out_of_range
  ∧ call senv op_sub [] scm = (Throw out_of_range, scm)
  ∧ call senv op_div [] scm = (Throw out_of_range, scm).
Proof. repeat split. Qed.

(** C2 (the code departs from it): with one argument the loops of
    [fun_sub] and [fun_div] run zero times and the argument itself is
    returned, neither negated nor inverted; at 5 and at 2 that is neither
    the negation -5 nor the reciprocal 0.5. *)
Theorem C2_unary_sub_div_identity :
  (∀ (ops : NumberOps) (x : Num.Number),
      fun_sub [CNumber x] = Ret (CNumber x)
    ∧ fun_div [CNumber x] = Ret (CNumber x))
  ∧ @fun_sub NumSpec.ops [CNumber (Num.NInt 5)] = Ret (CNumber (Num.NInt 5))
  ∧ NumSpec.neg (Num.NInt 5) = Num.NInt (-5)
  ∧ @fun_div NumSpec.ops [CNumber (Num.NInt 2)] = Ret (CNumber (Num.NInt 2))
  ∧ NumSpec.inv (Num.NInt 2) = Num.NFloat (S754_finite false 4503599627370496 (-53)).
Proof. repeat split. Qed.

(** ** Construction of numbers *)

Module NumFacts.
Import Num.

Lemma Float_sign_cases (x : Float) :
  Fgtb x Fzero || Fltb x Fzero = negb (Feqb x Fzero) && negb (Arith_is_nan (AFloat x)).
Proof. by destruct x as [[]|[]| |[] m e]. Qed.

Lemma Arith_sign_cases (y : Arith) :
  Arith_gt0 y || Arith_lt0 y = Arith_nonzero y && negb (Arith_is_nan y).
Proof.
  destruct y as [z|x]; [|apply Float_sign_cases].
  unfold Arith_nonzero; simpl. rewrite andb_true_r.
  destruct (Z.ltb_spec 0 z), (Z.ltb_spec z 0), (Z.eqb_spec z 0); simpl; lia.
Qed.

Lemma minus_one_bits : SFopp Fone = S754_finite true 4503599627370496 (-52).
Proof. vm_compute. reflexivity. Qed.

Lemma below_zero_not_minus_one (i : Float) :
  Fltb i Fzero = true → Feqb i (Float_of_Z (-1)) = false →
  Fgtb i (SFopp Fone) || Fltb i (SFopp Fone) = true.
Proof.
  rewrite minus_one_bits.
  replace (Float_of_Z (-1)) with (S754_finite true 4503599627370496 (-52))
    by (vm_compute; reflexivity).
  unfold Fltb, Fgtb, Feqb, SFltb, SFeqb.
  destruct i as [[]|[]| |[] m e]; try done.
  cbn [SFcompare]. intros _.
  rewrite (Z.compare_antisym e (-52)).
  destruct (e ?= -52); try done.
  cbn [CompOpp]. rewrite !Pos.compare_cont_spec. cbn [Pos.switch_Eq].
  rewrite (Pos.compare_antisym m 4503599627370496).
  by destruct (m ?= 4503599627370496)%positive.
Qed.

End NumFacts.

(** ** Printing numbers *)

(** C4 (the code departs from it): for a negative imaginary part other
    than -1 the printer writes the minus sign and then the signed
    imaginary part, so that 1-2i comes out with two signs; the other forms
    are as the claim has them. *)
Theorem C4_negative_imaginary_printed_with_two_signs :
  let cplx a b := Num.NComplex (Num.mkComplex (Num.Float_of_Z a) (Num.Float_of_Z b)) in
    NumPrint.write_Number (cplx 1 (-2)) = "1.000000e+00--2.000000e+00i"
  ∧ NumPrint.write_Number (cplx 1 2) = "1.000000e+00+2.000000e+00i"
  ∧ NumPrint.write_Number (cplx 1 1) = "1.000000e+00+i"
  ∧ NumPrint.write_Number (cplx 1 (-1)) = "1.000000e+00-i"
  ∧ NumPrint.write_Number (Num.NInt (-42)) = "-42"
  ∧ NumPrint.write_Number (Num.NFloat (Num.Float_of_Z 1)) = "1.000000e+00"
  ∧ (∀ fmt z, Num.Fltb (Num.im z) Num.Fzero = true →
       Num.Feqb (Num.im z) (Num.Float_of_Z (-1)) = false →
       NumPrint.write_Complex fmt z = fmt (Num.re z) +:+ "-" +:+ fmt (Num.im z) +:+ "i").
Proof.
  do 6 (split; [vm_compute; reflexivity|]).
  intros fmt [r i]; cbn [Num.re Num.im]. unfold NumPrint.write_Complex; cbn [Num.re Num.im].
  intros Hlt Hne. rewrite Hlt, orb_true_r.
  by rewrite (NumFacts.below_zero_not_minus_one i Hlt Hne).
Qed.

(** ** Character literals *)

Module CharFacts.
Import Ctype Lexer CharLexer.

Lemma length_string_of_list (l : list ascii) :
  String.length (string_of_list_ascii l) = length l.
Proof. induction l; simpl; congruence. Qed.

Lemma length_list_of_string (s : string) :
  length (list_ascii_of_string s) = String.length s.
Proof. induction s; simpl; congruence. Qed.

Lemma size_lower_string (s : string) : size (lower_string s) = size s.
Proof.
  unfold size, lower_string.
  by rewrite length_string_of_list, length_fmap, length_list_of_string.
Qed.

(** Every name of the table is at least four characters long, and looking
    a name of the table up yields the code point next to it, also where the
    name occurs more than once. *)
Lemma Forall_of_forallb {A} (f : A → bool) (l : list A) :
  forallb f l = true → Forall (fun x => f x = true) l.
Proof.
  intros H. apply Forall_forall. intros x Hx.
  by apply (proj1 (forallb_forall f l) H), list_elem_of_In.
Qed.

Lemma stab_names_long : Forall (fun e => (4 <=? size e.1)%nat = true) stab.
Proof. apply Forall_of_forallb. vm_compute. reflexivity. Qed.

Lemma stab_functional : Forall (fun e => stab_find stab e.1 = Some e.2) stab.
Proof.
  apply (Forall_impl (fun e => bool_decide (stab_find stab e.1 = Some e.2) = true)).
  - apply Forall_of_forallb. vm_compute. reflexivity.
  - intros e. apply bool_decide_eq_true_1.
Qed.

End CharFacts.

(** C5 (the code departs from it): on a lexeme [#\x...] of four characters
    or more, [lex_char] turns the suffix into the text [0x...] and reads it
    with [stoi] in base ten, which stops at the [x]: the character is
    always NUL, for [#\x41] too, where the claim wants code point 65. *)
Theorem C5_hex_char_is_always_nul :
  (∀ (c0 c1 c3 : ascii) (rest : string) (cur : Char) (ins : istream),
      CharLexer.lex_char (String c0 (String c1 (String "x" (String c3 rest)))) cur ins
      = Ret (Tok_Char, 0, ins))
  ∧ (∀ cur ins, CharLexer.lex_char "#\x41" cur ins = Ret (Tok_Char, 0, ins))
  ∧ Ctype.stoi "0x41" = Ret 0.
Proof. repeat split. Qed.




(** ** String literals *)

Module StringFacts.
Import Ctype Lexer Literal.

Lemma app_cons (a : ascii) (s t : string) : String a s +:+ t = String a (s +:+ t).
Proof. reflexivity. Qed.

Lemma app_nil (t : string) : "" +:+ t = t.
Proof. reflexivity. Qed.

Lemma append_push (s : string) (c : ascii) (t : string) :
  push_back s c +:+ t = s +:+ String c t.
Proof.
  unfold push_back. induction s as [|a s IH]; [done|].
  rewrite !app_cons. f_equal. exact IH.
Qed.

Lemma append_empty (s : string) : s +:+ "" = s.
Proof. induction s as [|a s IH]; [done|]. rewrite app_cons. f_equal. exact IH. Qed.

Lemma string_of_app (l1 l2 : list ascii) :
  string_of_list_ascii (l1 ++ l2) = string_of_list_ascii l1 +:+ string_of_list_ascii l2.
Proof.
  induction l1 as [|a l1 IH]; [done|].
  cbn [app string_of_list_ascii]. rewrite app_cons. f_equal. exact IH.
Qed.

(** A read of one character from a good stream that does not skip white
    space. *)
Lemma extract_next (ins : istream) (x : ascii) (a : list ascii) :
  Stream.good ins = true → skipws ins = false → ahead ins = x :: a →
  Stream.extract ins = (Some x, Stream.move ins a (x :: behind ins)).
Proof.
  intros Hg Hs Ha. unfold Stream.extract. by rewrite Hg, Hs, Ha.
Qed.

Lemma good_move ins a b : Stream.good (Stream.move ins a b) = Stream.good ins.
Proof. done. Qed.

Lemma good_ok ins : Stream.good ins = true → Stream.ok ins = true.
Proof.
  unfold Stream.good, Stream.ok, Stream.fail.
  destruct (eofbit ins), (failbit ins), (badbit ins); simpl; congruence.
Qed.

Lemma sources_cons (it : item) (items : list item) :
  sources (it :: items) = source it ++ sources items.
Proof. reflexivity. Qed.

(** The loop of [lex_string] over a well-formed prefix of the input: each
    item takes one iteration and is stored as it stands. *)
Lemma lex_string_loop_prefix (items : list item) :
  ∀ (fuel : nat) (c : option ascii) (str : string) (ins : istream) (tl : list ascii),
    Forall (fun it => well_formed it = true) items →
    Stream.good ins = true →
    ahead ins = sources items ++ tl →
    ∃ c' ins',
      lex_string_loop (length items + fuel) c str ins
      = lex_string_loop fuel c' (str +:+ string_of_list_ascii (sources items)) ins'
      ∧ ahead ins' = tl ∧ Stream.good ins' = true.
Proof.
  induction items as [|it items IH]; intros fuel c str ins tl Hwf Hg Ha.
  - exists c, ins. split; [|done].
    by rewrite (append_empty str : str +:+ string_of_list_ascii (sources []) = str).
  - apply Forall_cons in Hwf as [Hit Hwf].
    rewrite sources_cons in Ha |- *. rewrite <- app_assoc in Ha.
    cbn [length Nat.add].
    destruct it as [x|x]; cbn [source app well_formed] in Ha, Hit |- *.
    + apply andb_true_iff in Hit as [Hit Hnb]. apply andb_true_iff in Hit as [Hpr Hnq].
      apply negb_true_iff, bool_decide_eq_false_1 in Hnb, Hnq.
      cbn [lex_string_loop].
      rewrite (good_ok _ Hg).
      erewrite (extract_next (Stream.noskipws ins) x); [|done|done|exact Ha].
      rewrite bool_decide_eq_false_2 by congruence.
      rewrite bool_decide_eq_false_2 by congruence.
      rewrite Hpr.
      destruct (IH fuel (Some x) (push_back str x)
                  (Stream.move (Stream.noskipws ins) (sources items ++ tl)
                     (x :: behind (Stream.noskipws ins))) tl) as (c' & ins' & -> & ? & ?);
        [done|done|done|].
      exists c', ins'. split; [|done].
      by rewrite append_push.
    + cbn [lex_string_loop].
      rewrite (good_ok _ Hg).
      erewrite (extract_next (Stream.noskipws ins) backslash); [|done|done|exact Ha].
      rewrite bool_decide_eq_false_2 by done.
      rewrite bool_decide_eq_true_2 by done.
      erewrite extract_next; [|done|done|done].
      rewrite Hit.
      match goal with
      | |- ∃ _ _, lex_string_loop _ _ _ ?i = _ ∧ _ =>
          destruct (IH fuel (Some x) (push_back (push_back str backslash) x) i tl)
            as (c' & ins' & -> & ? & ?); [done|done|done|]
      end.
      exists c', ins'. split; [|done].
      by rewrite !append_push.
Qed.

Lemma length_sources (items : list item) : (length items <= length (sources items))%nat.
Proof.
  induction items as [|it items IH]; [done|].
  rewrite sources_cons, length_app. destruct it; simpl; lia.
Qed.

(** [lex_string] with the fuel it gives its loop, split at the prefix. *)
Lemma lex_string_prefix (items : list item) (ins : istream) (tl : list ascii) :
  Forall (fun it => well_formed it = true) items →
  Stream.good ins = true →
  ahead ins = sources items ++ tl →
  ∃ fuel c' ins',
    lex_string ins
    = lex_string_loop (S fuel) c' (string_of_list_ascii (sources items)) ins'
    ∧ ahead ins' = tl ∧ Stream.good ins' = true.
Proof.
  intros Hwf Hg Ha. unfold lex_string.
  pose proof (length_sources items) as Hlen.
  assert (Hf : ∃ fuel, S (S (length (ahead ins))) = (length items + S fuel)%nat).
  { exists (S (length (ahead ins)) - length items)%nat.
    rewrite Ha, length_app. lia. }
  destruct Hf as [fuel ->].
  destruct (lex_string_loop_prefix items (S fuel) None "" ins tl Hwf Hg Ha)
    as (c' & ins' & -> & ? & ?).
  by exists fuel, c', ins'.
Qed.


Lemma escape_expansion (c : ascii) : Printer.escape c = expansion c.
Proof.
  unfold Printer.escape.
  repeat (case_bool_decide; [by subst|]).
  destruct c as [[] [] [] [] [] [] [] []]; try done.
Qed.

Lemma display_sources (items : list item) :
  Forall (fun it => well_formed it = true) items →
  Printer.display_chars (sources items) = shown <$> items.
Proof.
  induction items as [|it items IH]; intros Hwf; [done|].
  apply Forall_cons in Hwf as [Hit Hwf].
  rewrite sources_cons, fmap_cons.
  destruct it as [x|x]; cbn [source app well_formed shown Printer.display_chars] in *.
  - apply andb_true_iff in Hit as [_ Hnb].
    apply negb_true_iff in Hnb. rewrite Hnb. by rewrite IH.
  - rewrite bool_decide_eq_true_2 by done. by rewrite IH, escape_expansion.
Qed.

End StringFacts.

(** C7: a string literal whose body is made of printable characters and
    backslash escapes, up to the closing quote, is stored as its source
    text, every escape as the two characters it is written with; a
    character that is not printable, escaped or not, ends the lexer with
    the [Error] token; [write] shows the stored text between quotes and
    [display] turns [\a \b \n \r \t] into their control characters and any
    other escape into the escaped character. *)
Theorem C7_string_escapes (items : list Literal.item) (rest : list ascii) (ins : istream) :
  Forall (fun it => Literal.well_formed it = true) items →
  Stream.good ins = true →
  let stored := string_of_list_ascii (Literal.sources items) in
    (ahead ins = Literal.sources items ++ Lexer.dquote :: rest →
       ∃ ins', Lexer.lex_string ins = (Tok_String, stored, ins') ∧ ahead ins' = rest)
  ∧ (∀ x, Ctype.iswprint (Ctype.int_of_char x) = false →
       ahead ins = Literal.sources items ++ x :: rest
       ∨ ahead ins = Literal.sources items ++ Lexer.backslash :: x :: rest →
       (Lexer.lex_string ins).1.1 = Tok_Error)
  ∧ (∀ scm, Printer.write_Cell 1 scm (CString stored)
            = Ret (String Lexer.dquote stored +:+ String Lexer.dquote ""))
  ∧ (∀ scm, Printer.display_Cell 1 scm (CString stored)
            = Ret (string_of_list_ascii (Literal.shown <$> items)))
  ∧ Literal.shown <$> [Literal.Escaped "a"; Literal.Escaped "b"; Literal.Escaped "n";
                        Literal.Escaped "r"; Literal.Escaped "t"; Literal.Escaped "q"]
    = ["007"; "008"; "010"; "013"; "009"; "q"]%char.
Proof.
  intros Hwf Hg stored. repeat split.
  - intros Ha.
    destruct (StringFacts.lex_string_prefix items ins _ Hwf Hg Ha)
      as (fuel & c' & ins' & -> & Ha' & Hg').
    cbn [Lexer.lex_string_loop].
    rewrite (StringFacts.good_ok _ Hg').
    erewrite (StringFacts.extract_next (Stream.noskipws ins') Lexer.dquote); [|done|done|exact Ha'].
    rewrite bool_decide_eq_true_2 by done.
    by eexists.
  - intros x Hx [Ha|Ha].
    + destruct (StringFacts.lex_string_prefix items ins _ Hwf Hg Ha)
        as (fuel & c' & ins' & -> & Ha' & Hg').
      cbn [Lexer.lex_string_loop].
      rewrite (StringFacts.good_ok _ Hg').
      erewrite (StringFacts.extract_next (Stream.noskipws ins') x); [|done|done|exact Ha'].
      case_bool_decide as Hq; [by simplify_eq|].
      case_bool_decide as Hb; [by simplify_eq|].
      by rewrite Hx.
    + destruct (StringFacts.lex_string_prefix items ins _ Hwf Hg Ha)
        as (fuel & c' & ins' & -> & Ha' & Hg').
      cbn [Lexer.lex_string_loop].
      rewrite (StringFacts.good_ok _ Hg').
      erewrite (StringFacts.extract_next (Stream.noskipws ins') Lexer.backslash);
        [|done|done|exact Ha'].
      rewrite bool_decide_eq_false_2 by done.
      rewrite bool_decide_eq_true_2 by done.
      erewrite StringFacts.extract_next; [|done|done|done].
      by rewrite Hx.
  - intros scm. cbn [Printer.display_Cell]. unfold Printer.display_String, stored.
    by rewrite list_ascii_of_string_of_list_ascii, StringFacts.display_sources.
Qed.

Lemma C7_string_escapes_witness :
  ∃ ins', Lexer.lex_string (Stream.of_string ("a\nb\\c" +:+ String Lexer.dquote " tail"))
          = (Tok_String, "a\nb\\c", ins')
          ∧ ahead ins' = list_ascii_of_string " tail".
Proof.
  apply (proj1 (C7_string_escapes
                  [Literal.Plain "a"; Literal.Escaped "n"; Literal.Plain "b";
                   Literal.Escaped "\"; Literal.Plain "c"]
                  (list_ascii_of_string " tail")
                  (Stream.of_string ("a\nb\\c" +:+ String Lexer.dquote " tail"))
                  ltac:(repeat constructor) eq_refl)).
  reflexivity.
Defined.

(** ** Printing lists *)

Module ShapeFacts.
Import Shape Printer.

Section Chains.
Variable scm : Scheme.
Variable c0 : Cell.
Abbreviation ch i := (nth_cdr scm i c0).

Lemma nth_cdr_add (i j : nat) (c : Cell) :
  nth_cdr scm (i + j) c = nth_cdr scm i c ≫= nth_cdr scm j.
Proof.
  revert c. induction i as [|i IH]; intros c; [done|].
  cbn [Nat.add nth_cdr]. destruct (step scm c) as [t|]; [|done].
  apply IH.
Qed.

Lemma nth_cdr_succ (k : nat) (c : Cell) :
  nth_cdr scm (S k) c = nth_cdr scm k c ≫= step scm.
Proof.
  replace (S k) with (k + 1)%nat by lia. rewrite nth_cdr_add.
  destruct (nth_cdr scm k c) as [t|]; [|done].
  cbn. by destruct (step scm t).
Qed.

(** If the chain reaches index [m], every earlier index holds a pair with a
    valid address. *)
Lemma chain_before (m i : nat) (t : Cell) :
  ch m = Some t → (i < m)%nat →
  ∃ q kons, ch i = Some (CPair q) ∧ conses scm !! q = Some kons
            ∧ ch (S i) = Some (cons_cdr kons).
Proof.
  revert t. induction m as [|m IH]; intros t Hm Hi; [lia|].
  rewrite nth_cdr_succ in Hm.
  destruct (ch m) as [u|] eqn:Hu; [|done].
  destruct (decide (i = m)) as [->|Hne].
  - cbn in Hm. destruct u as [| | | | | |q| | | | | | | | | |]; try done.
    cbn in Hm. destruct (conses scm !! q) as [kons|] eqn:Hq; [|done].
    exists q, kons. rewrite Hu. repeat split; [done|].
    rewrite nth_cdr_succ, Hu. cbn. by rewrite Hq.
  - apply (IH u); [done|lia].
Qed.

Lemma chain_shift (a b t : nat) :
  ch a = ch b → ch (a + t) = ch (b + t).
Proof. intros H. by rewrite !nth_cdr_add, H. Qed.

Lemma chain_periodic (i p : nat) :
  ch (i + p) = ch i → ∀ n t, ch (i + t + n * p) = ch (i + t).
Proof.
  intros Hp n. induction n as [|n IH]; intros t.
  - f_equal. lia.
  - replace (i + t + S n * p)%nat with (i + p + (t + n * p))%nat by lia.
    rewrite (chain_shift (i + p) i _ Hp).
    replace (i + (t + n * p))%nat with (i + t + n * p)%nat by lia.
    apply IH.
Qed.

End Chains.

(** Among more values than there are addresses, two are the same. *)
Lemma repeated_element (l : list nat) :
  ¬ NoDup l → ∃ i j x, (i < j)%nat ∧ l !! i = Some x ∧ l !! j = Some x.
Proof.
  induction l as [|a l IH]; intros Hnd.
  - destruct Hnd. constructor.
  - destruct (decide (a ∈ l)) as [Hin|Hnin].
    + apply list_elem_of_lookup in Hin as [j Hj].
      exists 0%nat, (S j), a. repeat split; [lia|done..].
    + destruct IH as (i & j & x & Hij & Hi & Hj).
      { intros Hl. apply Hnd. by constructor. }
      exists (S i), (S j), x. repeat split; [lia|done..].
Qed.

Lemma pigeonhole (f : nat → nat) (n : nat) :
  (∀ i, (i <= n)%nat → (f i < n)%nat) →
  ∃ i j, (i < j)%nat ∧ (j <= n)%nat ∧ f i = f j.
Proof.
  intros Hf.
  destruct (repeated_element (f <$> seq 0 (S n))) as (i & j & x & Hij & Hi & Hj).
  - intros Hnd.
    assert (Hsub : f <$> seq 0 (S n) ⊆+ seq 0 n).
    { apply NoDup_submseteq; [done|].
      intros y Hy. apply list_elem_of_fmap in Hy as (k & -> & Hk).
      apply elem_of_seq in Hk. apply elem_of_seq. specialize (Hf k). lia. }
    apply submseteq_length in Hsub.
    rewrite length_fmap, !length_seq in Hsub. lia.
  - rewrite list_lookup_fmap in Hi, Hj.
    destruct (seq 0 (S n) !! i) as [i'|] eqn:Hi'; [|done].
    destruct (seq 0 (S n) !! j) as [j'|] eqn:Hj'; [|done].
    apply lookup_seq in Hi' as [-> ?], Hj' as [-> ?].
    cbn in Hi, Hj. exists i, j. repeat split; [done|lia|congruence].
Qed.

Section Loop.
Variable scm : Scheme.
Variable c0 : Cell.
Abbreviation ch i := (nth_cdr scm i c0).

Hypothesis Hvalid : chain_valid scm c0.

Lemma chain_dichotomy (m : nat) :
    (∀ i, (i <= m)%nat → ∃ q, ch i = Some (CPair q))
  ∨ (∃ i t, (i <= m)%nat ∧ ch i = Some t ∧ is_pair t = false).
Proof.
  induction m as [|m [IH|IH]].
  - destruct (is_pair c0) eqn:Hp.
    + left. intros i Hi. replace i with 0%nat by lia.
      destruct c0; try done. by eexists.
    + right. exists 0%nat, c0. done.
  - destruct (IH m) as [q Hq]; [lia|].
    destruct (Hvalid m q Hq) as [kons Hk].
    assert (Hs : ch (S m) = Some (cons_cdr kons)).
    { rewrite nth_cdr_succ, Hq. cbn. by rewrite Hk. }
    destruct (is_pair (cons_cdr kons)) eqn:Hp.
    + left. intros i Hi. destruct (decide (i = S m)) as [->|]; [|apply IH; lia].
      rewrite Hs. destruct (cons_cdr kons); try done. by eexists.
    + right. exists (S m), (cons_cdr kons). repeat split; [lia|done..].
  - right. destruct IH as (i & t & ? & ? & ?). exists i, t. repeat split; [lia|done..].
Qed.

(** The loop stops within as many iterations as the square of the number
    of pairs in the arena. *)
Lemma stops_within :
  is_pair c0 = true →
  ∃ k, (k <= length (conses scm) * length (conses scm))%nat ∧ stops scm c0 k.
Proof.
  intros Hp0. set (N := length (conses scm)).
  destruct (chain_dichotomy (2 * (N * N))) as [Hall|(i & t & Hi & Ht & Hnp)].
  - assert (HN : (1 <= N)%nat).
    { destruct (Hall 0%nat) as [q Hq]; [lia|].
      destruct (Hvalid 0%nat q Hq) as [kons Hk].
      apply lookup_lt_Some in Hk. unfold N. lia. }
    assert (HNN : (N <= N * N)%nat) by nia.
    set (addr i := match ch i with Some (CPair q) => q | _ => 0%nat end).
    destruct (pigeonhole addr N) as (i & j & Hij & Hj & Haddr).
    { intros i Hi. unfold addr. destruct (Hall i) as [q Hq]; [lia|]. rewrite Hq.
      destruct (Hvalid i q Hq) as [kons Hk]. by apply lookup_lt_Some in Hk. }
    assert (Hsame : ch (i + (j - i)) = ch i).
    { replace (i + (j - i))%nat with j by lia.
      unfold addr in Haddr.
      destruct (Hall i) as [qi Hqi]; [lia|]. destruct (Hall j) as [qj Hqj]; [lia|].
      rewrite Hqi, Hqj in Haddr. by rewrite Hqi, Hqj, Haddr. }
    set (p := (j - i)%nat) in *.
    set (m0 := (p * (i + 1))%nat).
    assert (Hm0 : (1 <= m0 ∧ i <= m0 ∧ m0 <= N * N)%nat).
    { unfold m0. repeat split; try nia. }
    exists (m0 - 1)%nat. split; [lia|].
    right; right.
    destruct (Hall m0) as [q Hq]; [lia|].
    exists (CPair q).
    replace (m0 - 1 + 1)%nat with m0 by lia. split; [done|].
    replace (2 * (m0 - 1) + 2)%nat with (i + (m0 - i) + (i + 1) * p)%nat by (unfold m0; nia).
    rewrite (chain_periodic scm c0 i p Hsame).
    by replace (i + (m0 - i))%nat with m0 by lia.
  - destruct i as [|i].
    { cbn in Ht. simplify_eq. congruence. }
    exists (i / 2)%nat. split.
    { pose proof (Nat.Div0.div_le_mono i (2 * (N * N)) 2) as H1.
      rewrite (Nat.mul_comm 2), Nat.div_mul in H1 by lia.
      apply H1. lia. }
    pose proof (Nat.div_mod_eq i 2) as Hdm.
    pose proof (Nat.mod_upper_bound i 2) as Hmod.
    destruct (decide (i mod 2 = 0)%nat) as [H0|H1].
    + left. exists t. split; [|done].
      by replace (2 * (i / 2) + 1)%nat with (S i) by lia.
    + right; left. exists t. split; [|done].
      by replace (2 * (i / 2) + 2)%nat with (S i) by lia.
Qed.

End Loop.

Section Termination.
Variable pr : Cell → res string.
Variable scm : Scheme.
Variable c0 : Cell.
Abbreviation ch i := (nth_cdr scm i c0).

(** The elements met along the chain are printed by [pr]. *)
Hypothesis Hel : ∀ k t, ch k = Some t →
  match t with
  | CPair q => ∃ kons, conses scm !! q = Some kons ∧ ∃ s, pr (cons_car kons) = Ret s
  | _ => ∃ s, pr t = Ret s
  end.

Lemma elements_valid : chain_valid scm c0.
Proof. intros k q Hk. destruct (Hel k _ Hk) as (kons & -> & _). by eexists. Qed.

Lemma not_cyclic_at (k : nat) (t : Cell) :
  ch k = Some t → is_pair t = false → ¬ cyclic scm c0.
Proof. intros Hk Hp Hc. destruct (Hc k) as [q Hq]. rewrite Hq in Hk. by simplify_eq. Qed.

Lemma write_tail_terminates (k : nat) (t : Cell) (out : string) :
  ch k = Some t → is_pair t = false →
  ∃ s, write_tail pr t out = Ret s ∧ (cyclic scm c0 → ends_with_dots s).
Proof.
  intros Hk Hp. unfold write_tail.
  destruct (is_nil t).
  - eexists. split; [done|]. intros Hc. by destruct (not_cyclic_at k t).
  - pose proof (Hel k t Hk) as Ht.
    assert (∃ s, pr t = Ret s) as [s ->] by (by destruct t).
    eexists. split; [done|]. intros Hc. by destruct (not_cyclic_at k t).
Qed.

Lemma pair_at (k : nat) (t : Cell) :
  ch k = Some t → is_pair t = true →
  ∃ kons sa, car scm t = Ret (cons_car kons) ∧ pr (cons_car kons) = Ret sa
             ∧ cdr scm t = Ret (cons_cdr kons) ∧ ch (S k) = Some (cons_cdr kons).
Proof.
  intros Hk Hp. destruct t; try done.
  destruct (Hel k _ Hk) as (kons & Hq & sa & Hsa).
  exists kons, sa. unfold car, cdr. rewrite Hq. repeat split; [done|].
  rewrite nth_cdr_succ, Hk. cbn. by rewrite Hq.
Qed.

(** The loop, entered for its iteration [j] with the hare at [2j+1] and the
    tortoise at [j+1], returns if it stops [r] iterations later and has
    fuel for them. *)
Lemma write_loop_terminates (r : nat) :
  ∀ (j n : nat) (iter slow : Cell) (out : string),
    ch (2 * j + 1) = Some iter → ch (j + 1) = Some slow →
    stops scm c0 (j + r) → (r < n)%nat →
    ∃ s, write_loop pr scm n iter slow out = Ret s ∧ (cyclic scm c0 → ends_with_dots s).
Proof.
  induction r as [|r IH]; intros j n iter slow out Hiter Hslow Hstop Hn;
    (destruct n as [|n]; [lia|]); cbn [write_loop];
    (destruct (is_pair iter) eqn:Hp; [|by apply (write_tail_terminates (2 * j + 1))]);
    destruct (pair_at _ _ Hiter Hp) as (kons & sa & -> & Hsa & -> & Hnext);
    cbn; rewrite Hsa; cbn;
    replace (S (2 * j + 1)) with (2 * j + 2)%nat in Hnext by lia;
    (destruct (is_pair (cons_cdr kons)) eqn:Hp1; cbn [negb orb];
     [|destruct (same slow (cons_cdr kons));
       [eexists; split; [done|]; intros _; by eexists
       |by apply (write_tail_terminates (2 * j + 2))]]);
    (destruct (same slow (cons_cdr kons)) eqn:Hsame;
     [eexists; split; [done|]; intros _; by eexists|]).
  - (* the loop was to stop here, and goes on: impossible *)
    exfalso. rewrite Nat.add_0_r in Hstop.
    destruct Hstop as [(t & Ht & Hnp)|[(t & Ht & Hnp)|(t & Ht1 & Ht2)]].
    + rewrite Hiter in Ht. simplify_eq. congruence.
    + rewrite Hnext in Ht. simplify_eq. congruence.
    + rewrite Hslow in Ht1. rewrite Hnext in Ht2. simplify_eq.
      unfold same in Hsame. by rewrite bool_decide_eq_true_2 in Hsame.
  - destruct (pair_at _ _ Hnext Hp1) as (kons1 & sb & -> & Hsb & -> & Hnext1).
    cbn. rewrite Hsb. cbn.
    destruct (chain_before scm c0 (2 * j + 2) (j + 1) _ Hnext ltac:(lia))
      as (qs & ks & Hqs & Hks & Hslow1).
    rewrite Hslow in Hqs. simplify_eq.
    unfold cdr at 1. rewrite Hks. cbn.
    apply (IH (S j)); [| |by replace (S j + r)%nat with (j + S r)%nat by lia|lia].
    + by replace (2 * S j + 1)%nat with (S (2 * j + 2)) by lia.
    + by replace (S j + 1)%nat with (S (j + 1)) by lia.
Qed.

(** The printer of a pair, whose chain of [cdr]s is the one at hand. *)
Lemma write_Cons_terminates (n : nat) :
  is_pair c0 = true →
  (length (conses scm) * length (conses scm) < n)%nat →
  ∃ s, write_Cons pr scm n c0 = Ret s ∧ (cyclic scm c0 → ends_with_dots s).
Proof.
  intros Hp Hn. unfold write_Cons.
  destruct (pair_at 0 c0 eq_refl Hp) as (kons & sa & -> & Hsa & -> & Hnext).
  cbn. rewrite Hsa. cbn.
  destruct (stops_within scm c0 elements_valid Hp) as (k & Hk & Hstop).
  apply (write_loop_terminates k 0); [done|done|done|lia].
Qed.

End Termination.

Lemma write_elements_terminates (pr : Cell → res string) (l : list Cell) :
  Forall (fun c => ∃ s, pr c = Ret s) l →
  ∀ out, ∃ s, write_elements pr l out = Ret s.
Proof.
  induction 1 as [|c l [s Hs] _ IH]; intros out; cbn [write_elements].
  - by eexists.
  - rewrite Hs. cbn. apply IH.
Qed.

(** More fuel does not change what was printed. *)
Lemma res_bind_ret {A B} (m : res A) (k : A → res B) (b : B) :
  m ≫= k = Ret b → ∃ a, m = Ret a ∧ k a = Ret b.
Proof. destruct m as [a| |]; [by exists a|done..]. Qed.

Section Monotone.
Variables pr pr' : Cell → res string.
Variable scm : Scheme.
Hypothesis Hpr : ∀ c s, pr c = Ret s → pr' c = Ret s.

Lemma write_tail_mono t out s :
  write_tail pr t out = Ret s → write_tail pr' t out = Ret s.
Proof.
  unfold write_tail. destruct (is_nil t); [done|].
  intros (a & Ha & H)%res_bind_ret. by rewrite (Hpr _ _ Ha).
Qed.

Lemma write_loop_mono (n : nat) :
  ∀ n' iter slow out s, (n <= n')%nat →
    write_loop pr scm n iter slow out = Ret s →
    write_loop pr' scm n' iter slow out = Ret s.
Proof.
  induction n as [|n IH]; intros n' iter slow out s Hn H; [done|].
  destruct n' as [|n']; [lia|].
  cbn [write_loop] in H |- *.
  destruct (is_pair iter); [|by apply write_tail_mono].
  apply res_bind_ret in H as (a & -> & H).
  apply res_bind_ret in H as (sa & Hsa & H).
  apply res_bind_ret in H as (iter1 & -> & H).
  cbn. rewrite (Hpr _ _ Hsa). cbn.
  destruct (negb (is_pair iter1) || same slow iter1).
  - destruct (same slow iter1); [done|by apply write_tail_mono].
  - apply res_bind_ret in H as (b & -> & H).
    apply res_bind_ret in H as (sb & Hsb & H).
    apply res_bind_ret in H as (iter2 & -> & H).
    apply res_bind_ret in H as (slow1 & -> & H).
    cbn. rewrite (Hpr _ _ Hsb). cbn.
    apply (IH n'); [lia|done].
Qed.

Lemma write_elements_mono (l : list Cell) :
  ∀ out s, write_elements pr l out = Ret s → write_elements pr' l out = Ret s.
Proof.
  induction l as [|c l IH]; intros out s H; [done|].
  cbn [write_elements] in H |- *.
  apply res_bind_ret in H as (sc & Hsc & H).
  rewrite (Hpr _ _ Hsc). cbn. by apply IH.
Qed.

End Monotone.

Lemma write_Cell_mono (scm : Scheme) (fuel : nat) :
  ∀ fuel' c s, (fuel <= fuel')%nat →
    write_Cell fuel scm c = Ret s → write_Cell fuel' scm c = Ret s.
Proof.
  induction fuel as [|fuel IH]; intros fuel' c s Hf H; [done|].
  destruct fuel' as [|fuel']; [lia|].
  assert (Hpr : ∀ c s, write_Cell fuel scm c = Ret s → write_Cell fuel' scm c = Ret s).
  { intros c0 s0. apply IH. lia. }
  destruct c; cbn [write_Cell] in H |- *; try done.
  - unfold write_Cons in H |- *.
    apply res_bind_ret in H as (a & -> & H).
    apply res_bind_ret in H as (sa & Hsa & H).
    apply res_bind_ret in H as (iter & -> & H).
    cbn. rewrite (Hpr _ _ Hsa). cbn.
    apply (write_loop_mono _ _ scm Hpr fuel); [lia|done].
  - unfold write_Vector in H |- *.
    destruct (vectors scm !! v) as [[|x l]|]; try done.
    apply res_bind_ret in H as (sx & Hsx & H).
    apply res_bind_ret in H as (out & Hout & H).
    rewrite (Hpr _ _ Hsx). cbn.
    by rewrite (write_elements_mono _ _ Hpr _ _ _ Hout).
Qed.

(** Printing terminates on any cell of finite nesting depth, and a cyclic
    list comes out with the mark of a cycle at its end. *)
Lemma write_Cell_terminates (scm : Scheme) (d : nat) :
  ∀ (c : Cell) (fuel : nat),
    depth_le scm d c → (enough_fuel scm d <= fuel)%nat →
    ∃ s, write_Cell fuel scm c = Ret s
         ∧ (is_pair c = true → cyclic scm c → ends_with_dots s).
Proof.
  unfold enough_fuel.
  induction d as [|d IH]; intros c fuel Hd Hfuel;
    (destruct fuel as [|fuel]; [lia|]).
  - destruct Hd as [Hp Hv].
    destruct c; try done; cbn [write_Cell]; eexists; (split; [done|done]).
  - destruct c; cbn [write_Cell];
      try (eexists; split; [done|done]).
    + (* a pair *)
      destruct (write_Cons_terminates (write_Cell fuel scm) scm (CPair p)) with (n := fuel)
        as (res & Hres & Hdots); [|done|lia|by exists res; auto].
      intros k t Hk. specialize (Hd k t Hk).
      destruct t; try (destruct (IH _ fuel Hd ltac:(lia)) as (out & Hout & _); by exists out).
      destruct Hd as (kons & Hq & Hcar).
      exists kons. split; [done|].
      destruct (IH _ fuel Hcar ltac:(lia)) as (out & Hout & _). by exists out.
    + (* a vector *)
      destruct Hd as (l & Hl & Hall).
      unfold write_Vector. rewrite Hl.
      assert (Hpr : Forall (fun c => ∃ s, write_Cell fuel scm c = Ret s) l).
      { eapply Forall_impl; [exact Hall|].
        intros x Hx. destruct (IH _ fuel Hx ltac:(lia)) as (s & Hs & _). by eexists. }
      destruct l as [|x l]; [by eexists|].
      apply Forall_cons in Hpr as [[s Hs] Hpr].
      rewrite Hs. cbn.
      destruct (write_elements_terminates _ l Hpr ("#(" +:+ s)) as [s' ->].
      by eexists.
Qed.

End ShapeFacts.

(** C3, as the claim has it, fails on a pair that is its own [car]
    ([(set-car! x x)]): the scan follows [cdr]s only, the printer recurses
    into the [car] and no amount of fuel brings it back. *)
Lemma C3_self_car_counterexample :
  conses Heaps.self_car = [mkCons (CPair 0) CNil false]
  ∧ ¬ ∃ fuel s, Printer.write_Cell fuel Heaps.self_car (CPair 0) = Ret s.
Proof.
  split; [reflexivity|].
  intros (fuel & s & H). revert s H.
  induction fuel as [|fuel IH]; intros s H; [done|].
  cbn [Printer.write_Cell] in H. unfold Printer.write_Cons in H.
  change (car Heaps.self_car (CPair 0)) with (Ret (A := Cell) (CPair 0)) in H.
  cbn [mbind res_bind] in H.
  destruct (Printer.write_Cell fuel Heaps.self_car (CPair 0)) as [s'| |] eqn:Hs; try done.
  by apply (IH s').
Qed.

(** C3 (amended): for every pair whose elements nest to a finite depth
    through [car]s and vectors, whatever its chain of [cdr]s, cyclic lists
    made with [set-cdr!] included, the write printer returns once its fuel
    covers the depth and the square of the number of pairs; on a cyclic
    list the output ends with [" ...)"]. *)
Theorem C3_write_terminates (scm : Scheme) (d p : nat) :
  Shape.depth_le scm d (CPair p) →
  ∃ s, (∀ fuel, (Shape.enough_fuel scm d <= fuel)%nat →
          Printer.write_Cell fuel scm (CPair p) = Ret s)
       ∧ (Shape.cyclic scm (CPair p) → Shape.ends_with_dots s).
Proof.
  intros Hd.
  destruct (ShapeFacts.write_Cell_terminates scm d (CPair p) _ Hd (Nat.le_refl _))
    as (s & Hs & Hc).
  exists s. split; [|by apply Hc].
  intros fuel Hfuel. by apply (ShapeFacts.write_Cell_mono scm (Shape.enough_fuel scm d)).
Qed.

Module HeapFacts.
Import Shape.

Lemma two_cycle_chain (k : nat) (c : Cell) :
  c = CPair 0 ∨ c = CPair 1 →
  nth_cdr Heaps.two_cycle k c = Some (CPair 0) ∨ nth_cdr Heaps.two_cycle k c = Some (CPair 1).
Proof.
  revert c. induction k as [|k IH]; intros c [-> | ->]; cbn [nth_cdr]; auto.
  - change (step Heaps.two_cycle (CPair 0)) with (Some (CPair 1)). apply IH. by right.
  - change (step Heaps.two_cycle (CPair 1)) with (Some (CPair 0)). apply IH. by left.
Qed.

Lemma two_cycle_depth : depth_le Heaps.two_cycle 1 (CPair 0).
Proof.
  intros k t Hk.
  destruct (two_cycle_chain k (CPair 0)) as [H|H]; [by left|..];
    rewrite H in Hk; simplify_eq; eexists; (split; [reflexivity|done]).
Qed.

Example two_cycle_written :
  Printer.write_Cell 10 Heaps.two_cycle (CPair 0) = Ret "(1 2 1 2 ...)".
Proof. vm_compute. reflexivity. Qed.

Lemma two_cycle_cyclic : cyclic Heaps.two_cycle (CPair 0).
Proof.
  intros k. destruct (two_cycle_chain k (CPair 0)) as [H|H]; [by left|..]; by eexists.
Qed.

End HeapFacts.

Lemma C3_write_terminates_witness :
  ∃ s, (∀ fuel, (Shape.enough_fuel Heaps.two_cycle 1 <= fuel)%nat →
          Printer.write_Cell fuel Heaps.two_cycle (CPair 0) = Ret s)
       ∧ (Shape.cyclic Heaps.two_cycle (CPair 0) → Shape.ends_with_dots s).
Proof.
  apply (C3_write_terminates Heaps.two_cycle 1 0).
  exact HeapFacts.two_cycle_depth.
Defined.

(** ** The reader and the top environment *)

Module ReaderFacts.
Import Parser Rooting.

Section Frame.
Context {ops : NumberOps}.
Variable sy : Symbols.

Abbreviation rooted := (Rooting.rooted sy).
Abbreviation frame := (Rooting.frame sy).
Abbreviation framed := (Rooting.framed sy).

Lemma frame_refl st : frame st st.
Proof. split; auto. Qed.

Lemma frame_trans st1 st2 st3 : frame st1 st2 → frame st2 st3 → frame st1 st3.
Proof.
  intros [H1 H1'] [H2 H2']. split.
  - intros sym Hs. by rewrite H2, H1.
  - destruct H2' as [H2'|H2']; [|by right].
    destruct H1' as [H1'|[q Hq]]; [left; congruence|].
    right. exists q. unfold env in *. congruence.
Qed.

Lemma frame_same_world st st' : world st' = world st → frame st st'.
Proof. intros H. unfold frame, env. rewrite H. split; auto. Qed.

Lemma frame_same_env st st' : env st' = env st → frame st st'.
Proof. intros H. unfold frame. rewrite H. split; auto. Qed.


Lemma framed_ret {A} (a : A) : framed (mret a).
Proof. intros st r st' H. injection H as <- <-. apply frame_refl. Qed.

Lemma framed_bind {A B} (m : R A) (k : A → R B) :
  framed m → (∀ a, framed (k a)) → framed (m ≫= k).
Proof.
  intros Hm Hk st r st' H. unfold mbind, R_bind in H.
  destruct (m st) as [[a|e|] st1] eqn:Hst.
  - eapply frame_trans; [by eapply Hm|by eapply Hk].
  - injection H as <- <-. by eapply Hm.
  - injection H as <- <-. by eapply Hm.
Qed.

Lemma framed_raise {A} (e : exn) : framed (raise (A := A) e).
Proof. intros st r st' H. injection H as <- <-. apply frame_refl. Qed.

Lemma framed_timeout {A} : framed (timeout (A := A)).
Proof. intros st r st' H. injection H as <- <-. apply frame_refl. Qed.

(** The lexers do not touch the interpreter. *)
Lemma lex_special_world st r st' : lex_special st = (r, st') → world st' = world st.
Proof.
  unfold lex_special. intros H.
  repeat case_match; simplify_eq; reflexivity.
Qed.

Lemma classify_world st r st' : classify st = (r, st') → world st' = world st.
Proof.
  unfold classify. intros H.
  repeat case_match; simplify_eq; try reflexivity.
  by eapply lex_special_world.
Qed.

Lemma get_token_world st r st' : get_token st = (r, st') → world st' = world st.
Proof.
  unfold get_token. intros H.
  repeat case_match; simplify_eq; try reflexivity;
    match goal with H : classify _ = _ |- _ => by apply classify_world in H end.
Qed.

Lemma framed_get_token : framed get_token.
Proof. intros st r st' H. by apply frame_same_world, (get_token_world st r). Qed.

Lemma framed_same_env {A} (m : R A) :
  (∀ st r st', m st = (r, st') → env st' = env st) → framed m.
Proof. intros Hm st r st' H. by apply frame_same_env, (Hm st r). Qed.

Lemma in_world_env {A} (m : M A) :
  (∀ scm r scm', m scm = (r, scm') → topenv scm' = topenv scm) →
  ∀ st r st', in_world m st = (r, st') → env st' = env st.
Proof.
  intros Hm st r st' H. unfold in_world in H.
  destruct (m (world st)) as [r0 scm'] eqn:Hw. injection H as <- <-.
  by apply (Hm _ r0).
Qed.

Lemma framed_scm_cons a d : framed (scm_cons a d).
Proof.
  apply framed_same_env, in_world_env. intros scm r scm' H.
  unfold m_cons, cons in H. by simplify_eq.
Qed.

Lemma framed_scm_list2 a b : framed (scm_list2 a b).
Proof.
  apply framed_same_env, in_world_env. intros scm r scm' H.
  unfold mbind, M_bind, m_cons, cons in H. by simplify_eq.
Qed.

Lemma framed_set_cdr c v : framed (in_world (m_set_cdr c v)).
Proof.
  apply framed_same_env, in_world_env. intros scm r scm' H.
  unfold m_set_cdr, set_cdr in H. repeat case_match; by simplify_eq.
Qed.

Lemma framed_cdr c : framed (in_world (lift (fun scm => cdr scm c))).
Proof.
  apply framed_same_env, in_world_env. intros scm r scm' H.
  unfold lift in H. by simplify_eq.
Qed.

Lemma framed_scm_symbol name : framed (scm_symbol name).
Proof. apply framed_same_env. intros st r st' H. unfold scm_symbol in H. by simplify_eq. Qed.

Lemma framed_new_vector : framed new_vector.
Proof. apply framed_same_env. intros st r st' H. unfold new_vector in H. by simplify_eq. Qed.

Lemma framed_vector_push v c : framed (vector_push v c).
Proof.
  apply framed_same_env. intros st r st' H. unfold vector_push in H.
  repeat case_match; by simplify_eq.
Qed.

Lemma framed_registers {A} (f : Reader → A) (g : Reader → Reader) :
  (∀ st, world (g st) = world st) → framed (fun st => (Ret (f st), g st)).
Proof. intros Hg st r st' H. simplify_eq. by apply frame_same_world. Qed.

(** Rooting a pair is the one write to the top environment. *)
Lemma framed_addenv_pair (q : nat) : framed (scm_addenv (s_expr sy) (CPair q)).
Proof.
  intros st r st' H. unfold scm_addenv in H. simplify_eq. split.
  - intros sym Hs. unfold env; cbn. by rewrite lookup_insert_ne.
  - right. exists q. unfold env; cbn. by rewrite lookup_insert_eq.
Qed.

Lemma scm_cons_pair a d st r st' :
  scm_cons a d st = (r, st') → r = Ret (CPair (length (conses (world st)))).
Proof. unfold scm_cons, in_world, m_cons, cons. intros H. by simplify_eq. Qed.

Lemma framed_bind_result {A B} (m : R A) (k : A → R B) :
  framed m → (∀ a st st', m st = (Ret a, st') → framed (k a)) → framed (m ≫= k).
Proof.
  intros Hm Hk st r st' H. unfold mbind, R_bind in H.
  destruct (m st) as [[a|e|] st1] eqn:Hst.
  - eapply frame_trans; [by eapply Hm|by eapply Hk].
  - injection H as <- <-. by eapply Hm.
  - injection H as <- <-. by eapply Hm.
Qed.

Lemma framed_clear_input : framed clear_input.
Proof. by apply framed_registers. Qed.
Lemma framed_input_good : framed input_good.
Proof. by apply framed_registers. Qed.
Lemma framed_set_put_back tok : framed (set_put_back tok).
Proof. by apply framed_registers. Qed.
Lemma framed_the_lexeme : framed the_lexeme.
Proof. by apply framed_registers. Qed.
Lemma framed_the_number : framed the_number.
Proof. by apply framed_registers. Qed.
Lemma framed_the_char : framed the_char.
Proof. by apply framed_registers. Qed.

End Frame.

Create HintDb framed.
#[export] Hint Resolve framed_ret framed_raise framed_timeout framed_get_token
  framed_scm_cons framed_scm_list2 framed_set_cdr framed_cdr framed_scm_symbol
  framed_new_vector framed_vector_push framed_clear_input framed_input_good
  framed_set_put_back framed_the_lexeme framed_the_number framed_the_char : framed.

End ReaderFacts.

Module ReaderFrame.
Import Parser Rooting ReaderFacts.

Section Induction.
Context {ops : NumberOps}.
Variable sy : Symbols.

Ltac framed_step :=
  first
    [ apply framed_bind; [|intros ?]
    | solve [auto with framed] ].

(** [read], [parse_list] and [parse_vector] keep to the frame, whatever
    their outcome. *)
Lemma framed_reader (fuel : nat) :
    framed sy (read_tokens sy fuel)
  ∧ (∀ l t, framed sy (parse_list_loop sy fuel l t))
  ∧ (∀ v, framed sy (parse_vector_loop sy fuel v)).
Proof.
  induction fuel as [|fuel (IHr & IHl & IHv)].
  - split; [|split]; intros; apply framed_timeout.
  - assert (Hread : framed sy (_ ← clear_input; read_tokens sy fuel)).
    { apply framed_bind; [apply framed_clear_input|done]. }
    split; [|split].
    + cbn [read_tokens].
      apply framed_bind; [apply framed_get_token|]. intros tok.
      destruct tok; repeat framed_step; try done.
      case_bool_decide; [apply IHv|apply framed_raise].
    + intros l t. cbn [parse_list_loop].
      apply framed_bind; [apply framed_input_good|]. intros good.
      destruct (negb good); [apply framed_raise|].
      apply framed_bind; [apply framed_get_token|]. intros tok.
      assert (Hitem : framed sy
                (_ ← set_put_back tok;
                 cell ← (_ ← clear_input; read_tokens sy fuel);
                 if is_pair t
                 then k ← scm_cons cell nil;
                      _ ← in_world (m_set_cdr t k);
                      tail ← in_world (lift (fun scm => cdr scm t));
                      parse_list_loop sy fuel l tail
                 else l ← scm_cons cell nil;
                      _ ← scm_addenv (s_expr sy) l;
                      parse_list_loop sy fuel l l)).
      { apply framed_bind; [apply framed_set_put_back|]. intros _.
        apply framed_bind; [done|]. intros cell.
        destruct (is_pair t).
        - repeat framed_step; done.
        - apply framed_bind_result; [apply framed_scm_cons|].
          intros a st st' Ha. apply scm_cons_pair in Ha. simplify_eq.
          apply framed_bind; [apply framed_addenv_pair|]. intros _. apply IHl. }
      destruct tok; try exact Hitem; try apply framed_raise; try apply IHl;
        try apply framed_ret.
      apply framed_bind; [done|]. intros cell.
      apply framed_bind; [apply framed_get_token|]. intros tok.
      case_bool_decide; [|apply framed_raise].
      apply framed_bind; [apply framed_set_cdr|]. intros _. apply framed_ret.
    + intros v. cbn [parse_vector_loop].
      apply framed_bind; [apply framed_input_good|]. intros good.
      destruct (negb good); [apply framed_raise|].
      apply framed_bind; [apply framed_get_token|]. intros tok.
      assert (Hitem : framed sy
                (_ ← set_put_back tok;
                 cell ← (_ ← clear_input; read_tokens sy fuel);
                 _ ← vector_push v cell;
                 parse_vector_loop sy fuel v)).
      { apply framed_bind; [apply framed_set_put_back|]. intros _.
        apply framed_bind; [done|]. intros cell.
        apply framed_bind; [apply framed_vector_push|]. intros _. apply IHv. }
      destruct tok; try exact Hitem; try apply framed_raise; try apply IHv;
        try apply framed_ret.
Qed.

Lemma R_bind_ret {A B} (m : R A) (k : A → R B) st c st' :
  (m ≫= k) st = (Ret c, st') → ∃ a st1, m st = (Ret a, st1) ∧ k a st1 = (Ret c, st').
Proof.
  unfold mbind, R_bind. intros H.
  destruct (m st) as [[a|e|] st1]; [by exists a, st1|done..].
Qed.

Lemma R_bind_eq {A B} (m : R A) (k : A → R B) st a st1 :
  m st = (Ret a, st1) → (m ≫= k) st = k a st1.
Proof. unfold mbind, R_bind. by intros ->. Qed.

Tactic Notation "bind_ret" hyp(H) "as" ident(a) ident(st) ident(Ha) :=
  apply R_bind_ret in H as (a & st & Ha & H).

Lemma addenv_rooted (q : nat) st r st' :
  scm_addenv (s_expr sy) (CPair q) st = (r, st') → rooted sy st'.
Proof.
  unfold scm_addenv. intros H. simplify_eq. exists q.
  unfold env; cbn. by rewrite lookup_insert_eq.
Qed.

Lemma frame_rooted st st' : frame sy st st' → rooted sy st → rooted sy st'.
Proof. intros [_ [Hs|Hr]] [q Hq]; [|done]. exists q. by rewrite Hs. Qed.

(** A list that [parse_list] returns is empty, or the slot of the sentinel
    holds a pair when it returns: nothing clears it. *)
Lemma parse_list_rooted (fuel : nat) :
  ∀ st c st', parse_list_loop sy fuel nil nil st = (Ret c, st') →
    c = CNil ∨ rooted sy st'.
Proof.
  induction fuel as [|fuel IH]; intros st c st' H; [done|].
  cbn [parse_list_loop] in H.
  bind_ret H as good st0 Hgood. destruct (negb good); [done|].
  unfold input_good in Hgood. simplify_eq.
  bind_ret H as tok st1 Htok.
  destruct tok; try done;
    try (bind_ret H as u1 st2 Hput; bind_ret H as cell st3 Hread;
         cbn [nil is_pair] in H;
         bind_ret H as l st4 Hcons; bind_ret H as u2 st5 Hadd;
         apply scm_cons_pair in Hcons; simplify_eq;
         right; apply (frame_rooted st5);
         [by apply (proj1 (proj2 (framed_reader fuel)) _ _ _ _ _ H)
         |by apply addenv_rooted in Hadd]).
  - unfold mret, R_ret in H. simplify_eq. by left.
  - by apply (IH st1).
  - bind_ret H as cell st2 Hread. bind_ret H as tok st3 Htok2.
    case_bool_decide; [|done].
    bind_ret H as u st4 Hset. unfold in_world, m_set_cdr, set_cdr in Hset. by simplify_eq.
Qed.

(** The first element of a list: the pair made for it is rooted under the
    sentinel before the loop goes on with it as [list] and [tail]. *)

Lemma first_cons_registered (fuel : nat) st tok st1 cell st2 :
  Stream.good (input st) = true →
  get_token st = (Ret tok, st1) →
  is_item tok = true →
  read sy fuel (with_put_back st1 tok) = (Ret cell, st2) →
  parse_list_loop sy (S fuel) nil nil st
  = parse_list_loop sy fuel (CPair (length (conses (world st2))))
      (CPair (length (conses (world st2)))) (Rooting.rooted_first sy cell st2).
Proof.
  intros Hg Htok Hitem Hread.
  cbn [parse_list_loop].
  rewrite (R_bind_eq input_good _ st true st) by (unfold input_good; by rewrite Hg).
  cbn [negb].
  rewrite (R_bind_eq get_token _ st tok st1 Htok).
  destruct tok; try done;
    (rewrite (R_bind_eq (set_put_back _) _ st1 () (with_put_back st1 _)) by done;
     rewrite (R_bind_eq _ _ _ cell st2 Hread);
     reflexivity).
Qed.

End Induction.

End ReaderFrame.




(** ** Construction of numbers, and the reader *)




(** * Further properties of the code *)

(** ** The primitives *)

Module PrimFacts.
Import Lists.

Lemma length_list_cells (n : nat) (es : list Cell) : length (list_cells n es) = length es.
Proof. revert n. induction es as [|e es IH]; intros n; simpl; [done|]. by rewrite IH. Qed.

Lemma list_cells_cons (n : nat) (e e' : Cell) (es : list Cell) :
  list_cells n (e :: e' :: es) = mkCons e (CPair (S n)) false :: list_cells (S n) (e' :: es).
Proof. reflexivity. Qed.

(** The loop of [fun_list], entered with the last pair made at the end of
    the arena. *)
Lemma fun_list_loop_cells (rest : list Cell) :
  ∀ (pre : list Cons) (e : Cell) (scm : Scheme),
    conses scm = pre ++ [mkCons e CNil false] →
    fun_list_loop (CPair (length pre)) rest scm
    = (Ret (), with_conses scm (pre ++ list_cells (length pre) (e :: rest))).
Proof.
  induction rest as [|r rest IH]; intros pre e scm Hc.
  - cbn. rewrite <- Hc. by destruct scm.
  - cbn [fun_list_loop].
    unfold mbind at 1, M_bind at 1, m_cons, cons.
    unfold mbind at 1, M_bind at 1, m_set_cdr, set_cdr. cbn [conses with_conses].
    rewrite Hc.
    rewrite lookup_app_l by (rewrite length_app; simpl; lia).
    rewrite lookup_app_r by lia. rewrite Nat.sub_diag. cbn [lookup list_lookup cons_car cons_mrk].
    unfold mbind at 1, M_bind at 1, lift, cdr. cbn [conses with_conses].
    rewrite list_lookup_insert_eq by (rewrite !length_app; simpl; lia).
    cbn [cons_cdr].
    rewrite <- (assoc_L (++)) at 1.
    rewrite insert_app_l by (rewrite length_app; simpl; lia).
    rewrite insert_app_r_alt by lia. rewrite Nat.sub_diag. cbn [insert list_insert].
    rewrite length_app. cbn [length]. rewrite Nat.add_1_r.
    set (pre' := pre ++ [mkCons e (CPair (S (length pre))) false]).
    assert (Hlen : length pre' = S (length pre)).
    { unfold pre'. rewrite length_app. simpl. lia. }
    rewrite <- Hlen.
    rewrite (IH pre' r); [|reflexivity].
    unfold with_conses. cbn [conses vectors symtab topenv]. f_equal. f_equal.
    rewrite Hlen, list_cells_cons. unfold pre'.
    by rewrite <- (assoc_L (++)).
Qed.

Lemma fun_list_cells (args : list Cell) (scm : Scheme) :
  fun_list args scm
  = (Ret (match args with [] => CNil | _ => CPair (length (conses scm)) end),
     with_conses scm (conses scm ++ list_cells (length (conses scm)) args)).
Proof.
  destruct args as [|e rest].
  - cbn. rewrite app_nil_r. by destruct scm.
  - cbn [fun_list]. unfold mbind at 1, M_bind at 1, m_cons, cons.
    unfold mbind at 1, M_bind at 1.
    rewrite (fun_list_loop_cells rest (conses scm) e); [|done].
    reflexivity.
Qed.

(** The cells laid out by [list_cells] are a list of the elements. *)
Lemma list_of_cells (es : list Cell) :
  ∀ (pre : list Cons) (scm : Scheme), es ≠ [] →
    conses scm = pre ++ list_cells (length pre) es →
    list_of scm es CNil (CPair (length pre)).
Proof.
  induction es as [|e es IH]; intros pre scm Hne Hc; [done|].
  cbn [list_of]. eexists (length pre), _. split; [done|].
  split; [rewrite Hc, lookup_app_r by lia; rewrite Nat.sub_diag; reflexivity|].
  split; [done|]. cbn [cons_cdr].
  destruct es as [|e' es]; [done|].
  replace (S (length pre)) with (length (pre ++ [mkCons e (CPair (S (length pre))) false]))
    by (rewrite length_app; simpl; lia).
  apply IH; [done|].
  rewrite Hc, list_cells_cons, <- (assoc_L (++)).
  by rewrite length_app, Nat.add_1_r.
Qed.

End PrimFacts.

(** X1: [list] returns the empty list for no arguments and otherwise a
    fresh proper list whose elements are the arguments in order, ending in
    [()]; the pairs that existed before are still there unchanged, and
    exactly one pair per argument is added. *)
Theorem X1_list_builds_proper_list (ops : NumberOps) (senv : Cell) (args : list Cell)
    (scm : Scheme) :
  ∃ c scm',
    call senv op_list args scm = (Ret c, scm')
    ∧ Lists.list_of scm' args CNil c
    ∧ (∃ new, conses scm' = conses scm ++ new ∧ length new = length args)
    ∧ vectors scm' = vectors scm ∧ symtab scm' = symtab scm ∧ topenv scm' = topenv scm.
Proof.
  eexists _, _. split; [apply PrimFacts.fun_list_cells|].
  split.
  - destruct args as [|e es]; [done|].
    by apply PrimFacts.list_of_cells.
  - split; [|done]. eexists. split; [done|]. apply PrimFacts.length_list_cells.
Qed.

(** X2: with one number or more, [-] and [/] fold their operator from the
    first argument over the others, left to right. *)
Theorem X2_sub_div_fold_from_first (ops : NumberOps) (a : Num.Number) (rest : list Num.Number) :
    fun_sub (CNumber a :: (CNumber <$> rest)) = Ret (CNumber (foldl num_sub a rest))
  ∧ fun_div (CNumber a :: (CNumber <$> rest)) = Ret (CNumber (foldl num_div a rest)).
Proof.
  unfold fun_sub, fun_div. cbn. by rewrite !accumulate_numbers.
Qed.

Module ArithFacts.
Import Lists.

Lemma accumulate_not_number (ops : NumberOps) op (args : list Cell) :
  ∀ acc, Exists (fun c => is_number c = false) args →
    accumulate op acc args = Throw bad_variant_access.
Proof.
  induction args as [|c args IH]; intros acc Hex; [by apply Exists_nil in Hex|].
  cbn [accumulate].
  destruct c; try reflexivity.
  apply Exists_cons in Hex as [Hc|Hex]; [done|].
  cbn. by apply IH.
Qed.

Lemma from_first_not_number (ops : NumberOps) op (args : list Cell) :
  Exists (fun c => is_number c = false) args →
  (c ← at_ args 0; r0 ← to_Number c; r ← accumulate op r0 (tail args); Ret (CNumber r))
  = Throw bad_variant_access.
Proof.
  intros Hex. destruct args as [|c args]; [by apply Exists_nil in Hex|].
  cbn. destruct c; try reflexivity.
  apply Exists_cons in Hex as [Hc|Hex]; [done|].
  cbn. by rewrite accumulate_not_number.
Qed.

End ArithFacts.

(** X3: an argument that is not a number makes each of [+], [-], [*] and
    [/] throw [bad_variant_access], wherever it stands among the
    arguments. *)
Theorem X3_arithmetic_type_error (ops : NumberOps) (args : list Cell) :
  Exists (fun c => Lists.is_number c = false) args →
    fun_add args = Throw bad_variant_access
  ∧ fun_sub args = Throw bad_variant_access
  ∧ fun_mul args = Throw bad_variant_access
  ∧ fun_div args = Throw bad_variant_access.
Proof.
  intros Hex. unfold fun_add, fun_mul, fun_sub, fun_div.
  rewrite !(ArithFacts.accumulate_not_number ops _ args _ Hex).
  rewrite !(ArithFacts.from_first_not_number ops _ args Hex).
  done.
Qed.

Lemma X3_arithmetic_type_error_witness :
  @fun_add NumSpec.ops [CNumber (Num.NInt 1); CString "two"; CNumber (Num.NInt 3)]
  = Throw bad_variant_access.
Proof.
  apply (X3_arithmetic_type_error NumSpec.ops
           [CNumber (Num.NInt 1); CString "two"; CNumber (Num.NInt 3)]).
  apply Exists_cons_tl, Exists_cons_hd. reflexivity.
Defined.

(** X4: a call of a primitive that throws leaves the interpreter as it
    was: no pair is made or changed by a failed call. *)
Theorem X4_failed_call_changes_nothing (ops : NumberOps) (senv : Cell) (primop : Intern)
    (args : list Cell) (scm : Scheme) (e : exn) (scm' : Scheme) :
  call senv primop args scm = (Throw e, scm') → scm' = scm.
Proof.
  destruct primop; unfold call;
    try (unfold lift, throw; intros H; by simplify_eq).
  - (* cons *)
    unfold lift, mbind, M_bind, m_cons, cons.
    destruct (at_ args 0); [destruct (at_ args 1)|..]; intros H; by simplify_eq.
  - (* car *)
    unfold lift, mbind, M_bind.
    destruct (at_ args 0) as [c| |]; intros H; by simplify_eq.
  - (* cdr *)
    unfold lift, mbind, M_bind.
    destruct (at_ args 0) as [c| |]; intros H; by simplify_eq.
  - (* set-car! *)
    unfold lift, mbind, M_bind, m_set_car, set_car, mret, M_ret.
    destruct (at_ args 0) as [c| |]; [destruct (at_ args 1)|..];
      intros H; repeat case_match; by simplify_eq.
  - (* set-cdr! *)
    unfold lift, mbind, M_bind, m_set_cdr, set_cdr, mret, M_ret.
    destruct (at_ args 0) as [c| |]; [destruct (at_ args 1)|..];
      intros H; repeat case_match; by simplify_eq.
  - (* list *)
    rewrite PrimFacts.fun_list_cells. intros H. by simplify_eq.
Qed.

Lemma X4_failed_call_changes_nothing_witness :
  (call (ops := NumSpec.ops) CNone op_setcar [CNil; CPair 0] Heaps.two_cycle).2 = Heaps.two_cycle.
Proof.
  apply (X4_failed_call_changes_nothing NumSpec.ops CNone op_setcar [CNil; CPair 0]
           Heaps.two_cycle bad_variant_access).
  reflexivity.
Defined.

(** ** The printer on proper lists and vectors *)

Module PrintFacts.
Import Lists Text Printer.

Lemma app_assoc_string (a b c : string) : (a +:+ b) +:+ c = a +:+ (b +:+ c).
Proof.
  induction a as [|x a IH]; [done|].
  rewrite !StringFacts.app_cons. f_equal. exact IH.
Qed.

Lemma car_pair (scm : Scheme) (p : nat) (k : Cons) :
  conses scm !! p = Some k → car scm (CPair p) = Ret (cons_car k).
Proof. unfold car. by intros ->. Qed.

Lemma cdr_pair (scm : Scheme) (p : nat) (k : Cons) :
  conses scm !! p = Some k → cdr scm (CPair p) = Ret (cons_cdr k).
Proof. unfold cdr. by intros ->. Qed.

Lemma list_of_functional (scm : Scheme) (t : Cell) (es1 : list Cell) :
  is_pair t = false →
  ∀ es2 c, list_of scm es1 t c → list_of scm es2 t c → es1 = es2.
Proof.
  intros Ht. induction es1 as [|e es1 IH]; intros es2 c H1 H2.
  - cbn in H1. subst c. destruct es2 as [|e2 es2]; [done|].
    destruct H2 as (p & k & -> & _). done.
  - destruct H1 as (p & k & -> & Hk & <- & H1).
    destruct es2 as [|e2 es2]; [cbn in H2; by subst|].
    destruct H2 as (p2 & k2 & [= <-] & Hk2 & <- & H2).
    rewrite Hk in Hk2. injection Hk2 as <-.
    f_equal. by apply (IH es2 (cons_cdr k)).
Qed.

Section ProperLists.
Variable pr : Cell → res string.
Variable scm : Scheme.
Variable t : Cell.
Variable tl : string.
Hypothesis Ht : is_pair t = false.
Hypothesis Htail : ∀ out, write_tail pr t out = Ret (out +:+ tl).

(** The loop on what is left of a proper list: the tortoise is behind the
    hare, so the two never meet. *)
Lemma write_loop_proper (n : nat) :
  ∀ es ss es_slow iter slow out,
    list_of scm es t iter → list_of scm es_slow t slow →
    (length es <= length es_slow)%nat →
    Forall2 (fun e s => pr e = Ret s) es ss →
    (length es < n)%nat →
    write_loop pr scm n iter slow out = Ret (out +:+ spaced ss +:+ tl).
Proof.
  induction n as [|n IH]; intros es ss es_slow iter slow out Hi Hs Hlen Hpr Hn; [lia|].
  cbn [write_loop].
  destruct es as [|e1 es].
  - cbn in Hi. subst iter. rewrite Ht.
    apply Forall2_nil_inv_l in Hpr as ->. apply Htail.
  - destruct Hi as (p1 & k1 & -> & Hk1 & <- & Hi).
    apply Forall2_cons_inv_l in Hpr as (s1 & ss1 & Hs1 & Hpr & ->).
    cbn [is_pair]. rewrite (car_pair _ _ _ Hk1), (cdr_pair _ _ _ Hk1). cbn.
    rewrite Hs1. cbn.
    destruct es_slow as [|e_s es_slow]; [simpl in Hlen; lia|].
    destruct Hs as (ps & ks & -> & Hks & <- & Hs).
    destruct es as [|e2 es].
    + cbn in Hi. rewrite Hi, Ht. cbn [negb orb].
      unfold same. rewrite bool_decide_eq_false_2 by (by destruct t).
      apply Forall2_nil_inv_l in Hpr as ->.
      rewrite Htail. cbn [spaced foldr]. by rewrite !app_assoc_string.
    + destruct Hi as (p2 & k2 & Hp2 & Hk2 & <- & Hi).
      apply Forall2_cons_inv_l in Hpr as (s2 & ss2 & Hs2 & Hpr & ->).
      rewrite Hp2. cbn [is_pair negb orb].
      unfold same. rewrite bool_decide_eq_false_2; last first.
      { intros Heq.
        assert (Hlist : list_of scm (cons_car ks :: es_slow) t (CPair ps)).
        { eexists ps, ks. done. }
        rewrite Heq in Hlist.
        assert (Hlist2 : list_of scm (cons_car k2 :: es) t (CPair p2)).
        { eexists p2, k2. done. }
        pose proof (list_of_functional scm t _ Ht _ _ Hlist Hlist2) as Heq2.
        apply (f_equal length) in Heq2. simpl in Heq2, Hlen. lia. }
      rewrite (car_pair _ _ _ Hk2), (cdr_pair _ _ _ Hk2), (cdr_pair _ _ _ Hks). cbn.
      rewrite Hs2. cbn.
      rewrite (IH es ss2 es_slow); [|done|done|simpl in Hlen; lia|done|simpl in Hn; lia].
      cbn [spaced foldr]. by rewrite !app_assoc_string.
Qed.

Lemma write_Cons_proper (n : nat) (c e0 : Cell) (es : list Cell) (s0 : string) (ss : list string) :
  list_of scm (e0 :: es) t c →
  Forall2 (fun e s => pr e = Ret s) (e0 :: es) (s0 :: ss) →
  (length es < n)%nat →
  write_Cons pr scm n c = Ret ("(" +:+ s0 +:+ spaced ss +:+ tl).
Proof.
  intros (p & k & -> & Hk & <- & Hl) Hpr Hn.
  apply Forall2_cons in Hpr as [Hs0 Hpr].
  unfold write_Cons. rewrite (car_pair _ _ _ Hk), (cdr_pair _ _ _ Hk). cbn.
  rewrite Hs0. cbn.
  rewrite (write_loop_proper n es ss es); [|done..].
  by rewrite app_assoc_string.
Qed.

End ProperLists.

Lemma write_elements_spaced (pr : Cell → res string) (es : list Cell) :
  ∀ ss out, Forall2 (fun e s => pr e = Ret s) es ss →
    write_elements pr es out = Ret (out +:+ spaced ss).
Proof.
  induction es as [|e es IH]; intros ss out Hpr.
  - apply Forall2_nil_inv_l in Hpr as ->. cbn. by rewrite StringFacts.append_empty.
  - apply Forall2_cons_inv_l in Hpr as (s & ss' & Hs & Hpr & ->).
    cbn [write_elements]. rewrite Hs. cbn.
    rewrite (IH ss'); [|done]. cbn [spaced foldr]. by rewrite !app_assoc_string.
Qed.

End PrintFacts.

(** X5: a list that ends, that is whose [cdr]s reach a cell [t] that is not
    a pair, is written as its elements between parentheses, one blank
    between them, followed by [" . "] and [t] when [t] is not [()]; the
    scan for cycles never cuts such a list short. *)
Theorem X5_proper_list_written (scm : Scheme) (fuel : nat) (c e0 t : Cell)
    (es : list Cell) (s0 tl : string) (ss : list string) :
  Lists.list_of scm (e0 :: es) t c →
  is_pair t = false →
  Forall2 (fun e s => Printer.write_Cell fuel scm e = Ret s) (e0 :: es) (s0 :: ss) →
  (t = CNil ∧ tl = ")"
   ∨ ∃ st, t ≠ CNil ∧ Printer.write_Cell fuel scm t = Ret st ∧ tl = " . " +:+ st +:+ ")") →
  (length es < fuel)%nat →
  Printer.write_Cell (S fuel) scm c = Ret ("(" +:+ s0 +:+ Text.spaced ss +:+ tl).
Proof.
  intros Hl Ht Hpr Htl Hfuel.
  assert (Hc : ∃ p, c = CPair p) by (destruct Hl as (p & k & -> & _); by eexists).
  destruct Hc as [p ->]. cbn [Printer.write_Cell].
  apply (PrintFacts.write_Cons_proper _ scm t tl Ht) with (e0 := e0) (es := es); [|done..].
  intros out. unfold Printer.write_tail.
  destruct Htl as [[-> ->]|(st & Hne & Hst & ->)]; [done|].
  destruct t; try done. all: by rewrite Hst.
Qed.

Lemma X5_proper_list_written_witness :
  Printer.write_Cell 3 Text.one_two (CPair 0) = Ret "(1 2)".
Proof.
  apply (X5_proper_list_written Text.one_two 2 (CPair 0) (CNumber (Num.NInt 1)) CNil
           [CNumber (Num.NInt 2)] "1" ")" ["2"]).
  - eexists 0%nat, _. repeat split. eexists 1%nat, _. repeat split.
  - reflexivity.
  - repeat constructor.
  - left. done.
  - simpl. lia.
Defined.

(** X6: a vector is written as [#(] its elements with one blank between
    them [)], and the empty vector as [#()]. *)
Theorem X6_vector_written (scm : Scheme) (fuel v : nat) (es : list Cell) (ss : list string) :
  vectors scm !! v = Some es →
  Forall2 (fun e s => Printer.write_Cell fuel scm e = Ret s) es ss →
  Printer.write_Cell (S fuel) scm (CVector v)
  = Ret (match ss with
         | [] => "#()"
         | s0 :: ss' => "#(" +:+ s0 +:+ Text.spaced ss' +:+ ")"
         end).
Proof.
  intros Hv Hpr. cbn [Printer.write_Cell]. unfold Printer.write_Vector. rewrite Hv.
  destruct es as [|e es].
  - by apply Forall2_nil_inv_l in Hpr as ->.
  - apply Forall2_cons_inv_l in Hpr as (s0 & ss' & Hs0 & Hpr & ->).
    rewrite Hs0. cbn.
    rewrite (PrintFacts.write_elements_spaced _ es ss'); [|done]. cbn.
    by rewrite !PrintFacts.app_assoc_string.
Qed.

Lemma X6_vector_written_witness :
  Printer.write_Cell 2 Text.with_vector (CVector 0) = Ret "#(1 #t)".
Proof.
  apply (X6_vector_written Text.with_vector 1 0 [CNumber (Num.NInt 1); CBool true] ["1"; "#t"]).
  - reflexivity.
  - repeat constructor.
Defined.

(** ** The display form of strings *)

Module DisplayFacts.
Import Printer Lexer.

Lemma display_chars_cons (c : ascii) (l : list ascii) :
  display_chars (c :: l)
  = if bool_decide (c = backslash)
    then match l with
         | d :: rest => escape d :: display_chars rest
         | [] => [c]
         end
    else c :: display_chars l.
Proof. reflexivity. Qed.

Lemma display_chars_length (l : list ascii) :
  (length (display_chars l) <= length l)%nat
  ∧ ∀ c, (length (display_chars (c :: l)) <= S (length l))%nat.
Proof.
  induction l as [|d l [IH1 IH2]].
  - split; [done|]. intros c. rewrite display_chars_cons. by case_bool_decide.
  - split; [apply IH2|].
    intros c. rewrite display_chars_cons. specialize (IH2 d).
    case_bool_decide; cbn [length] in *; lia.
Qed.

Lemma display_chars_plain (l : list ascii) :
  backslash ∉ l → display_chars l = l.
Proof.
  induction l as [|c l IH]; intros Hn; [done|].
  apply not_elem_of_cons in Hn as [Hc Hl].
  rewrite display_chars_cons, bool_decide_eq_false_2 by done.
  by rewrite IH.
Qed.

End DisplayFacts.

(** X7: the display form of a string is never longer than the string, and
    a string without a backslash is displayed as it is. *)
Theorem X7_display_string (s : string) :
  (String.length (Printer.display_String s) <= String.length s)%nat
  ∧ (Lexer.backslash ∉ list_ascii_of_string s → Printer.display_String s = s).
Proof.
  unfold Printer.display_String. split.
  - rewrite CharFacts.length_string_of_list, <- (CharFacts.length_list_of_string s).
    apply DisplayFacts.display_chars_length.
  - intros Hn. rewrite DisplayFacts.display_chars_plain by done.
    apply string_of_list_ascii_of_string.
Qed.

Lemma X7_display_string_witness :
  Printer.display_String "plain text" = "plain text".
Proof.
  apply (proj2 (X7_display_string "plain text")).
  intros H. apply list_elem_of_In in H. vm_compute in H.
  repeat (destruct H as [H|H]; [discriminate H|]). exact H.
Defined.

(** ** String literals that the input does not close *)

Module UnclosedFacts.
Import Ctype Lexer Literal Unclosed StringFacts.

(** The loop of [lex_string] over a well-formed prefix, with the character
    its local [c] is left holding. *)
Lemma lex_string_loop_prefix_last (items : list item) :
  ∀ (fuel : nat) (c : option ascii) (str : string) (ins : istream) (tl : list ascii),
    Forall (fun it => well_formed it = true) items →
    Stream.good ins = true →
    ahead ins = sources items ++ tl →
    ∃ ins',
      lex_string_loop (length items + fuel) c str ins
      = lex_string_loop fuel (last_read c items)
          (str +:+ string_of_list_ascii (sources items)) ins'
      ∧ ahead ins' = tl ∧ Stream.good ins' = true.
Proof.
  induction items as [|it items IH]; intros fuel c str ins tl Hwf Hg Ha.
  - exists ins. split; [|done].
    by rewrite (append_empty str : str +:+ string_of_list_ascii (sources []) = str).
  - apply Forall_cons in Hwf as [Hit Hwf].
    rewrite sources_cons in Ha |- *. rewrite <- app_assoc in Ha.
    cbn [length Nat.add last_read].
    destruct it as [x|x]; cbn [source app well_formed payload] in Ha, Hit |- *.
    + apply andb_true_iff in Hit as [Hit Hnb]. apply andb_true_iff in Hit as [Hpr Hnq].
      apply negb_true_iff, bool_decide_eq_false_1 in Hnb, Hnq.
      cbn [lex_string_loop].
      rewrite (good_ok _ Hg).
      erewrite (extract_next (Stream.noskipws ins) x); [|done|done|exact Ha].
      rewrite bool_decide_eq_false_2 by congruence.
      rewrite bool_decide_eq_false_2 by congruence.
      rewrite Hpr.
      destruct (IH fuel (Some x) (push_back str x)
                  (Stream.move (Stream.noskipws ins) (sources items ++ tl)
                     (x :: behind (Stream.noskipws ins))) tl) as (ins' & -> & ? & ?);
        [done|done|done|].
      exists ins'. split; [|done].
      by rewrite append_push.
    + cbn [lex_string_loop].
      rewrite (good_ok _ Hg).
      erewrite (extract_next (Stream.noskipws ins) backslash); [|done|done|exact Ha].
      rewrite bool_decide_eq_false_2 by done.
      rewrite bool_decide_eq_true_2 by done.
      erewrite extract_next; [|done|done|done].
      rewrite Hit.
      match goal with
      | |- ∃ _, lex_string_loop _ _ _ ?i = _ ∧ _ =>
          destruct (IH fuel (Some x) (push_back (push_back str backslash) x) i tl)
            as (ins' & -> & ? & ?); [done|done|done|]
      end.
      exists ins'. split; [|done].
      by rewrite !append_push.
Qed.

Lemma lex_string_loop_not_ok (n : nat) (c : option ascii) (str : string) (ins : istream) :
  Stream.ok ins = false → (lex_string_loop n c str ins).1.1 = Tok_Error.
Proof. intros H. destruct n; [done|]. cbn [lex_string_loop]. by rewrite H. Qed.

Lemma extract_at_end (ins : istream) :
  Stream.good ins = true → ahead ins = [] →
  ∃ ins1, Stream.extract (Stream.noskipws ins) = (None, ins1) ∧ Stream.ok ins1 = false.
Proof.
  intros Hg Ha. unfold Stream.extract.
  replace (Stream.good (Stream.noskipws ins)) with true by done.
  replace (skipws (Stream.noskipws ins)) with false by done.
  replace (ahead (Stream.noskipws ins)) with ([] : list ascii) by done.
  eexists. split; [done|]. unfold Stream.ok, Stream.fail. cbn. done.
Qed.

Lemma extract_not_ok (ins : istream) :
  Stream.ok ins = false →
  ∃ ins1, Stream.extract ins = (None, ins1) ∧ Stream.ok ins1 = false.
Proof.
  intros Hok. unfold Stream.extract.
  assert (Hg : Stream.good ins = false).
  { unfold Stream.ok, Stream.fail, Stream.good in *.
    destruct (eofbit ins), (failbit ins), (badbit ins); done. }
  rewrite Hg. eexists. split; [done|].
  unfold Stream.ok, Stream.fail. cbn. done.
Qed.

(** At the end of the input the read fails and the loop goes by what [c]
    still holds. *)
Lemma lex_string_loop_at_end (fuel : nat) (c : option ascii) (str : string) (ins : istream) :
  Stream.good ins = true → ahead ins = [] →
  (lex_string_loop (S fuel) c str ins).1.1
  = (if bool_decide (c = Some dquote) then Tok_String else Tok_Error)
  ∧ (c = Some dquote → (lex_string_loop (S fuel) c str ins).1.2 = str).
Proof.
  intros Hg Ha. cbn [lex_string_loop].
  rewrite (good_ok _ Hg).
  destruct (extract_at_end ins Hg Ha) as (ins1 & -> & Hok1).
  case_bool_decide as Hq; [done|].
  split; [|done].
  case_bool_decide as Hb.
  - destruct (extract_not_ok ins1 Hok1) as (ins2 & -> & Hok2).
    subst c. replace (iswprint (int_of_char backslash)) with true by done.
    by apply lex_string_loop_not_ok.
  - destruct c as [x|]; [|done].
    destruct (iswprint (int_of_char x)); [|done].
    by apply lex_string_loop_not_ok.
Qed.

Lemma last_read_quote (items : list item) (c : option ascii) :
  Forall (fun it => well_formed it = true) items →
  items ≠ [] →
  bool_decide (last_read c items = Some dquote) = ends_with_escaped_quote items.
Proof.
  revert c. induction items as [|it items IH]; intros c Hwf Hne; [done|].
  apply Forall_cons in Hwf as [Hit Hwf].
  destruct items as [|it' items].
  - cbn. unfold ends_with_escaped_quote. cbn.
    destruct it as [x|x]; cbn in *.
    + apply andb_true_iff in Hit as [Hit _]. apply andb_true_iff in Hit as [_ Hq].
      apply negb_true_iff, bool_decide_eq_false_1 in Hq.
      apply bool_decide_eq_false_2. congruence.
    + apply bool_decide_ext. split; congruence.
  - change (last_read c (it :: it' :: items))
      with (last_read (Some (payload it)) (it' :: items)).
    rewrite IH by done. reflexivity.
Qed.

End UnclosedFacts.



(** ** Integers: from text and back *)

Module IntFacts.
Import Num Ctype Lexer NumPrint.

Abbreviation digit c := (iswdigit (int_of_char c) = true).
Abbreviation chars d := (list_ascii_of_string (DecimalString.NilEmpty.string_of_uint d)).

Ltac char_code :=
  repeat match goal with
  | |- context [int_of_char (Ascii ?a ?b ?c ?d ?e ?f ?g ?h)] =>
      let v := eval vm_compute in (int_of_char (Ascii a b c d e f g h)) in
      change (int_of_char (Ascii a b c d e f g h)) with v
  end.

Lemma chars_digits (d : Decimal.uint) : Forall (fun c => digit c) (chars d).
Proof. induction d; cbn; constructor; done. Qed.

Lemma take_digits_acc (d : Decimal.uint) :
  ∀ (p : positive) (n : nat),
    take_digits (Z.pos p) n (chars d)
    = (Z.pos (Pos.of_uint_acc d p), (n + length (chars d))%nat, []).
Proof.
  induction d; intros p n;
    [cbn; do 2 f_equal; lia
    | cbn [DecimalString.NilEmpty.string_of_uint list_ascii_of_string take_digits length
           Pos.of_uint_acc];
      match goal with |- context [iswdigit ?c] => change (iswdigit c) with true end;
      cbn iota;
      match goal with
      | |- take_digits ?a _ _ = (Z.pos (Pos.of_uint_acc _ ?q), _, _) =>
          replace a with (Z.pos q) by (char_code; lia)
      end;
      rewrite IHd; do 2 f_equal; lia ..].
Qed.

Lemma take_digits_zero (d : Decimal.uint) :
  ∀ n : nat,
    take_digits 0 n (chars d) = (Z.of_N (Pos.of_uint d), (n + length (chars d))%nat, []).
Proof.
  induction d; intros n;
    [cbn; do 2 f_equal; lia
    | cbn [DecimalString.NilEmpty.string_of_uint list_ascii_of_string take_digits length];
      match goal with |- context [iswdigit ?c] => change (iswdigit c) with true end;
      cbn iota; char_code;
      match goal with
      | |- context [10 * 0 + (?k - 48)] =>
          let v := eval vm_compute in (10 * 0 + (k - 48)) in
          change (10 * 0 + (k - 48)) with v
      end;
      first [rewrite IHd | rewrite take_digits_acc];
      cbn [Pos.of_uint]; do 2 f_equal; lia ..].
Qed.

(** The digits of a positive number, read back. *)
Lemma take_digits_pos (p : positive) :
  take_digits 0 0 (chars (Pos.to_uint p))
  = (Z.pos p, length (chars (Pos.to_uint p)), []).
Proof. by rewrite take_digits_zero, DecimalPos.Unsigned.of_to. Qed.

Lemma lex_number_loop_digits (str : string) (rest : list ascii) :
  ∀ (ip : nat) (prev : ascii) (st : numstate),
    Forall (fun c => digit c) rest →
    lex_number_loop str rest ip prev st = Ret (Some st).
Proof.
  induction rest as [|c rest IH]; intros ip prev st H; [done|].
  apply Forall_cons in H as [Hc H].
  cbn [lex_number_loop]. rewrite Hc. by apply IH.
Qed.

End IntFacts.

Module IntLex.
Import Num Ctype Lexer NumPrint IntFacts.

Lemma stol_uint (d : Decimal.uint) (v : Z) (n : nat) :
  d ≠ Decimal.Nil →
  take_digits 0 0 (chars d) = (v, n, []) →
  n ≠ 0%nat →
  stol (DecimalString.NilEmpty.string_of_uint d)
  = if (- 2 ^ 63 <=? v) && (v <=? 2 ^ 63 - 1) then Ret v else Throw out_of_range.
Proof.
  intros Hd Ht Hn. unfold stol, sto_int.
  destruct d; [done|..];
    cbn [DecimalString.NilEmpty.string_of_uint list_ascii_of_string skip_space] in *;
    match goal with |- context [isspace ?c] => change (isspace c) with false end;
    cbn iota; cbn beta; rewrite Ht; by destruct n.
Qed.

Lemma stol_minus_uint (d : Decimal.uint) (v : Z) (n : nat) :
  take_digits 0 0 (chars d) = (v, n, []) →
  n ≠ 0%nat →
  stol (String "-" (DecimalString.NilEmpty.string_of_uint d))
  = if (- 2 ^ 63 <=? - v) && (- v <=? 2 ^ 63 - 1) then Ret (- v) else Throw out_of_range.
Proof.
  intros Ht Hn. unfold stol, sto_int.
  cbn [list_ascii_of_string skip_space].
  change (isspace (int_of_char "-")) with false. cbn iota. cbn beta.
  rewrite Ht. by destruct n.
Qed.

Lemma digit_not_mark (c : ascii) :
  digit c →
  strchr "+-" (int_of_char c) = false ∧ strchr "+-." (int_of_char c) = false
  ∧ strchr "iI" (int_of_char c) = false.
Proof.
  destruct c as [[] [] [] [] [] [] [] []]; intros H; vm_compute in H;
    first [discriminate H | vm_compute; done].
Qed.

Lemma lex_number_plain (c0 : ascii) (s : string) (num : Number) :
  digit c0 →
  Forall (fun c => digit c) (list_ascii_of_string s) →
  lex_number (String c0 s) num
  = match stol (String c0 s) with
    | Ret i => Ret (Tok_Number, NInt i)
    | Throw out_of_range => x ← Strtod.stod (String c0 s); Ret (Tok_Number, NFloat x)
    | Throw e => Throw e
    | Timeout => Timeout
    end.
Proof.
  intros Hc Hs. destruct (digit_not_mark c0 Hc) as (H1 & H2 & _).
  unfold lex_number.
  change ((size (String c0 s) =? 0)%nat) with false.
  change (code_at (String c0 s) 0) with (int_of_char c0).
  rewrite H1, H2. cbn [andb].
  change (code_at (String c0 s) 0) with (int_of_char c0).
  rewrite Hc.
  change (drop 1 (list_ascii_of_string (String c0 s))) with (list_ascii_of_string s).
  by rewrite lex_number_loop_digits.
Qed.

Lemma lex_number_minus (c1 : ascii) (s : string) (num : Number) :
  digit c1 →
  Forall (fun c => digit c) (list_ascii_of_string s) →
  lex_number (String "-" (String c1 s)) num
  = match stol (String "-" (String c1 s)) with
    | Ret i => Ret (Tok_Number, NInt i)
    | Throw out_of_range =>
        x ← Strtod.stod (String "-" (String c1 s)); Ret (Tok_Number, NFloat x)
    | Throw e => Throw e
    | Timeout => Timeout
    end.
Proof.
  intros Hc Hs. destruct (digit_not_mark c1 Hc) as (_ & _ & H3).
  unfold lex_number.
  change ((size (String "-" (String c1 s)) =? 0)%nat) with false.
  change (code_at (String "-" (String c1 s)) 0) with (int_of_char "-").
  change (code_at (String "-" (String c1 s)) 1) with (int_of_char c1).
  rewrite H3.
  change (strchr "+-" (int_of_char "-")) with true.
  change (strchr "+-." (int_of_char "-")) with true.
  cbn [andb].
  change (code_at (String "-" (String c1 s)) 1) with (int_of_char c1).
  rewrite Hc.
  change (drop 2 (list_ascii_of_string (String "-" (String c1 s))))
    with (list_ascii_of_string s).
  by rewrite lex_number_loop_digits.
Qed.

(** The text of a positive number: its digits, the first of them at the
    head. *)
Lemma to_uint_text (p : positive) :
  ∃ c s, DecimalString.NilEmpty.string_of_uint (Pos.to_uint p) = String c s
         ∧ digit c ∧ Forall (fun c => digit c) (list_ascii_of_string s).
Proof.
  pose proof (chars_digits (Pos.to_uint p)) as Hall.
  pose proof (DecimalPos.Unsigned.to_uint_nonnil p) as Hn.
  destruct (Pos.to_uint p); [done|..];
    cbn [DecimalString.NilEmpty.string_of_uint list_ascii_of_string] in *;
    apply Forall_cons in Hall as [? ?]; eauto.
Qed.

Lemma decimal_pos (p : positive) :
  decimal (Z.pos p) = DecimalString.NilEmpty.string_of_uint (Pos.to_uint p).
Proof.
  pose proof (DecimalPos.Unsigned.to_uint_nonnil p) as Hn.
  unfold decimal. cbn. by destruct (Pos.to_uint p).
Qed.

Lemma decimal_neg (p : positive) :
  decimal (Z.neg p) = String "-" (DecimalString.NilEmpty.string_of_uint (Pos.to_uint p)).
Proof.
  pose proof (DecimalPos.Unsigned.to_uint_nonnil p) as Hn.
  unfold decimal. cbn. by destruct (Pos.to_uint p).
Qed.

Lemma stol_decimal (i : Z) :
  - 2 ^ 63 ≤ i ≤ 2 ^ 63 - 1 → stol (decimal i) = Ret i.
Proof.
  intros Hi. destruct i as [|p|p]; [done|..].
  - rewrite decimal_pos.
    pose proof (take_digits_pos p) as Ht.
    destruct (to_uint_text p) as (c & s & Htext & _ & _).
    rewrite (stol_uint _ _ _ (DecimalPos.Unsigned.to_uint_nonnil p) Ht).
    + rewrite (proj2 (andb_true_iff _ _)); [done|]. split; lia.
    + by rewrite Htext.
  - rewrite decimal_neg.
    pose proof (take_digits_pos p) as Ht.
    destruct (to_uint_text p) as (c & s & Htext & _ & _).
    rewrite (stol_minus_uint _ _ _ Ht).
    + rewrite (proj2 (andb_true_iff _ _)); [done|]. split; lia.
    + by rewrite Htext.
Qed.

Lemma lex_number_decimal (i : Z) (num : Number) :
  - 2 ^ 63 ≤ i ≤ 2 ^ 63 - 1 →
  lex_number (decimal i) num = Ret (Tok_Number, NInt i).
Proof.
  intros Hi. pose proof (stol_decimal i Hi) as Hs.
  destruct i as [|p|p]; [done|..].
  - rewrite decimal_pos in *.
    destruct (to_uint_text p) as (c & s & Htext & Hc & Hall).
    rewrite Htext in *. rewrite lex_number_plain by done. by rewrite Hs.
  - rewrite decimal_neg in *.
    destruct (to_uint_text p) as (c & s & Htext & Hc & Hall).
    rewrite Htext in *. rewrite lex_number_minus by done. by rewrite Hs.
Qed.

End IntLex.

(** X9: the lexer maps the text the printer gives for an [Int] back to that
    [Int]: [lex_number] on the decimal text of any 64-bit integer returns
    the [Number] token and stores the integer, whatever [numtok] held
    before. *)
Theorem X9_integer_text_lexed (i : Z) (num : Num.Number) :
  - 2 ^ 63 ≤ i ≤ 2 ^ 63 - 1 →
  NumPrint.write_Number (Num.NInt i) = NumPrint.decimal i
  ∧ Lexer.lex_number (NumPrint.decimal i) num = Ret (Tok_Number, Num.NInt i).
Proof.
  intros Hi. split; [done|]. by apply IntLex.lex_number_decimal.
Qed.

Lemma X9_integer_text_lexed_witness :
  Lexer.lex_number "-9223372036854775808" (Num.NInt 0)
  = Ret (Tok_Number, Num.NInt (- 2 ^ 63)).
Proof.
  exact (proj2 (X9_integer_text_lexed (- 2 ^ 63) (Num.NInt 0) ltac:(lia))).
Defined.

(** ** Lexemes and their delimiters *)

Module LexemeFacts.
Import Ctype Lexer Lexeme Parser.

Lemma skip_app (ws a b : list ascii) :
  Forall (fun c => blank c = true) ws →
  Stream.skip (ws ++ a) b = Stream.skip a (rev ws ++ b).
Proof.
  revert b. induction ws as [|w ws IH]; intros b H; [done|].
  apply Forall_cons in H as [Hw H].
  cbn [app Stream.skip]. unfold blank, iswspace in Hw. rewrite Hw.
  rewrite IH by done. cbn [rev]. by rewrite <- app_assoc.
Qed.

Lemma skip_stop (c : ascii) (a b : list ascii) :
  blank c = false → Stream.skip (c :: a) b = (c :: a, b).
Proof. unfold blank, iswspace. cbn [Stream.skip]. by intros ->. Qed.

(** Leading white space is skipped up to the first character that is not,
    which is read; so with the [skipws] flag set as with it cleared. *)
Lemma skip_blanks_to_char (ws : list ascii) (c : ascii) (rest : list ascii) :
  ∀ (fuel : nat) (c0 : option ascii) (ins : istream),
    Forall (fun c => blank c = true) ws →
    blank c = false →
    Stream.good ins = true →
    ahead ins = ws ++ c :: rest →
    (length ws < fuel)%nat →
    skip_blanks fuel c0 ins = (Some c, Stream.move ins rest (c :: rev ws ++ behind ins)).
Proof.
  intros fuel c0 ins Hws Hc Hg Ha Hf.
  destruct (skipws ins) eqn:Hsk.
  - destruct fuel as [|fuel]; [lia|].
    cbn [skip_blanks]. unfold Stream.extract. rewrite Hg, Hsk, Ha.
    rewrite skip_app by done. rewrite skip_stop by done.
    unfold blank in Hc. by rewrite Hc.
  - revert fuel c0 ins Hg Ha Hf Hsk.
    induction ws as [|w ws IH]; intros fuel c0 ins Hg Ha Hf Hsk.
    + destruct fuel as [|fuel]; [cbn in Hf; lia|].
      cbn [skip_blanks]. unfold Stream.extract. rewrite Hg, Hsk, Ha.
      cbn [app]. unfold blank in Hc. by rewrite Hc.
    + apply Forall_cons in Hws as [Hw Hws].
      destruct fuel as [|fuel]; [cbn in Hf; lia|].
      cbn [skip_blanks]. unfold Stream.extract. rewrite Hg, Hsk, Ha.
      cbn [app]. unfold blank in Hw. rewrite Hw.
      rewrite (IH Hws fuel (Some w) (Stream.move ins (ws ++ c :: rest) (w :: behind ins)));
        [|done|done|cbn in Hf; lia|done].
      cbn [rev]. rewrite <- app_assoc. done.
Qed.

(** White space up to the end of the input: the stream ends at the end of
    file. *)
Lemma skip_blanks_to_end (ws : list ascii) :
  ∀ (fuel : nat) (c0 : option ascii) (ins : istream),
    Forall (fun c => blank c = true) ws →
    Stream.good ins = true →
    ahead ins = ws →
    (length ws < fuel)%nat →
    ∃ c ins', skip_blanks fuel c0 ins = (c, ins')
              ∧ Stream.good ins' = false ∧ Stream.eof ins' = true.
Proof.
  intros fuel c0 ins Hws Hg Ha Hf.
  destruct (skipws ins) eqn:Hsk.
  - destruct fuel as [|fuel]; [lia|].
    cbn [skip_blanks]. unfold Stream.extract. rewrite Hg, Hsk, Ha.
    replace (Stream.skip ws (behind ins)) with (Stream.skip (ws ++ []) (behind ins))
      by (by rewrite app_nil_r).
    rewrite skip_app by done.
    cbn [Stream.skip]. eauto.
  - revert fuel c0 ins Hg Ha Hf Hsk.
    induction ws as [|w ws IH]; intros fuel c0 ins Hg Ha Hf Hsk.
    + destruct fuel as [|fuel]; [cbn in Hf; lia|].
      cbn [skip_blanks]. unfold Stream.extract. rewrite Hg, Hsk, Ha. eauto.
    + apply Forall_cons in Hws as [Hw Hws].
      destruct fuel as [|fuel]; [cbn in Hf; lia|].
      cbn [skip_blanks]. unfold Stream.extract. rewrite Hg, Hsk, Ha.
      unfold blank in Hw. rewrite Hw.
      apply (IH Hws fuel (Some w) (Stream.move ins ws (w :: behind ins)));
        [done|done|cbn in Hf; lia|done].
Qed.

(** [read_lexeme] up to a delimiter: the characters before it are appended
    and the delimiter is read too. *)
Lemma read_lexeme_to_delimiter (w : list ascii) (d : ascii) (rest : list ascii) :
  ∀ (fuel : nat) (c : ascii) (str : string) (ins : istream),
    Forall (fun c => delimiter c = false) w →
    delimiter d = true →
    Stream.good ins = true →
    ahead ins = w ++ d :: rest →
    (length w < fuel)%nat →
    read_lexeme fuel c str ins
    = (d, str +:+ string_of_list_ascii w,
       Stream.move (Stream.noskipws ins) rest (d :: rev w ++ behind ins)).
Proof.
  induction w as [|x w IH]; intros fuel c str ins Hw Hd Hg Ha Hf.
  - destruct fuel as [|fuel]; [cbn in Hf; lia|].
    cbn [read_lexeme]. unfold Stream.extract.
    replace (Stream.good (Stream.noskipws ins)) with true by done.
    replace (skipws (Stream.noskipws ins)) with false by done.
    replace (ahead (Stream.noskipws ins)) with (ahead ins) by done.
    rewrite Ha. cbn [app].
    unfold delimiter in Hd. rewrite <- negb_orb, Hd. cbn [negb].
    by rewrite StringFacts.append_empty.
  - apply Forall_cons in Hw as [Hx Hw].
    destruct fuel as [|fuel]; [cbn in Hf; lia|].
    cbn [read_lexeme]. unfold Stream.extract.
    replace (Stream.good (Stream.noskipws ins)) with true by done.
    replace (skipws (Stream.noskipws ins)) with false by done.
    replace (ahead (Stream.noskipws ins)) with (ahead ins) by done.
    rewrite Ha. cbn [app].
    unfold delimiter in Hx. rewrite <- negb_orb, Hx. cbn [negb].
    rewrite (IH fuel x (push_back str x)
               (Stream.move (Stream.noskipws ins) (w ++ d :: rest)
                  (x :: behind (Stream.noskipws ins))));
      [|done|done|done|done|cbn in Hf; lia].
    rewrite StringFacts.append_push.
    cbn [rev]. rewrite <- app_assoc. done.
Qed.

Lemma last_after (c x : ascii) (w : list ascii) :
  default x (last w) = default c (last (x :: w)).
Proof.
  revert c x. induction w as [|y w IH]; intros c x; [done|].
  rewrite last_cons_cons. by rewrite <- !(IH _ y).
Qed.

(** [read_lexeme] up to the end of the input: the read fails there and
    [c] keeps the last character read. *)
Lemma read_lexeme_to_end (w : list ascii) :
  ∀ (fuel : nat) (c : ascii) (str : string) (ins : istream),
    Forall (fun c => delimiter c = false) w →
    Stream.good ins = true →
    ahead ins = w →
    (length w < fuel)%nat →
    read_lexeme fuel c str ins
    = (default c (last w), str +:+ string_of_list_ascii w,
       Stream.set_fail (Stream.set_eof
         (Stream.move (Stream.noskipws ins) [] (rev w ++ behind ins)))).
Proof.
  induction w as [|x w IH]; intros fuel c str ins Hw Hg Ha Hf.
  - destruct fuel as [|fuel]; [cbn in Hf; lia|].
    cbn [read_lexeme]. unfold Stream.extract.
    replace (Stream.good (Stream.noskipws ins)) with true by done.
    replace (skipws (Stream.noskipws ins)) with false by done.
    replace (ahead (Stream.noskipws ins)) with (ahead ins) by done.
    rewrite Ha.
    by rewrite StringFacts.append_empty.
  - apply Forall_cons in Hw as [Hx Hw].
    destruct fuel as [|fuel]; [cbn in Hf; lia|].
    cbn [read_lexeme]. unfold Stream.extract.
    replace (Stream.good (Stream.noskipws ins)) with true by done.
    replace (skipws (Stream.noskipws ins)) with false by done.
    replace (ahead (Stream.noskipws ins)) with (ahead ins) by done.
    rewrite Ha.
    unfold delimiter in Hx. rewrite <- negb_orb, Hx. cbn [negb].
    rewrite (IH fuel x (push_back str x)
               (Stream.move (Stream.noskipws ins) w (x :: behind (Stream.noskipws ins))));
      [|done|done|done|cbn in Hf; lia].
    rewrite StringFacts.append_push.
    rewrite (last_after c x w). f_equal.
    unfold Stream.set_fail, Stream.set_eof, Stream.move, Stream.noskipws. cbn.
    by rewrite <- app_assoc.
Qed.

Section Tokens.
Context {ops : NumberOps}.

(** A lexeme that ends at a delimiter: [get_token] hands it to the
    [switch] with the delimiter put back. *)
Lemma get_token_lexeme (st : Reader) (ws : list ascii) (c : ascii) (w : list ascii)
    (d : ascii) (rest : list ascii) :
  put_back st = Tok_None →
  Stream.good (input st) = true →
  ahead (input st) = ws ++ c :: w ++ d :: rest →
  Forall (fun c => blank c = true) ws →
  delimiter c = false →
  Forall (fun c => delimiter c = false) w →
  delimiter d = true →
  ∃ ins', get_token st = classify (with_lexeme st (String c (string_of_list_ascii w)) ins')
          ∧ ahead ins' = d :: rest ∧ Stream.good ins' = true.
Proof.
  intros Hpb Hg Ha Hws Hc Hw Hd.
  assert (Hcb : blank c = false).
  { unfold delimiter in Hc. by apply orb_false_iff in Hc as [? _]. }
  assert (Hcs : is_special (int_of_char c) = false).
  { unfold delimiter in Hc. by apply orb_false_iff in Hc as [_ ?]. }
  unfold get_token. rewrite Hpb.
  rewrite bool_decide_eq_true_2 by done. cbn [negb].
  rewrite (skip_blanks_to_char ws c (w ++ d :: rest)); [|done|done|done|done|].
  2:{ rewrite Ha, length_app. lia. }
  replace (Stream.good (Stream.move (input st) (w ++ d :: rest)
             (c :: rev ws ++ behind (input st)))) with true by done.
  cbn [negb]. rewrite Hcs.
  rewrite (read_lexeme_to_delimiter w d rest); [|done|done|done|done|].
  2:{ cbn [Stream.move ahead]. rewrite length_app. cbn. lia. }
  cbn [negb andb].
  replace (Stream.good _) with true by done. cbn [negb andb].
  eexists. split; [reflexivity|].
  unfold Stream.putback. cbn.
  replace (eofbit (input st)) with false
    by (unfold Stream.good in Hg; by destruct (eofbit (input st))).
  unfold Stream.good in *. cbn.
  destruct (eofbit (input st)), (failbit (input st)), (badbit (input st)); try done.
  cbn. rewrite bool_decide_eq_true_2 by done. done.
Qed.

(** A lexeme that ends with the input. *)
Lemma get_token_last_lexeme (st : Reader) (ws : list ascii) (c : ascii) (w : list ascii) :
  put_back st = Tok_None →
  Stream.good (input st) = true →
  ahead (input st) = ws ++ c :: w →
  Forall (fun c => blank c = true) ws →
  delimiter c = false →
  Forall (fun c => delimiter c = false) w →
  ∃ ins', get_token st = classify (with_lexeme st (String c (string_of_list_ascii w)) ins')
          ∧ ahead ins' = [] ∧ Stream.good ins' = false.
Proof.
  intros Hpb Hg Ha Hws Hc Hw.
  assert (Hcb : blank c = false).
  { unfold delimiter in Hc. by apply orb_false_iff in Hc as [? _]. }
  assert (Hcs : is_special (int_of_char c) = false).
  { unfold delimiter in Hc. by apply orb_false_iff in Hc as [_ ?]. }
  unfold get_token. rewrite Hpb.
  rewrite bool_decide_eq_true_2 by done. cbn [negb].
  rewrite (skip_blanks_to_char ws c w); [|done|done|done|done|].
  2:{ rewrite Ha, length_app. lia. }
  replace (Stream.good (Stream.move (input st) w
             (c :: rev ws ++ behind (input st)))) with true by done.
  cbn [negb]. rewrite Hcs.
  rewrite (read_lexeme_to_end w); [|done|done|done|].
  2:{ cbn [Stream.move ahead]. lia. }
  eexists. split; [reflexivity|]. done.
Qed.

(** The [switch] of [get_token] on a lexeme whose first character is none
    of those it dispatches on. *)
Lemma classify_plain (st : Reader) (c : ascii) (s : string) :
  strtok st = String c s →
  c ∉ dispatch →
  classify st
  = if is_digit (String c s) 2 then
      match lex_number (String c s) (numtok st) with
      | Ret (tok, num) =>
          (Ret tok, mkReader (String c s) num (chrtok st) (put_back st) (input st) (world st))
      | Throw e => (Throw e, st)
      | Timeout => (Timeout, st)
      end
    else (Ret (lex_symbol (String c s)), st).
Proof.
  intros Hstr Hc. unfold classify. rewrite Hstr.
  change (char_at (String c s) 0) with c.
  unfold dispatch in Hc.
  repeat (apply not_elem_of_cons in Hc as [? Hc]).
  by rewrite !bool_decide_eq_false_2 by done.
Qed.

End Tokens.

End LexemeFacts.

Module TokenFacts.
Import Num Ctype Lexer Lexeme Parser LexemeFacts.

Section Tokens.
Context {ops : NumberOps}.

(** On a lexeme that starts with neither a special character nor [#] the
    [switch] of [get_token] touches neither the lexeme nor the input. *)
Lemma classify_keeps (st : Reader) (c : ascii) (s : string) (r : res Token) (st' : Reader) :
  strtok st = String c s →
  delimiter c = false →
  c ≠ "#"%char →
  classify st = (r, st') →
  strtok st' = strtok st ∧ input st' = input st ∧ world st' = world st
  ∧ put_back st' = put_back st.
Proof.
  intros Hstr Hd Hc. unfold classify. rewrite Hstr.
  change (char_at (String c s) 0) with c.
  repeat (case_bool_decide as E; [subst c; first [done | by vm_compute in Hd]|clear E]).
  cbn [andb].
  assert (Hcont :
    (if is_digit (String c s) 2
     then match lex_number (String c s) (numtok st) with
          | Ret (tok, num) =>
              (Ret tok, mkReader (String c s) num (chrtok st) (put_back st) (input st)
                          (world st))
          | Throw e => (Throw e, st)
          | Timeout => (Timeout, st)
          end
     else (Ret (lex_symbol (String c s)), st)) = (r, st') →
    strtok st' = String c s ∧ input st' = input st ∧ world st' = world st
    ∧ put_back st' = put_back st).
  { destruct (is_digit (String c s) 2);
      [destruct (lex_number (String c s) (numtok st)) as [[tok num]|e|]|];
      intros H; simplify_eq; done. }
  case_bool_decide as Edot; [|exact Hcont].
  cbn [andb]. destruct (size (String c s) =? 1)%nat; [|exact Hcont].
  intros Hr. by simplify_eq.
Qed.

End Tokens.

End TokenFacts.

(** X10: a lexeme ends before the white space or special character that
    follows it.  When the input holds white space, then a lexeme that
    starts with neither a special character nor [#], then a delimiter,
    [get_token] stores exactly the characters of the lexeme in [strtok]
    and leaves the delimiter as the next character of a good stream; the
    interpreter and the put-back slot are untouched. *)
Theorem X10_delimiter_stays_in_input (ops : NumberOps) (st : Reader)
    (ws : list ascii) (c : ascii) (w : list ascii) (d : ascii) (rest : list ascii)
    (r : res Token) (st' : Reader) :
  put_back st = Tok_None →
  Stream.good (input st) = true →
  ahead (input st) = ws ++ c :: w ++ d :: rest →
  Forall (fun c => Lexeme.blank c = true) ws →
  Lexeme.delimiter c = false →
  c ≠ "#"%char →
  Forall (fun c => Lexeme.delimiter c = false) w →
  Lexeme.delimiter d = true →
  Parser.get_token st = (r, st') →
  strtok st' = String c (string_of_list_ascii w)
  ∧ ahead (input st') = d :: rest
  ∧ Stream.good (input st') = true
  ∧ world st' = world st
  ∧ put_back st' = Tok_None.
Proof.
  intros Hpb Hg Ha Hws Hc Hh Hw Hd Htok.
  destruct (LexemeFacts.get_token_lexeme st ws c w d rest Hpb Hg Ha Hws Hc Hw Hd)
    as (ins' & Heq & Ha' & Hg').
  rewrite Heq in Htok.
  apply (TokenFacts.classify_keeps _ c (string_of_list_ascii w)) in Htok
    as (H1 & H2 & H3 & H4); [|done..].
  rewrite H1, H2, H3, H4. done.
Qed.

Lemma X10_delimiter_stays_in_input_witness :
  let st' := (Parser.get_token (ops := NumSpec.ops)
                (Parser.start "  abc)def" Heaps.empty)).2 in
  strtok st' = "abc" ∧ ahead (input st') = list_ascii_of_string ")def".
Proof.
  destruct (Parser.get_token (ops := NumSpec.ops) (Parser.start "  abc)def" Heaps.empty))
    as [r st'] eqn:E.
  pose proof (X10_delimiter_stays_in_input NumSpec.ops
                (Parser.start "  abc)def" Heaps.empty)
                [" "; " "]%char "a"%char ["b"; "c"]%char ")"%char ["d"; "e"; "f"]%char
                r st' eq_refl eq_refl eq_refl
                ltac:(repeat constructor) eq_refl ltac:(discriminate)
                ltac:(repeat constructor) eq_refl E) as (H1 & H2 & _).
  cbn. by rewrite H1, H2.
Defined.

Module IntRead.
Import Num Ctype Lexer Lexeme Parser NumPrint IntFacts IntLex LexemeFacts.

Lemma digit_plain (c : ascii) :
  digit c → delimiter c = false ∧ bool_decide (c ∈ dispatch) = false.
Proof.
  destruct c as [[] [] [] [] [] [] [] []]; intros H; vm_compute in H;
    first [discriminate H | vm_compute; done].
Qed.

Lemma digits_plain (l : list ascii) :
  Forall (fun c => digit c) l → Forall (fun c => delimiter c = false) l.
Proof. intros H. eapply Forall_impl; [exact H|]. intros c Hc. by apply digit_plain. Qed.

Lemma is_digit_plain (c : ascii) (s : string) :
  digit c → Forall (fun c => digit c) (list_ascii_of_string s) →
  is_digit (String c s) 2 = true.
Proof.
  intros Hc Hs. destruct (digit_not_mark c Hc) as (_ & _ & Hi).
  unfold is_digit. cbn [Nat.eqb].
  change (code_at (String c s) 0) with (int_of_char c). rewrite Hc.
  destruct s as [|c1 s].
  - cbn. rewrite Hc. cbn. done.
  - apply Forall_cons in Hs as [Hc1 _].
    cbn. rewrite Hc, Hc1. cbn. done.
Qed.

Lemma is_digit_minus (c : ascii) (s : string) :
  digit c → is_digit (String "-" (String c s)) 2 = true.
Proof.
  intros Hc. unfold is_digit. cbn. rewrite Hc. cbn. done.
Qed.

Section Reading.
Context {ops : NumberOps}.
Variable sy : Symbols.

(** [read] on a lexeme that is the whole input and that [lex_number] takes
    for the integer [i]. *)
Lemma read_number_text (fuel : nat) (st : Reader) (c : ascii) (s : string) (i : Z) :
  put_back st = Tok_None →
  ahead (input st) = c :: list_ascii_of_string s →
  delimiter c = false →
  bool_decide (c ∈ dispatch) = false →
  Forall (fun c => delimiter c = false) (list_ascii_of_string s) →
  is_digit (String c s) 2 = true →
  (∀ num, lex_number (String c s) num = Ret (Tok_Number, NInt i)) →
  ∃ st', read sy (S fuel) st = (Ret (CNumber (NInt i)), st') ∧ world st' = world st.
Proof.
  intros Hpb Ha Hc Hd Hs Hdig Hlex.
  apply bool_decide_eq_false_1 in Hd.
  unfold read.
  rewrite (ReaderFrame.R_bind_eq clear_input _ st ()
             (with_input st (Stream.clear (input st)))) by done.
  destruct (get_token_last_lexeme (with_input st (Stream.clear (input st)))
              [] c (list_ascii_of_string s)) as (ins' & Htok & _); [done..|].
  rewrite string_of_list_ascii_of_string in Htok.
  rewrite (classify_plain _ c s) in Htok by done.
  rewrite Hdig, Hlex in Htok.
  cbn [read_tokens].
  rewrite (ReaderFrame.R_bind_eq get_token _ _ _ _ Htok).
  eexists. split; [reflexivity|done].
Qed.

End Reading.

End IntRead.

(** X11: an integer that is written and read again is the same integer.
    When the input is the text that the printer gives for the cell of a
    64-bit integer and no token is put back, [read] returns that cell, for
    any fuel, and leaves the interpreter as it was. *)
Theorem X11_integer_written_and_read (ops : NumberOps) (sy : Symbols) (n fuel : nat)
    (st : Reader) (i : Z) (text : string) :
  - 2 ^ 63 ≤ i ≤ 2 ^ 63 - 1 →
  Printer.write_Cell (S n) (world st) (CNumber (Num.NInt i)) = Ret text →
  put_back st = Tok_None →
  ahead (input st) = list_ascii_of_string text →
  ∃ st', Parser.read sy (S fuel) st = (Ret (CNumber (Num.NInt i)), st')
         ∧ world st' = world st.
Proof.
  intros Hi Hw Hpb Ha.
  cbn in Hw. injection Hw as <-.
  change (NumPrint.write_Number (Num.NInt i)) with (NumPrint.decimal i) in Ha.
  pose proof (fun num => IntLex.lex_number_decimal i num Hi) as Hlex.
  destruct i as [|p|p].
  - apply (IntRead.read_number_text sy fuel st "0"%char "" 0); done.
  - rewrite IntLex.decimal_pos in *.
    destruct (IntLex.to_uint_text p) as (c & s & Htext & Hc & Hall).
    rewrite Htext in *.
    destruct (IntRead.digit_plain c Hc) as [Hd1 Hd2].
    apply (IntRead.read_number_text sy fuel st c s (Z.pos p)); try done.
    + by apply IntRead.digits_plain.
    + by apply IntRead.is_digit_plain.
  - rewrite IntLex.decimal_neg in *.
    destruct (IntLex.to_uint_text p) as (c & s & Htext & Hc & Hall).
    rewrite Htext in *.
    apply (IntRead.read_number_text sy fuel st "-"%char (String c s) (Z.neg p)); try done.
    + apply IntRead.digits_plain. by constructor.
    + by apply IntRead.is_digit_minus.
Qed.

Lemma X11_integer_written_and_read_witness :
  (Parser.read (ops := NumSpec.ops) Parser.symbols 1 (Parser.start "-42" Heaps.empty)).1
  = Ret (CNumber (Num.NInt (-42))).
Proof.
  destruct (X11_integer_written_and_read NumSpec.ops Parser.symbols 0 0
              (Parser.start "-42" Heaps.empty) (-42) "-42"
              ltac:(lia) eq_refl eq_refl eq_refl) as (st' & H & _).
  by rewrite H.
Defined.

(** ** The reader at the end of the input *)

Module EofFacts.
Import Num Ctype Lexer Lexeme Parser LexemeFacts.

Section Tokens.
Context {ops : NumberOps}.

(** Only white space is left: the token is [Eof]. *)
Lemma get_token_eof (st : Reader) (ws : list ascii) :
  put_back st = Tok_None →
  Stream.good (input st) = true →
  ahead (input st) = ws →
  Forall (fun c => blank c = true) ws →
  ∃ ins', get_token st = (Ret Tok_Eof, with_input st ins').
Proof.
  intros Hpb Hg Ha Hws. unfold get_token. rewrite Hpb.
  rewrite bool_decide_eq_true_2 by done. cbn [negb].
  destruct (skip_blanks_to_end ws (S (length (ahead (input st)))) None (input st))
    as (c & ins' & -> & Hg' & He'); [done|done|done|rewrite Ha; lia|].
  rewrite Hg', He'. cbn [negb]. by exists ins'.
Qed.

(** White space, then a special character: the [switch] of [get_token] is
    reached with the character as the lexeme and the rest as the input. *)
Lemma get_token_special (st : Reader) (ws : list ascii) (c : ascii) (rest : list ascii) :
  put_back st = Tok_None →
  Stream.good (input st) = true →
  ahead (input st) = ws ++ c :: rest →
  Forall (fun c => blank c = true) ws →
  blank c = false →
  is_special (int_of_char c) = true →
  get_token st
  = classify (with_lexeme st (String c "")
                (Stream.move (input st) rest (c :: rev ws ++ behind (input st)))).
Proof.
  intros Hpb Hg Ha Hws Hc Hsp. unfold get_token. rewrite Hpb.
  rewrite bool_decide_eq_true_2 by done. cbn [negb].
  rewrite (skip_blanks_to_char ws c rest); [|done|done|done|done|].
  2:{ rewrite Ha, length_app. lia. }
  replace (Stream.good (Stream.move (input st) rest (c :: rev ws ++ behind (input st))))
    with true by done.
  cbn [negb]. by rewrite Hsp.
Qed.

Lemma get_token_open (st : Reader) (ws : list ascii) (rest : list ascii) :
  put_back st = Tok_None →
  Stream.good (input st) = true →
  ahead (input st) = ws ++ "("%char :: rest →
  Forall (fun c => blank c = true) ws →
  ∃ ins', get_token st = (Ret Tok_OBrace, with_lexeme st "(" ins')
          ∧ ahead ins' = rest ∧ Stream.good ins' = true.
Proof.
  intros Hpb Hg Ha Hws.
  rewrite (get_token_special st ws "("%char rest) by done.
  eexists. split; [reflexivity|done].
Qed.

Lemma get_token_vector (st : Reader) (ws : list ascii) (rest : list ascii) :
  put_back st = Tok_None →
  Stream.good (input st) = true →
  ahead (input st) = ws ++ "#"%char :: "("%char :: rest →
  Forall (fun c => blank c = true) ws →
  ∃ ins', get_token st = (Ret Tok_Vector, with_lexeme st "#" ins')
          ∧ ahead ins' = "("%char :: rest ∧ Stream.good ins' = true.
Proof.
  intros Hpb Hg Ha Hws.
  destruct (get_token_lexeme st ws "#"%char [] "("%char rest)
    as (ins' & -> & Ha' & Hg'); [done..|by constructor|done|].
  exists ins'. done.
Qed.

End Tokens.

End EofFacts.

(** X12: at the end of the input [read] returns the end-of-file character.
    When nothing but white space is left and no token is put back, [read]
    returns [Char(EOF)], for any fuel, and leaves the interpreter as it
    was. *)
Theorem X12_read_at_end_of_input (ops : NumberOps) (sy : Symbols) (fuel : nat)
    (st : Reader) :
  put_back st = Tok_None →
  Forall (fun c => Lexeme.blank c = true) (ahead (input st)) →
  ∃ st', Parser.read sy (S fuel) st = (Ret (CChar EOF), st') ∧ world st' = world st.
Proof.
  intros Hpb Hws. unfold Parser.read.
  rewrite (ReaderFrame.R_bind_eq Parser.clear_input _ st ()
             (Parser.with_input st (Stream.clear (input st)))) by done.
  destruct (EofFacts.get_token_eof (Parser.with_input st (Stream.clear (input st)))
              (ahead (input st))) as (ins' & Htok); [done..|].
  cbn [Parser.read_tokens].
  rewrite (ReaderFrame.R_bind_eq Parser.get_token _ _ _ _ Htok).
  eexists. split; [reflexivity|done].
Qed.

Lemma X12_read_at_end_of_input_witness :
  (Parser.read (ops := NumSpec.ops) Parser.symbols 1 (Parser.start "   " Heaps.empty)).1
  = Ret (CChar EOF).
Proof.
  destruct (X12_read_at_end_of_input NumSpec.ops Parser.symbols 0
              (Parser.start "   " Heaps.empty) eq_refl ltac:(repeat constructor))
    as (st' & H & _).
  by rewrite H.
Defined.

(** X13: a list or a vector that the input ends in is an error.  When the
    input is white space, an opening parenthesis (or [#] and an opening
    parenthesis) and then nothing but white space, [read] throws the parse
    error of [parse_list] (of [parse_vector]). *)
Theorem X13_input_ends_inside (ops : NumberOps) (sy : Symbols) (fuel : nat)
    (st : Reader) (ws ws' : list ascii) :
  put_back st = Tok_None →
  Forall (fun c => Lexeme.blank c = true) ws →
  Forall (fun c => Lexeme.blank c = true) ws' →
  (ahead (input st) = ws ++ "("%char :: ws' →
   (Parser.read sy (S (S fuel)) st).1 = Throw Parser.list_error)
  ∧ (ahead (input st) = ws ++ "#"%char :: "("%char :: ws' →
     (Parser.read sy (S (S fuel)) st).1 = Throw Parser.vector_error).
Proof.
  intros Hpb Hws Hws'. split; intros Ha; unfold Parser.read;
    rewrite (ReaderFrame.R_bind_eq Parser.clear_input _ st ()
               (Parser.with_input st (Stream.clear (input st)))) by done.
  - destruct (EofFacts.get_token_open
                (Parser.with_input st (Stream.clear (input st))) ws ws'
                Hpb eq_refl Ha Hws) as (ins1 & Htok & Ha1 & Hg1).
    cbn [Parser.read_tokens].
    rewrite (ReaderFrame.R_bind_eq Parser.get_token _ _ _ _ Htok).
    cbn [Parser.parse_list_loop].
    match goal with
    | |- ((Parser.input_good ≫= ?k) ?s).1 = _ =>
        rewrite (ReaderFrame.R_bind_eq Parser.input_good k s true s)
          by (unfold Parser.input_good; cbn; by rewrite Hg1)
    end.
    cbn [negb].
    match goal with
    | |- ((Parser.get_token ≫= _) ?s).1 = _ =>
        destruct (EofFacts.get_token_eof s ws') as (ins' & Heof); [done..|]
    end.
    by rewrite (ReaderFrame.R_bind_eq Parser.get_token _ _ _ _ Heof).
  - destruct (EofFacts.get_token_vector
                (Parser.with_input st (Stream.clear (input st))) ws ws'
                Hpb eq_refl Ha Hws) as (ins1 & Htok & Ha1 & Hg1).
    cbn [Parser.read_tokens].
    rewrite (ReaderFrame.R_bind_eq Parser.get_token _ _ _ _ Htok).
    rewrite (ReaderFrame.R_bind_eq Parser.new_vector _ _ _ _ eq_refl).
    match goal with
    | |- ((Parser.get_token ≫= _) ?s).1 = _ =>
        destruct (EofFacts.get_token_open s [] ws')
          as (ins2 & Hopen & Ha2 & Hg2); [done|done|done|done|]
    end.
    rewrite (ReaderFrame.R_bind_eq Parser.get_token _ _ _ _ Hopen).
    rewrite bool_decide_eq_true_2 by done.
    cbn [Parser.parse_vector_loop].
    match goal with
    | |- ((Parser.input_good ≫= ?k) ?s).1 = _ =>
        rewrite (ReaderFrame.R_bind_eq Parser.input_good k s true s)
          by (unfold Parser.input_good; cbn; by rewrite Hg2)
    end.
    cbn [negb].
    match goal with
    | |- ((Parser.get_token ≫= _) ?s).1 = _ =>
        destruct (EofFacts.get_token_eof s ws') as (ins' & Heof); [done..|]
    end.
    by rewrite (ReaderFrame.R_bind_eq Parser.get_token _ _ _ _ Heof).
Qed.

Lemma X13_input_ends_inside_witness :
  (Parser.read (ops := NumSpec.ops) Parser.symbols 2 (Parser.start " ( " Heaps.empty)).1
  = Throw Parser.list_error
  ∧ (Parser.read (ops := NumSpec.ops) Parser.symbols 2 (Parser.start "#(" Heaps.empty)).1
    = Throw Parser.vector_error.
Proof.
  split.
  - exact (proj1 (X13_input_ends_inside NumSpec.ops Parser.symbols 0
                    (Parser.start " ( " Heaps.empty) [" "%char] [" "%char]
                    eq_refl ltac:(repeat constructor) ltac:(repeat constructor)) eq_refl).
  - exact (proj2 (X13_input_ends_inside NumSpec.ops Parser.symbols 0
                    (Parser.start "#(" Heaps.empty) [] []
                    eq_refl ltac:(repeat constructor) ltac:(repeat constructor)) eq_refl).
Defined.

(** ** Characters: written and read *)

Module CharRead.
Import Ctype Lexer Parser Printer.

(** The written form of every ASCII character and of the end-of-file
    character is read back as that character. *)
Lemma read_written_chars (ops : NumberOps) (sy : Symbols) (fuel : nat) (scm : Scheme) :
  forallb
    (fun ch =>
       match write_Cell 1 scm (CChar ch) with
       | Ret text =>
           match (read sy (S fuel) (start text scm)).1 with
           | Ret (CChar c) => c =? ch
           | _ => false
           end
       | _ => false
       end)
    (EOF :: seqZ 0 128) = true.
Proof. vm_compute. reflexivity. Qed.

End CharRead.

(** X14: a character that is written and read again is the same character.
    For every ASCII character, the special ones, white space and NUL
    included, and for the end-of-file character, [read] on the text that
    the printer gives for the cell returns the cell. *)
Theorem X14_character_written_and_read (ops : NumberOps) (sy : Symbols) (n fuel : nat)
    (scm : Scheme) (ch : Char) (text : string) :
  0 ≤ ch < 128 ∨ ch = EOF →
  Printer.write_Cell (S n) scm (CChar ch) = Ret text →
  (Parser.read sy (S fuel) (Parser.start text scm)).1 = Ret (CChar ch).
Proof.
  intros Hch Hw.
  pose proof (CharRead.read_written_chars ops sy fuel scm) as Hall.
  rewrite forallb_forall in Hall.
  specialize (Hall ch).
  change (Printer.write_Cell 1 scm (CChar ch)) with (Printer.write_Cell (S n) scm (CChar ch))
    in Hall.
  rewrite Hw in Hall.
  assert (Hin : In ch (EOF :: seqZ 0 128)).
  { apply list_elem_of_In. destruct Hch as [Hch| ->]; [|by left].
    right. apply elem_of_seqZ. lia. }
  specialize (Hall Hin).
  destruct (Parser.read sy (S fuel) (Parser.start text scm)).1 as [[]| |]; try done.
  f_equal. f_equal. by apply Z.eqb_eq.
Qed.

Lemma X14_character_written_and_read_witness :
  (Parser.read (ops := NumSpec.ops) Parser.symbols 1
     (Parser.start "#\(" Heaps.empty)).1 = Ret (CChar 40).
Proof.
  exact (X14_character_written_and_read NumSpec.ops Parser.symbols 0 0 Heaps.empty 40
           "#\(" ltac:(left; lia) eq_refl).
Defined.

(** ** Ports *)

(** X15: the reasons of the port exceptions.  Neither constructor ever
    gives the reason that names a bad port state: [fail] is true whenever
    [bad] is, and is asked first.  On a port of the right direction the
    end of file is the reason exactly when the eof bit is set and [fail] is
    false, and the unknown error exactly when the port is good.  The port
    is good once the exception is built. *)
Theorem X15_port_exception_reasons (port : Port.Port) :
  (Port.input_port_exception port).1 ≠ "bad input port state"
  ∧ (Port.output_port_exception port).1 ≠ "bad output port state"
  ∧ Port.good (Port.input_port_exception port).2 = true
  ∧ Port.good (Port.output_port_exception port).2 = true
  ∧ (Port.isInput port = true →
     ((Port.input_port_exception port).1 = "end of file reached"
      ↔ Port.eof port = true ∧ Port.fail port = false)
     ∧ ((Port.input_port_exception port).1 = "unknown input port error"
        ↔ Port.good port = true))
  ∧ (Port.isOutput port = true →
     ((Port.output_port_exception port).1 = "end of file reached"
      ↔ Port.eof port = true ∧ Port.fail port = false)
     ∧ ((Port.output_port_exception port).1 = "unknown output port error"
        ↔ Port.good port = true)).
Proof.
  unfold Port.input_port_exception, Port.output_port_exception,
    Port.fail, Port.eof, Port.bad, Port.good.
  destruct port as [[e f b] m]; cbn [Port.m_stream Port.eofbit Port.failbit Port.badbit].
  destruct (Port.isInput _), (Port.isOutput _), e, f, b; cbn;
    repeat split; try done; intros []; done.
Qed.

(** A read that met the end of the file has set the eof bit and the fail
    bit: the reason is the failed read, not the end of the file. *)
Lemma X15_port_exception_reasons_witness :
  (Port.input_port_exception
     (Port.mkPort (Port.mkIostate true true false) Port.ios_in)).1
  ≠ "end of file reached".
Proof.
  intros H.
  apply (proj1 (proj1 (proj1 (proj2 (proj2 (proj2 (proj2
           (X15_port_exception_reasons
              (Port.mkPort (Port.mkIostate true true false) Port.ios_in))))))
           eq_refl))) in H.
  destruct H as [_ H]. discriminate H.
Defined.

(** X16: a closed port is at the end of file.  When [close] returns,
    whatever the state of the stream was and whatever [flush] left of it,
    the eof bit is the only one set and the mode is as before; an input
    port exception built from the closed port gives the end of file as
    its reason and leaves the port good. *)
Theorem X16_closed_port (flush : Port.iostate → option Port.iostate)
    (port port' : Port.Port) :
  Port.close flush port = Some port' →
  Port.m_stream port' = Port.mkIostate true false false
  ∧ Port.mode port' = Port.mode port
  ∧ (Port.isInput port = true →
     Port.input_port_exception port' = ("end of file reached", Port.clear port)).
Proof.
  unfold Port.close. intros H.
  destruct (flush (Port.m_stream port)) as [s|]; [|done].
  cbn in H. injection H as <-.
  split; [done|]. split; [done|].
  intros Hin. unfold Port.input_port_exception, Port.isInput in *. cbn.
  by rewrite Hin.
Qed.

Lemma X16_closed_port_witness :
  Port.input_port_exception
    (Port.mkPort (Port.mkIostate true false false) Port.ios_in)
  = ("end of file reached", Port.mkPort Port.goodbit Port.ios_in).
Proof.
  exact (proj2 (proj2 (X16_closed_port Some
                         (Port.mkPort (Port.mkIostate false true false) Port.ios_in)
                         (Port.mkPort (Port.mkIostate true false false) Port.ios_in)
                         eq_refl)) eq_refl).
Defined.

(** ** Lists of integers: written and read *)

Module ListRead.
Import Num Ctype Lexer Lexeme Parser NumPrint Lists Text.
Import IntFacts IntLex IntRead LexemeFacts EofFacts.

Abbreviation int_cell i := (CNumber (NInt i)).
Abbreviation in_range i := (- 2 ^ 63 ≤ i ≤ 2 ^ 63 - 1).

Lemma list_of_append (a b : string) :
  list_ascii_of_string (a +:+ b) = list_ascii_of_string a ++ list_ascii_of_string b.
Proof.
  induction a as [|x a IH]; [done|].
  rewrite StringFacts.app_cons. cbn [list_ascii_of_string app]. by rewrite IH.
Qed.

(** The text of an integer: a first character that starts a plain lexeme,
    then characters of a lexeme. *)
Lemma decimal_text (i : Z) :
  in_range i →
  ∃ c s, decimal i = String c s
         ∧ delimiter c = false ∧ bool_decide (c ∈ dispatch) = false
         ∧ Forall (fun c => delimiter c = false) (list_ascii_of_string s)
         ∧ is_digit (String c s) 2 = true.
Proof.
  intros Hi. destruct i as [|p|p].
  - exists "0"%char, "". repeat split; done.
  - rewrite decimal_pos.
    destruct (to_uint_text p) as (c & s & -> & Hc & Hall).
    destruct (digit_plain c Hc) as [? ?].
    exists c, s. repeat split; try done.
    + by apply digits_plain.
    + by apply is_digit_plain.
  - rewrite decimal_neg.
    destruct (to_uint_text p) as (c & s & -> & Hc & Hall).
    exists "-"%char, (String c s). repeat split; try done.
    + apply digits_plain. by constructor.
    + by apply is_digit_minus.
Qed.

Section Reading.
Context {ops : NumberOps}.
Variable sy : Symbols.

(** The token of an integer followed by a delimiter. *)
Lemma get_token_integer (st : Reader) (ws : list ascii) (i : Z) (d : ascii)
    (rest : list ascii) :
  in_range i →
  put_back st = Tok_None →
  Stream.good (input st) = true →
  ahead (input st) = ws ++ list_ascii_of_string (decimal i) ++ d :: rest →
  Forall (fun c => blank c = true) ws →
  delimiter d = true →
  ∃ st1, get_token st = (Ret Tok_Number, st1)
         ∧ numtok st1 = NInt i ∧ put_back st1 = Tok_None
         ∧ ahead (input st1) = d :: rest ∧ Stream.good (input st1) = true
         ∧ world st1 = world st.
Proof.
  intros Hi Hpb Hg Ha Hws Hd.
  pose proof (fun num => lex_number_decimal i num Hi) as Hlex.
  destruct (decimal_text i Hi) as (c & s & Htext & Hc & Hdis & Hs & Hdig).
  rewrite Htext in *. cbn [list_ascii_of_string app] in Ha.
  destruct (get_token_lexeme st ws c (list_ascii_of_string s) d rest)
    as (ins' & -> & Ha' & Hg'); [done..|].
  rewrite string_of_list_ascii_of_string.
  apply bool_decide_eq_false_1 in Hdis.
  rewrite (classify_plain _ c s) by done.
  rewrite Hdig, Hlex.
  eexists. split; [reflexivity|]. done.
Qed.

(** An element that is put back and read: [read] returns the number last
    lexed. *)
Lemma read_put_back_number (fuel : nat) (st : Reader) :
  (set_put_back Tok_Number ≫= fun _ => read sy (S fuel)) st
  = (Ret (CNumber (numtok st)),
     with_put_back (with_input st (Stream.clear (input st))) Tok_None).
Proof. reflexivity. Qed.

(** The text of the elements after the first: each after a blank; what
    follows an element is a delimiter. *)
Lemma after_element (ns : list Z) (rest : list ascii) :
  ∃ d tl, list_ascii_of_string (spaced (decimal <$> ns)) ++ ")"%char :: rest = d :: tl
          ∧ delimiter d = true.
Proof.
  destruct ns as [|i ns]; [by exists ")"%char, rest|].
  exists " "%char. eexists. split; [|done].
  cbn [fmap list_fmap spaced foldr]. rewrite StringFacts.app_cons.
  reflexivity.
Qed.

Lemma read_back (fuel : nat) (st : Reader) :
  (0 < fuel)%nat →
  put_back st = Tok_Number →
  (clear_input ≫= fun _ => read_tokens sy fuel) st
  = (Ret (CNumber (numtok st)),
     with_put_back (with_input st (Stream.clear (input st))) Tok_None).
Proof.
  intros Hf Hpb. destruct fuel as [|fuel]; [lia|].
  rewrite (ReaderFrame.R_bind_eq clear_input _ st ()
             (with_input st (Stream.clear (input st)))) by done.
  cbn [read_tokens].
  rewrite (ReaderFrame.R_bind_eq get_token _ _ Tok_Number
             (with_put_back (with_input st (Stream.clear (input st))) Tok_None)).
  - reflexivity.
  - unfold get_token. cbn [put_back with_input]. by rewrite Hpb.
Qed.

Lemma set_cdr_at (scm : Scheme) (pre : list Cons) (k : Cons) (x : list Cons) (v : Cell) :
  conses scm = pre ++ k :: x →
  set_cdr scm (CPair (length pre)) v
  = (Ret (), with_conses scm (pre ++ mkCons (cons_car k) v (cons_mrk k) :: x)).
Proof.
  intros Hc. unfold set_cdr. rewrite Hc.
  rewrite lookup_app_r by lia. rewrite Nat.sub_diag. cbn [lookup list_lookup].
  rewrite insert_app_r_alt by lia. rewrite Nat.sub_diag. done.
Qed.

Lemma cdr_at (scm : Scheme) (pre : list Cons) (k : Cons) (x : list Cons) :
  conses scm = pre ++ k :: x → cdr scm (CPair (length pre)) = Ret (cons_cdr k).
Proof.
  intros Hc. unfold cdr. rewrite Hc.
  rewrite lookup_app_r by lia. by rewrite Nat.sub_diag.
Qed.

Lemma scm_cons_eq (st : Reader) (a d : Cell) :
  scm_cons a d st
  = (Ret (CPair (length (conses (world st)))),
     with_world st (with_conses (world st) (conses (world st) ++ [mkCons a d false]))).
Proof. reflexivity. Qed.

Lemma in_world_set_cdr (st : Reader) (pre : list Cons) (k : Cons) (x : list Cons) (v : Cell) :
  conses (world st) = pre ++ k :: x →
  in_world (m_set_cdr (CPair (length pre)) v) st
  = (Ret (), with_world st
               (with_conses (world st) (pre ++ mkCons (cons_car k) v (cons_mrk k) :: x))).
Proof.
  intros Hc. unfold in_world, m_set_cdr. by rewrite (set_cdr_at _ pre k x v Hc).
Qed.

Lemma in_world_cdr (st : Reader) (pre : list Cons) (k : Cons) (x : list Cons) :
  conses (world st) = pre ++ k :: x →
  in_world (lift (fun scm => cdr scm (CPair (length pre)))) st = (Ret (cons_cdr k), st).
Proof.
  intros Hc. unfold in_world, lift. rewrite (cdr_at _ pre k x Hc). by destruct st.
Qed.

(** The loop of [parse_list] on the elements after the first, entered
    with the pair of the last element read at the end of the arena. *)
Lemma parse_list_loop_integers (ns : list Z) :
  ∀ (fuel : nat) (st : Reader) (pre : list Cons) (e lst : Cell) (rest : list ascii),
    Forall (fun i => in_range i) ns →
    put_back st = Tok_None →
    Stream.good (input st) = true →
    ahead (input st) = list_ascii_of_string (spaced (decimal <$> ns)) ++ ")"%char :: rest →
    conses (world st) = pre ++ [mkCons e CNil false] →
    (length ns < fuel)%nat →
    ∃ st', parse_list_loop sy fuel lst (CPair (length pre)) st = (Ret lst, st')
           ∧ conses (world st')
             = pre ++ list_cells (length pre) (e :: ((fun i => int_cell i) <$> ns))
           ∧ vectors (world st') = vectors (world st)
           ∧ symtab (world st') = symtab (world st)
           ∧ topenv (world st') = topenv (world st)
           ∧ ahead (input st') = rest.
Proof.
  induction ns as [|i ns IH]; intros fuel st pre e lst rest Hr Hpb Hg Ha Hc Hf.
  - destruct fuel as [|fuel]; [cbn in Hf; lia|].
    cbn [parse_list_loop].
    rewrite (ReaderFrame.R_bind_eq input_good _ st true st)
      by (unfold input_good; by rewrite Hg).
    cbn [negb].
    rewrite (ReaderFrame.R_bind_eq get_token _ st Tok_CBrace _
               (get_token_special st [] ")"%char rest Hpb Hg Ha
                  ltac:(constructor) eq_refl eq_refl)).
    eexists. split; [reflexivity|]. done.
  - apply Forall_cons in Hr as [Hi Hr].
    destruct fuel as [|fuel]; [cbn in Hf; lia|].
    assert (Hfuel : (0 < fuel)%nat) by (cbn in Hf; lia).
    destruct (after_element ns rest) as (d & tl & Hafter & Hd).
    assert (Ha1 : ahead (input st)
                  = [" "%char] ++ list_ascii_of_string (decimal i) ++ d :: tl).
    { rewrite Ha. cbn [fmap list_fmap spaced foldr].
      rewrite StringFacts.app_cons, StringFacts.app_nil. cbn [list_ascii_of_string app].
      rewrite list_of_append, <- app_assoc. by rewrite <- Hafter. }
    destruct (get_token_integer st [" "%char] i d tl Hi Hpb Hg Ha1)
      as (st1 & Htok & Hnum & Hpb1 & Hahead1 & Hg1 & Hw1); [by repeat constructor|done|].
    cbn [parse_list_loop].
    rewrite (ReaderFrame.R_bind_eq input_good _ st true st)
      by (unfold input_good; by rewrite Hg).
    cbn [negb].
    rewrite (ReaderFrame.R_bind_eq get_token _ st Tok_Number st1 Htok).
    rewrite (ReaderFrame.R_bind_eq (set_put_back Tok_Number) _ st1 ()
               (with_put_back st1 Tok_Number)) by done.
    rewrite (ReaderFrame.R_bind_eq _ _ _ _ _
               (read_back fuel (with_put_back st1 Tok_Number) Hfuel eq_refl)).
    cbn [is_pair].
    set (st3 := with_put_back
                  (with_input (with_put_back st1 Tok_Number)
                     (Stream.clear (input (with_put_back st1 Tok_Number)))) Tok_None).
    assert (Hc3 : conses (world st3) = pre ++ [mkCons e CNil false]).
    { unfold st3. cbn. by rewrite Hw1. }
    change (numtok (with_put_back st1 Tok_Number)) with (numtok st1). rewrite Hnum.
    rewrite (ReaderFrame.R_bind_eq _ _ _ _ _ (scm_cons_eq st3 (int_cell i) nil)).
    set (st4 := with_world st3 _).
    assert (Hc4 : conses (world st4)
                  = pre ++ mkCons e CNil false :: [mkCons (int_cell i) CNil false]).
    { unfold st4. cbn [world with_world conses with_conses].
      rewrite Hc3. by rewrite <- app_assoc. }
    rewrite (ReaderFrame.R_bind_eq _ _ _ _ _
               (in_world_set_cdr st4 pre _ _ (CPair (length (conses (world st3)))) Hc4)).
    set (st5 := with_world st4 _).
    cbn [cons_car cons_mrk] in st5.
    assert (Hlen : length (conses (world st3)) = S (length pre)).
    { rewrite Hc3, length_app. cbn. lia. }
    assert (Hc5 : conses (world st5)
                  = pre ++ mkCons e (CPair (S (length pre))) false
                           :: [mkCons (int_cell i) CNil false]).
    { unfold st5. cbn [world with_world conses with_conses]. by rewrite Hlen. }
    rewrite (ReaderFrame.R_bind_eq _ _ _ _ _ (in_world_cdr st5 pre _ _ Hc5)).
    cbn [cons_cdr].
    set (pre' := pre ++ [mkCons e (CPair (S (length pre))) false]).
    assert (Hlen' : length pre' = S (length pre)).
    { unfold pre'. rewrite length_app. cbn. lia. }
    rewrite <- Hlen'.
    destruct (IH fuel st5 pre' (int_cell i) lst rest) as (st' & Hloop & H1 & H2 & H3 & H4 & H5);
      [done|done|done| |by (rewrite Hc5; unfold pre'; rewrite <- app_assoc)|cbn in Hf; lia|].
    { unfold st5, st4, st3. cbn. by rewrite Hahead1, Hafter. }
    exists st'. split; [done|].
    split.
    { rewrite H1, Hlen'. unfold pre'. rewrite <- app_assoc. done. }
    unfold st5, st4, st3 in H2, H3, H4. cbn in H2, H3, H4.
    rewrite H2, H3, H4, Hw1. done.
Qed.

(** [read] on the text of a list of integers. *)
Lemma read_integer_list (fuel : nat) (st : Reader) (i0 : Z) (ns : list Z) (rest : list ascii) :
  in_range i0 →
  Forall (fun i => in_range i) ns →
  put_back st = Tok_None →
  ahead (input st)
  = list_ascii_of_string ("(" +:+ decimal i0 +:+ spaced (decimal <$> ns) +:+ ")") ++ rest →
  (length ns + 1 < fuel)%nat →
  ∃ st', read sy (S fuel) st = (Ret (CPair (length (conses (world st)))), st')
         ∧ conses (world st')
           = conses (world st)
             ++ list_cells (length (conses (world st))) ((fun i => int_cell i) <$> i0 :: ns)
         ∧ vectors (world st') = vectors (world st)
         ∧ ahead (input st') = rest.
Proof.
  intros Hi0 Hns Hpb Ha Hf.
  destruct fuel as [|fuel]; [lia|].
  assert (Hfuel : (0 < fuel)%nat) by lia.
  destruct (after_element ns rest) as (d & tl & Hafter & Hd).
  assert (Ha0 : ahead (input st)
                = "("%char :: list_ascii_of_string (decimal i0) ++ d :: tl).
  { rewrite Ha. rewrite StringFacts.app_cons, StringFacts.app_nil.
    cbn [list_ascii_of_string app]. rewrite !list_of_append, <- !app_assoc.
    cbn [list_ascii_of_string app]. by rewrite <- Hafter. }
  unfold read.
  rewrite (ReaderFrame.R_bind_eq clear_input _ st ()
             (with_input st (Stream.clear (input st)))) by done.
  destruct (get_token_open (with_input st (Stream.clear (input st))) []
              (list_ascii_of_string (decimal i0) ++ d :: tl) Hpb eq_refl Ha0)
    as (ins1 & Htok & Ha1 & Hg1); [by constructor|].
  cbn [read_tokens].
  rewrite (ReaderFrame.R_bind_eq get_token _ _ _ _ Htok).
  set (st1 := with_lexeme _ _ _).
  destruct (get_token_integer st1 [] i0 d tl Hi0 Hpb Hg1 Ha1)
    as (st2 & Htok2 & Hnum & Hpb2 & Hahead2 & Hg2 & Hw2); [by constructor|done|].
  cbn [parse_list_loop].
  rewrite (ReaderFrame.R_bind_eq input_good _ st1 true st1)
    by (unfold input_good; f_equal; f_equal; exact Hg1).
  cbn [negb].
  rewrite (ReaderFrame.R_bind_eq get_token _ st1 Tok_Number st2 Htok2).
  rewrite (ReaderFrame.R_bind_eq (set_put_back Tok_Number) _ st2 ()
             (with_put_back st2 Tok_Number)) by done.
  rewrite (ReaderFrame.R_bind_eq _ _ _ _ _
             (read_back fuel (with_put_back st2 Tok_Number) Hfuel eq_refl)).
  cbn [is_pair nil].
  change (numtok (with_put_back st2 Tok_Number)) with (numtok st2). rewrite Hnum.
  set (st3 := with_put_back _ Tok_None).
  assert (Hw3 : world st3 = world st) by (unfold st3; cbn; by rewrite Hw2).
  rewrite (ReaderFrame.R_bind_eq _ _ _ _ _ (scm_cons_eq st3 (int_cell i0) nil)).
  set (st4 := with_world st3 _).
  match goal with
  | |- context [scm_addenv ?s ?v ≫= ?k] =>
      rewrite (ReaderFrame.R_bind_eq (scm_addenv s v) k st4 () _ eq_refl)
  end.
  set (st5 := with_world st4 _).
  rewrite Hw3.
  destruct (parse_list_loop_integers ns fuel st5 (conses (world st)) (int_cell i0)
              (CPair (length (conses (world st)))) rest)
    as (st' & Hloop & H1 & H2 & _ & _ & H5); [done|done|done| | |lia|].
  { unfold st5, st4, st3. cbn. by rewrite Hahead2, Hafter. }
  { unfold st5, st4. cbn [world with_world conses with_conses]. by rewrite Hw3. }
  exists st'. split; [done|]. split; [done|]. split; [|done].
  rewrite H2. unfold st5, st4. cbn [world with_world vectors with_conses].
  by rewrite Hw3.
Qed.

End Reading.

End ListRead.

(** X17: a list of integers that is written and read again has the same
    elements.  When [c] is a proper list of 64-bit integers, the input is
    the text the printer gives for it and no token is put back, [read]
    returns, on two units of fuel more than the list has elements, a
    proper list of the same integers in the same order; it is made of
    fresh pairs, one per element, and the pairs that were there are
    unchanged. *)
Theorem X17_integer_list_written_and_read (ops : NumberOps) (sy : Symbols) (n fuel : nat)
    (st : Reader) (c : Cell) (i0 : Z) (ns : list Z) (text : string) :
  - 2 ^ 63 ≤ i0 ≤ 2 ^ 63 - 1 →
  Forall (fun i => - 2 ^ 63 ≤ i ≤ 2 ^ 63 - 1) ns →
  Lists.list_of (world st) ((fun i => CNumber (Num.NInt i)) <$> i0 :: ns) CNil c →
  (length ns < n)%nat →
  Printer.write_Cell (S n) (world st) c = Ret text →
  put_back st = Tok_None →
  ahead (input st) = list_ascii_of_string text →
  (length ns + 1 < fuel)%nat →
  ∃ c' st',
    Parser.read sy (S fuel) st = (Ret c', st')
    ∧ Lists.list_of (world st') ((fun i => CNumber (Num.NInt i)) <$> i0 :: ns) CNil c'
    ∧ ∃ new, conses (world st') = conses (world st) ++ new
             ∧ length new = S (length ns).
Proof.
  intros Hi0 Hns Hl Hn Hw Hpb Ha Hf.
  assert (Htext : text = "(" +:+ NumPrint.decimal i0
                         +:+ Text.spaced (NumPrint.decimal <$> ns) +:+ ")").
  { assert (Hc : ∃ p, c = CPair p) by (destruct Hl as (p & k & -> & _); by eexists).
    destruct Hc as [p ->]. cbn [Printer.write_Cell] in Hw.
    rewrite (PrintFacts.write_Cons_proper _ (world st) CNil ")" eq_refl
               (fun out => eq_refl) n (CPair p) (CNumber (Num.NInt i0))
               ((fun i => CNumber (Num.NInt i)) <$> ns)
               (NumPrint.decimal i0) (NumPrint.decimal <$> ns)) in Hw.
    - by injection Hw as <-.
    - done.
    - destruct n as [|n]; [lia|]. clear.
      change (Forall2 (fun e s => Printer.write_Cell (S n) (world st) e = Ret s)
                ((fun i => CNumber (Num.NInt i)) <$> i0 :: ns)
                (NumPrint.decimal <$> i0 :: ns)).
      induction (i0 :: ns) as [|i l IH]; constructor; done.
    - by rewrite length_fmap. }
  subst text.
  destruct (ListRead.read_integer_list sy fuel st i0 ns [])
    as (st' & Hread & Hc & _ & _); [done|done|done|by rewrite app_nil_r|done|].
  eexists _, st'. split; [exact Hread|]. split.
  - by apply PrimFacts.list_of_cells.
  - eexists. split; [exact Hc|]. rewrite PrimFacts.length_list_cells.
    by rewrite length_fmap.
Qed.

Lemma X17_integer_list_written_and_read_witness :
  ∃ c' st',
    Parser.read (ops := NumSpec.ops) Parser.symbols 4 (Parser.start "(1 2)" Text.one_two)
    = (Ret c', st')
    ∧ Lists.list_of (world st') [CNumber (Num.NInt 1); CNumber (Num.NInt 2)] CNil c'.
Proof.
  assert (H1 : Lists.list_of (world (Parser.start "(1 2)" Text.one_two))
                 ((fun i => CNumber (Num.NInt i)) <$> [1; 2]) CNil (CPair 0)).
  { eexists 0%nat, _. split; [reflexivity|]. split; [vm_compute; reflexivity|].
    split; [reflexivity|].
    eexists 1%nat, _. split; [reflexivity|]. split; [vm_compute; reflexivity|].
    split; reflexivity. }
  assert (H2 : Printer.write_Cell 3 (world (Parser.start "(1 2)" Text.one_two)) (CPair 0)
               = Ret "(1 2)") by (vm_compute; reflexivity).
  destruct (X17_integer_list_written_and_read NumSpec.ops Parser.symbols 2 3
              (Parser.start "(1 2)" Text.one_two) (CPair 0) 1 [2] "(1 2)"
              ltac:(lia) ltac:(repeat constructor; lia) H1 ltac:(simpl; lia) H2
              eq_refl eq_refl ltac:(simpl; lia))
    as (c' & st' & Hread & Hl & _).
  exists c', st'. split; [exact Hread|exact Hl].
Defined.

(** ** Symbols: written and read *)

Module SymbolFacts.
Import Num Ctype Lexer Lexeme Parser Printer LexemeFacts.

(** A character that [lex_symbol] lets through ends no lexeme. *)
Lemma symbol_char_plain (x : ascii) :
  is_alpha (int_of_char x) || iswdigit (int_of_char x) = true → delimiter x = false.
Proof.
  destruct x as [[] [] [] [] [] [] [] []]; intros H; vm_compute in H;
    first [discriminate H | vm_compute; done].
Qed.

Lemma symbol_chars_plain (name : string) :
  lex_symbol name = Tok_Symbol →
  Forall (fun c => delimiter c = false) (list_ascii_of_string name).
Proof.
  unfold lex_symbol. destruct (_ || _); [done|].
  destruct (forallb _ _) eqn:E; [|done]. intros _.
  rewrite forallb_forall in E. apply Forall_forall. intros x Hx.
  apply symbol_char_plain, E. by apply list_elem_of_In.
Qed.

Lemma blank_delimiter (x : ascii) : blank x = true → delimiter x = true.
Proof. unfold blank, delimiter. by intros ->. Qed.

(** The name of a symbol that the lexer accepts is written as it is. *)
Lemma write_symbol_plain (name : string) :
  lex_symbol name = Tok_Symbol → write_Symbol name = name.
Proof.
  intros H. unfold write_Symbol. rewrite bool_decide_eq_false_2; [done|].
  intros Hin. pose proof (symbol_chars_plain name H) as Hall.
  rewrite Forall_forall in Hall. by specialize (Hall _ Hin).
Qed.

Section Tokens.
Context {ops : NumberOps}.

(** The [switch] of [get_token] on the name of a symbol. *)
Lemma classify_symbol (st : Reader) :
  lex_symbol (strtok st) = Tok_Symbol →
  is_digit (strtok st) 2 = false →
  char_at (strtok st) 0 ≠ "#"%char →
  strtok st ≠ "." →
  classify st = (Ret Tok_Symbol, st).
Proof.
  intros Hsym Hdig Hh Hdot.
  pose proof (symbol_chars_plain _ Hsym) as Hall.
  destruct (strtok st) as [|c s] eqn:Hstr; [done|].
  cbn [list_ascii_of_string] in Hall. apply Forall_cons in Hall as [Hc _].
  unfold classify. rewrite Hstr.
  change (char_at (String c s) 0) with c in *.
  repeat (case_bool_decide as E; [subst c; first [done | by vm_compute in Hc]|clear E]).
  rewrite Hdig, Hsym.
  case_bool_decide as Edot; [|done].
  subst c. destruct s; [done|]. done.
Qed.

End Tokens.

End SymbolFacts.

(** X18: a symbol that is written and read again is the same symbol,
    when its name is one the lexer takes for a symbol: [lex_symbol]
    accepts it, [is_digit] does not take it for a number, it does not
    start with [#] and it is not the dot.  [read] then returns the symbol
    and interns the name; pairs, vectors and the top environment are as
    before. *)
Theorem X18_symbol_written_and_read (ops : NumberOps) (sy : Symbols) (n fuel : nat)
    (st : Reader) (name text : string) :
  Lexer.lex_symbol name = Tok_Symbol →
  Lexer.is_digit name 2 = false →
  Lexer.char_at name 0 ≠ "#"%char →
  name ≠ "." →
  Printer.write_Cell (S n) (world st) (CSymbol name) = Ret text →
  put_back st = Tok_None →
  ahead (input st) = list_ascii_of_string text →
  ∃ st', Parser.read sy (S fuel) st = (Ret (CSymbol name), st')
         ∧ symtab (world st') = {[name]} ∪ symtab (world st)
         ∧ conses (world st') = conses (world st)
         ∧ vectors (world st') = vectors (world st)
         ∧ topenv (world st') = topenv (world st).
Proof.
  intros Hsym Hdig Hh Hdot Hw Hpb Ha.
  cbn in Hw. injection Hw as <-.
  rewrite (SymbolFacts.write_symbol_plain name Hsym) in Ha.
  pose proof (SymbolFacts.symbol_chars_plain name Hsym) as Hall.
  destruct name as [|c s] eqn:Hname; [done|].
  cbn [list_ascii_of_string] in Hall, Ha. apply Forall_cons in Hall as [Hc Hs].
  unfold Parser.read.
  rewrite (ReaderFrame.R_bind_eq Parser.clear_input _ st ()
             (Parser.with_input st (Stream.clear (input st)))) by done.
  destruct (LexemeFacts.get_token_last_lexeme
              (Parser.with_input st (Stream.clear (input st)))
              [] c (list_ascii_of_string s)) as (ins' & Htok & _); [done..|].
  rewrite string_of_list_ascii_of_string in Htok.
  rewrite SymbolFacts.classify_symbol in Htok by done.
  cbn [Parser.read_tokens].
  rewrite (ReaderFrame.R_bind_eq Parser.get_token _ _ _ _ Htok).
  eexists. split; [reflexivity|]. done.
Qed.

Lemma X18_symbol_written_and_read_witness :
  (Parser.read (ops := NumSpec.ops) Parser.symbols 1
     (Parser.start "set-car!" Heaps.empty)).1 = Ret (CSymbol "set-car!").
Proof.
  destruct (X18_symbol_written_and_read NumSpec.ops Parser.symbols 0 0
              (Parser.start "set-car!" Heaps.empty) "set-car!" "set-car!"
              eq_refl eq_refl ltac:(discriminate) ltac:(discriminate)
              eq_refl eq_refl eq_refl) as (st' & H & _).
  by rewrite H.
Defined.

Module BarFacts.
Import Num Ctype Lexer Lexeme Parser Printer LexemeFacts SymbolFacts.

(** The characters of a list up to the first delimiter in it. *)
Lemma first_delimiter (l : list ascii) (x : ascii) :
  x ∈ l → delimiter x = true →
  ∃ w d rest, l = w ++ d :: rest ∧ Forall (fun c => delimiter c = false) w
              ∧ delimiter d = true.
Proof.
  induction l as [|a l IH]; intros Hin Hx; [by apply elem_of_nil in Hin|].
  destruct (delimiter a) eqn:Ea.
  - by exists [], a, l.
  - apply elem_of_cons in Hin as [->|Hin]; [congruence|].
    destruct (IH Hin Hx) as (w & d & rest & -> & Hw & Hd).
    exists (a :: w), d, rest. repeat split; [|done]. by constructor.
Qed.

(** [lex_number] returns the [Number] token or the [Error] token. *)
Lemma lex_number_token (str : string) (num num' : Number) (tok : Token) :
  lex_number str num = Ret (tok, num') → tok = Tok_Number ∨ tok = Tok_Error.
Proof.
  unfold lex_number. intros H.
  repeat (first [ progress simplify_eq
                | match goal with
                  | H : context [match ?x with _ => _ end] |- _ => destruct x eqn:?
                  | H : (?m ≫= _) = Ret _ |- _ => destruct m eqn:?; cbn in H
                  end ]); auto.
Qed.

Lemma lex_symbol_token (str : string) :
  lex_symbol str = Tok_Symbol ∨ lex_symbol str = Tok_Error.
Proof. unfold lex_symbol. repeat case_match; auto. Qed.

End BarFacts.

(** X19: a symbol whose name holds a blank is not read back.  The printer
    writes it between bars, but the reader knows no bars: the lexeme ends
    at the first white space or special character, so whatever [read]
    makes of the text, with any fuel, it is not that symbol. *)
Theorem X19_barred_symbol_not_read_back (ops : NumberOps) (sy : Symbols) (n fuel : nat)
    (st : Reader) (name text : string) :
  " "%char ∈ list_ascii_of_string name →
  Printer.write_Cell (S n) (world st) (CSymbol name) = Ret text →
  put_back st = Tok_None →
  ahead (input st) = list_ascii_of_string text →
  (Parser.read sy fuel st).1 ≠ Ret (CSymbol name).
Proof.
  intros Hsp Hw Hpb Ha.
  cbn in Hw. unfold Printer.write_Symbol in Hw.
  rewrite bool_decide_eq_true_2 in Hw by done. injection Hw as <-.
  rewrite StringFacts.app_cons, StringFacts.app_nil in Ha.
  cbn [list_ascii_of_string] in Ha. rewrite ListRead.list_of_append in Ha.
  destruct (BarFacts.first_delimiter (list_ascii_of_string name ++ list_ascii_of_string "|")
              " "%char) as (w & d & rest & Hsplit & Hw & Hd);
    [apply elem_of_app; by left|done|].
  rewrite Hsplit in Ha.
  assert (Hne : String "|" (string_of_list_ascii w) ≠ name).
  { intros <-. cbn [list_ascii_of_string] in Hsp.
    rewrite list_ascii_of_string_of_list_ascii in Hsp.
    apply elem_of_cons in Hsp as [Hsp|Hsp]; [done|].
    rewrite Forall_forall in Hw. by specialize (Hw _ Hsp). }
  unfold Parser.read.
  rewrite (ReaderFrame.R_bind_eq Parser.clear_input _ st ()
             (Parser.with_input st (Stream.clear (input st)))) by done.
  destruct fuel as [|fuel]; [done|].
  destruct (LexemeFacts.get_token_lexeme
              (Parser.with_input st (Stream.clear (input st)))
              [] "|"%char w d rest Hpb eq_refl Ha) as (ins' & Htok & _); [done..|].
  rewrite (LexemeFacts.classify_plain _ "|"%char (string_of_list_ascii w)) in Htok;
    [|done|apply (bool_decide_unpack _); by vm_compute].
  cbn [Parser.read_tokens].
  unfold mbind at 1, R_bind at 1. rewrite Htok.
  destruct (Lexer.is_digit _ 2).
  - destruct (Lexer.lex_number _ _) as [[tok num]| |] eqn:Hlex; [|done..].
    apply BarFacts.lex_number_token in Hlex as [-> | ->]; done.
  - destruct (BarFacts.lex_symbol_token (String "|" (string_of_list_ascii w)))
      as [-> | ->]; [|done].
    unfold mbind, R_bind, Parser.the_lexeme, Parser.scm_symbol. cbn.
    intros H. by simplify_eq.
Qed.

Lemma X19_barred_symbol_not_read_back_witness :
  (Parser.read (ops := NumSpec.ops) Parser.symbols 5
     (Parser.start "|a b|" Heaps.empty)).1 ≠ Ret (CSymbol "a b").
Proof.
  apply (X19_barred_symbol_not_read_back NumSpec.ops Parser.symbols 0 5
           (Parser.start "|a b|" Heaps.empty) "a b" "|a b|").
  - apply (bool_decide_unpack _). by vm_compute.
  - reflexivity.
  - reflexivity.
  - reflexivity.
Defined.

(** ** Text to number *)

(** X20: [strnum] gives back the integer whose text it is given, with or
    without the prefix [#i]; no truncation is involved. *)
Theorem X20_strnum_of_integer_text (ops : NumberOps) (i : Z) :
  - 2 ^ 63 ≤ i ≤ 2 ^ 63 - 1 →
  ParserNum.strnum (NumPrint.decimal i) = Ret (CNumber (Num.NInt i))
  ∧ ParserNum.strnum ("#i" +:+ NumPrint.decimal i) = Ret (CNumber (Num.NInt i)).
Proof.
  intros Hi. unfold ParserNum.strnum. split.
  - destruct (ListRead.decimal_text i Hi) as (c & s & Htext & _ & Hdis & _).
    apply bool_decide_eq_false_1 in Hdis.
    assert (Hc : c ≠ "#"%char).
    { intros ->. apply Hdis. apply (bool_decide_unpack _). by vm_compute. }
    rewrite (bool_decide_eq_false_2 (Lexer.substr_n (NumPrint.decimal i) 0 2 = "#i")).
    2:{ rewrite Htext. unfold Lexer.substr_n. cbn. destruct s; cbn; congruence. }
    rewrite (bool_decide_eq_false_2 (Lexer.substr_n (NumPrint.decimal i) 0 2 = "#e")).
    2:{ rewrite Htext. unfold Lexer.substr_n. cbn. destruct s; cbn; congruence. }
    by rewrite IntLex.lex_number_decimal.
  - rewrite bool_decide_eq_true_2 by done.
    replace (Lexer.substr ("#i" +:+ NumPrint.decimal i) 2) with (NumPrint.decimal i).
    + by rewrite IntLex.lex_number_decimal.
    + unfold Lexer.substr. rewrite !StringFacts.app_cons, StringFacts.app_nil.
      exact (eq_sym (string_of_list_ascii_of_string (NumPrint.decimal i))).
Qed.

Lemma X20_strnum_of_integer_text_witness :
  ParserNum.strnum (ops := NumSpec.ops) "#i-17" = Ret (CNumber (Num.NInt (-17))).
Proof.
  exact (proj2 (X20_strnum_of_integer_text NumSpec.ops (-17) ltac:(lia))).
Defined.

(** ** Comments *)

Module CommentFacts.
Import Ctype Lexer Lexeme Parser LexemeFacts EofFacts.

Lemma drop_line_newline (line rest b : list ascii) :
  "010"%char ∉ line →
  Stream.drop_line (line ++ "010"%char :: rest) b = Some (rest, "010"%char :: rev line ++ b).
Proof.
  revert b. induction line as [|x line IH]; intros b Hn; [done|].
  apply not_elem_of_cons in Hn as [Hx Hn].
  cbn [app Stream.drop_line]. rewrite bool_decide_eq_false_2 by done.
  rewrite IH by done. cbn [rev]. by rewrite <- app_assoc.
Qed.

Lemma drop_line_end (line b : list ascii) :
  "010"%char ∉ line → Stream.drop_line line b = None.
Proof.
  revert b. induction line as [|x line IH]; intros b Hn; [done|].
  apply not_elem_of_cons in Hn as [Hx Hn].
  cbn [Stream.drop_line]. rewrite bool_decide_eq_false_2 by done. by apply IH.
Qed.

Section Tokens.
Context {ops : NumberOps}.

(** The token of a comment that ends with its line. *)
Lemma get_token_comment (st : Reader) (ws line rest : list ascii) :
  put_back st = Tok_None →
  Stream.good (input st) = true →
  ahead (input st) = ws ++ ";"%char :: line ++ "010"%char :: rest →
  Forall (fun c => blank c = true) ws →
  "010"%char ∉ line →
  ∃ st1, get_token st = (Ret Tok_Comment, st1)
         ∧ put_back st1 = Tok_None ∧ Stream.good (input st1) = true
         ∧ ahead (input st1) = rest ∧ world st1 = world st.
Proof.
  intros Hpb Hg Ha Hws Hn.
  rewrite (get_token_special st ws ";"%char (line ++ "010"%char :: rest)) by done.
  unfold classify. cbn [strtok with_lexeme].
  change (char_at ";" 0) with ";"%char.
  do 5 (rewrite bool_decide_eq_false_2 by done).
  rewrite bool_decide_eq_true_2 by done.
  unfold skip_comment, Stream.ignore_line.
  replace (Stream.good _) with true by done.
  cbn [input with_lexeme Stream.move ahead behind].
  rewrite drop_line_newline by done.
  eexists. split; [reflexivity|]. done.
Qed.

(** The token of a comment that ends with the input: the stream is at the
    end of the file. *)
Lemma get_token_last_comment (st : Reader) (ws line : list ascii) :
  put_back st = Tok_None →
  Stream.good (input st) = true →
  ahead (input st) = ws ++ ";"%char :: line →
  Forall (fun c => blank c = true) ws →
  "010"%char ∉ line →
  ∃ st1, get_token st = (Ret Tok_Comment, st1)
         ∧ put_back st1 = Tok_None
         ∧ Stream.good (input st1) = false ∧ Stream.eof (input st1) = true
         ∧ world st1 = world st.
Proof.
  intros Hpb Hg Ha Hws Hn.
  rewrite (get_token_special st ws ";"%char line) by done.
  unfold classify. cbn [strtok with_lexeme].
  change (char_at ";" 0) with ";"%char.
  do 5 (rewrite bool_decide_eq_false_2 by done).
  rewrite bool_decide_eq_true_2 by done.
  unfold skip_comment, Stream.ignore_line.
  replace (Stream.good _) with true by done.
  cbn [input with_lexeme Stream.move ahead behind].
  rewrite drop_line_end by done.
  eexists. split; [reflexivity|]. done.
Qed.

(** Once the stream is at the end of the file the token is [Eof]. *)
Lemma get_token_at_eof (st : Reader) :
  put_back st = Tok_None →
  Stream.good (input st) = false →
  Stream.eof (input st) = true →
  ∃ ins', get_token st = (Ret Tok_Eof, with_input st ins').
Proof.
  intros Hpb Hg He. unfold get_token. rewrite Hpb.
  rewrite bool_decide_eq_true_2 by done. cbn [negb skip_blanks].
  unfold Stream.extract. rewrite Hg.
  replace (Stream.good (Stream.set_fail (input st))) with false
    by (unfold Stream.good in *; cbn; symmetry; apply negb_false_iff;
        apply negb_false_iff in Hg; by rewrite orb_true_r).
  cbn [negb]. replace (Stream.eof (Stream.set_fail (input st))) with true by done.
  by eexists.
Qed.

End Tokens.

End CommentFacts.

(** X21: a comment is skipped up to the end of its line.  When the input
    is white space, a semicolon and a line that ends with a newline, [read]
    goes on, with one unit of fuel less, in a state whose input is what
    follows the newline and whose interpreter is as before; when the line
    ends with the input instead, [read] returns the end-of-file
    character. *)
Theorem X21_comment_skipped (ops : NumberOps) (sy : Symbols) (fuel : nat) (st : Reader)
    (ws line rest : list ascii) :
  put_back st = Tok_None →
  Forall (fun c => Lexeme.blank c = true) ws →
  "010"%char ∉ line →
  (ahead (input st) = ws ++ ";"%char :: line ++ "010"%char :: rest →
   ∃ st1, Parser.read sy (S fuel) st = Parser.read_tokens sy fuel st1
          ∧ put_back st1 = Tok_None ∧ Stream.good (input st1) = true
          ∧ ahead (input st1) = rest ∧ world st1 = world st)
  ∧ (ahead (input st) = ws ++ ";"%char :: line →
     ∃ st', Parser.read sy (S (S fuel)) st = (Ret (CChar EOF), st')
            ∧ world st' = world st).
Proof.
  intros Hpb Hws Hn. split; intros Ha; unfold Parser.read;
    rewrite (ReaderFrame.R_bind_eq Parser.clear_input _ st ()
               (Parser.with_input st (Stream.clear (input st)))) by done.
  - destruct (CommentFacts.get_token_comment
                (Parser.with_input st (Stream.clear (input st))) ws line rest
                Hpb eq_refl Ha Hws Hn) as (st1 & Htok & H1 & H2 & H3 & H4).
    cbn [Parser.read_tokens].
    rewrite (ReaderFrame.R_bind_eq Parser.get_token _ _ _ _ Htok).
    by exists st1.
  - destruct (CommentFacts.get_token_last_comment
                (Parser.with_input st (Stream.clear (input st))) ws line
                Hpb eq_refl Ha Hws Hn) as (st1 & Htok & H1 & H2 & H3 & H4).
    cbn [Parser.read_tokens].
    rewrite (ReaderFrame.R_bind_eq Parser.get_token _ _ _ _ Htok).
    destruct (CommentFacts.get_token_at_eof st1 H1 H2 H3) as (ins' & Heof).
    rewrite (ReaderFrame.R_bind_eq Parser.get_token _ _ _ _ Heof).
    eexists. split; [reflexivity|]. done.
Qed.

Lemma X21_comment_skipped_witness :
  (Parser.read (ops := NumSpec.ops) Parser.symbols 2
     (Parser.start " ; no datum" Heaps.empty)).1 = Ret (CChar EOF).
Proof.
  destruct (proj2 (X21_comment_skipped NumSpec.ops Parser.symbols 0
                     (Parser.start " ; no datum" Heaps.empty)
                     [" "%char] (list_ascii_of_string " no datum") []
                     eq_refl ltac:(repeat constructor)
                     ltac:(apply (bool_decide_unpack _); by vm_compute)) eq_refl)
    as (st' & H & _).
  by rewrite H.
Defined.

(** ** The quote marks *)

Module QuoteFacts.
Import Ctype Lexer Lexeme Parser Lists LexemeFacts EofFacts.

(** [Scheme::list] of two cells: two fresh pairs. *)
Lemma scm_list2_cells (a b : Cell) (st : Reader) :
  ∃ st', scm_list2 a b st = (Ret (CPair (S (length (conses (world st))))), st')
         ∧ conses (world st')
           = conses (world st)
             ++ [mkCons b CNil false; mkCons a (CPair (length (conses (world st)))) false]
         ∧ vectors (world st') = vectors (world st)
         ∧ symtab (world st') = symtab (world st)
         ∧ topenv (world st') = topenv (world st).
Proof.
  eexists. split.
  - unfold scm_list2, in_world, m_cons, cons, mbind, M_bind. cbn.
    rewrite length_app. cbn. rewrite Nat.add_1_r. reflexivity.
  - cbn. rewrite <- app_assoc. done.
Qed.

Section Tokens.
Context {ops : NumberOps}.
Variable sy : Symbols.

(** The token of each mark and what is left of the input after it. *)
Lemma get_token_mark (st : Reader) (ws m rest : list ascii) (sym : Symbol) :
  (m, sym) ∈ Quotes.marks sy →
  put_back st = Tok_None →
  Stream.good (input st) = true →
  ahead (input st) = ws ++ m ++ rest →
  Forall (fun c => blank c = true) ws →
  (m = [","%char] → head rest ≠ Some "@"%char) →
  ∃ tok st1, get_token st = (Ret tok, st1)
    ∧ put_back st1 = Tok_None ∧ ahead (input st1) = rest ∧ world st1 = world st
    ∧ ∀ fuel, read_tokens sy (S fuel) st
              = (read sy fuel ≫= fun c => scm_list2 (CSymbol sym) c) st1.
Proof.
  intros Hm Hpb Hg Ha Hws Hat.
  unfold Quotes.marks in Hm.
  repeat (apply elem_of_cons in Hm as [Hm|Hm]); [..|by apply elem_of_nil in Hm];
    injection Hm as -> ->; cbn [app] in Ha.
  - pose proof (get_token_special st ws "'"%char rest Hpb Hg Ha Hws eq_refl eq_refl) as Htok.
    eexists _, _. split; [exact Htok|]. repeat split; try done.
    intros fuel. cbn [read_tokens].
    by rewrite (ReaderFrame.R_bind_eq get_token _ _ _ _ Htok).
  - pose proof (get_token_special st ws "`"%char rest Hpb Hg Ha Hws eq_refl eq_refl) as Htok.
    eexists _, _. split; [exact Htok|]. repeat split; try done.
    intros fuel. cbn [read_tokens].
    by rewrite (ReaderFrame.R_bind_eq get_token _ _ _ _ Htok).
  - pose proof (get_token_special st ws ","%char rest Hpb Hg Ha Hws eq_refl eq_refl) as Htok.
    assert (Hcl : ∃ ins', classify (with_lexeme st ","
                            (Stream.move (input st) rest
                               (","%char :: rev ws ++ behind (input st))))
                          = (Ret Tok_Unquote, with_lexeme st "," ins')
                          ∧ ahead ins' = rest).
    { unfold classify. cbn [strtok with_lexeme input].
      change (char_at "," 0) with ","%char.
      do 4 (rewrite bool_decide_eq_false_2 by done).
      rewrite bool_decide_eq_true_2 by done.
      unfold lex_unquote. cbn [size String.length Nat.eqb negb].
      unfold Stream.peek.
      replace (Stream.good _) with true by done.
      cbn [Stream.move ahead].
      destruct rest as [|x rest]; [by eexists|].
      destruct (int_of_char x =? int_of_char "@") eqn:E; [|by eexists].
      exfalso. apply (Hat eq_refl). cbn. f_equal.
      apply Z.eqb_eq in E. unfold int_of_char in E.
      apply (inj Z.of_N) in E. apply (f_equal ascii_of_N) in E.
      by rewrite !ascii_N_embedding in E. }
    destruct Hcl as (ins' & Hcl & Ha').
    rewrite Hcl in Htok.
    eexists _, _. split; [exact Htok|]. repeat split; try done.
    intros fuel. cbn [read_tokens].
    by rewrite (ReaderFrame.R_bind_eq get_token _ _ _ _ Htok).
  - pose proof (get_token_special st ws ","%char ("@"%char :: rest) Hpb Hg Ha Hws
                  eq_refl eq_refl) as Htok.
    assert (Hcl : ∃ ins', classify (with_lexeme st ","
                            (Stream.move (input st) ("@"%char :: rest)
                               (","%char :: rev ws ++ behind (input st))))
                          = (Ret Tok_UnquoteSplice, with_lexeme st "," ins')
                          ∧ ahead ins' = rest).
    { unfold classify. cbn [strtok with_lexeme input].
      change (char_at "," 0) with ","%char.
      do 4 (rewrite bool_decide_eq_false_2 by done).
      rewrite bool_decide_eq_true_2 by done.
      unfold lex_unquote. cbn [size String.length Nat.eqb negb].
      unfold Stream.peek, Stream.get.
      replace (Stream.good _) with true by done.
      cbn [Stream.move ahead]. rewrite Z.eqb_refl.
      replace (Stream.good _) with true by done.
      by eexists. }
    destruct Hcl as (ins' & Hcl & Ha').
    rewrite Hcl in Htok.
    eexists _, _. split; [exact Htok|]. repeat split; try done.
    intros fuel. cbn [read_tokens].
    by rewrite (ReaderFrame.R_bind_eq get_token _ _ _ _ Htok).
Qed.

End Tokens.

End QuoteFacts.

(** X22: a quote mark and the datum after it are read as the list of the
    mark's symbol and the datum.  For each of the four marks (the comma
    alone only when no [@] follows it) [read] reads the datum from what
    follows the mark, with one unit of fuel less, and returns a fresh
    proper list of two elements, the symbol of the mark and the datum; the
    symbol is not interned anew. *)
Theorem X22_quote_mark_read (ops : NumberOps) (sy : Symbols) (fuel : nat) (st : Reader)
    (ws m rest : list ascii) (sym : Symbol) :
  (m, sym) ∈ Quotes.marks sy →
  put_back st = Tok_None →
  ahead (input st) = ws ++ m ++ rest →
  Forall (fun c => Lexeme.blank c = true) ws →
  (m = [","%char] → head rest ≠ Some "@"%char) →
  ∃ st1,
    put_back st1 = Tok_None ∧ ahead (input st1) = rest ∧ world st1 = world st
    ∧ ∀ c st2, Parser.read sy fuel st1 = (Ret c, st2) →
        ∃ q st3,
          Parser.read sy (S fuel) st = (Ret (CPair q), st3)
          ∧ Lists.list_of (world st3) [CSymbol sym; c] CNil (CPair q)
          ∧ (∃ new, conses (world st3) = conses (world st2) ++ new ∧ length new = 2%nat)
          ∧ symtab (world st3) = symtab (world st2).
Proof.
  intros Hm Hpb Ha Hws Hat.
  destruct (QuoteFacts.get_token_mark sy
              (Parser.with_input st (Stream.clear (input st))) ws m rest sym
              Hm Hpb eq_refl Ha Hws Hat) as (tok & st1 & _ & H1 & H2 & H3 & Hread).
  exists st1. repeat split; try done.
  intros c st2 Hc.
  destruct (QuoteFacts.scm_list2_cells (CSymbol sym) c st2) as (st3 & Hl & Hc3 & _ & Hs3 & _).
  exists (S (length (conses (world st2)))), st3.
  split.
  - unfold Parser.read at 1.
    rewrite (ReaderFrame.R_bind_eq Parser.clear_input _ st ()
               (Parser.with_input st (Stream.clear (input st)))) by done.
    rewrite Hread. by rewrite (ReaderFrame.R_bind_eq _ _ _ _ _ Hc).
  - split; [|split; [by eexists|done]].
    eexists _, _. split; [done|]. split.
    { rewrite Hc3. rewrite lookup_app_r by lia.
      replace (S (length (conses (world st2))) - length (conses (world st2)))%nat
        with 1%nat by lia. reflexivity. }
    split; [done|]. cbn [cons_cdr].
    eexists _, _. split; [done|]. split.
    { rewrite Hc3. rewrite lookup_app_r by lia. rewrite Nat.sub_diag. reflexivity. }
    done.
Qed.

Lemma X22_quote_mark_read_witness :
  ∃ q st3,
    Parser.read (ops := NumSpec.ops) Parser.symbols 2 (Parser.start ",@7" Heaps.empty)
    = (Ret (CPair q), st3)
    ∧ Lists.list_of (world st3) [CSymbol "unquote-splicing"; CNumber (Num.NInt 7)] CNil
        (CPair q).
Proof.
  destruct (X22_quote_mark_read NumSpec.ops Parser.symbols 1
              (Parser.start ",@7" Heaps.empty) [] [","; "@"]%char ["7"%char]
              "unquote-splicing")
    as (st1 & H1 & H2 & H3 & Hread).
  - apply (bool_decide_unpack _). by vm_compute.
  - reflexivity.
  - reflexivity.
  - constructor.
  - discriminate.
  - destruct (IntRead.read_number_text (ops := NumSpec.ops) Parser.symbols 0 st1
                "7"%char "" 7
                H1 H2 eq_refl eq_refl (Forall_nil_2 _) eq_refl (fun _ => eq_refl))
      as (st2 & Hc & _).
    destruct (Hread _ _ Hc) as (q & st3 & Hr & Hl & _).
    exists q, st3. split; [exact Hr|exact Hl].
Defined.

(** ** Vectors of integers: written and read *)

Module VectorRead.
Import Num Ctype Lexer Lexeme Parser NumPrint Lists Text.
Import LexemeFacts EofFacts ListRead.

Section Reading.
Context {ops : NumberOps}.
Variable sy : Symbols.

Lemma vector_push_at (st : Reader) (v : nat) (l : list Cell) (c : Cell) :
  vectors (world st) !! v = Some l →
  vector_push v c st
  = (Ret (), with_world st (mkScheme (conses (world st))
                              (<[v := l ++ [c]]> (vectors (world st)))
                              (symtab (world st)) (topenv (world st)))).
Proof. intros H. unfold vector_push. by rewrite H. Qed.

Lemma parse_vector_loop_unfold (fuel : nat) (v : nat) :
  parse_vector_loop sy (S fuel) v
  = (good ← input_good;
     if negb good then raise vector_error
     else
       tok ← get_token;
       match tok with
       | Tok_Comment => parse_vector_loop sy fuel v
       | Tok_CBrace => mret (CVector v)
       | Tok_Eof | Tok_Error => raise vector_error
       | _ =>
           _ ← set_put_back tok;
           cell ← (_ ← clear_input; read_tokens sy fuel);
           _ ← vector_push v cell;
           parse_vector_loop sy fuel v
       end).
Proof. reflexivity. Qed.

(** One turn of the loop of [parse_vector] on an integer. *)
Lemma parse_vector_step (fuel : nat) (st : Reader) (v : nat) (l : list Cell)
    (ws : list ascii) (i : Z) (d : ascii) (tl : list ascii) :
  in_range i →
  put_back st = Tok_None →
  Stream.good (input st) = true →
  ahead (input st) = ws ++ list_ascii_of_string (decimal i) ++ d :: tl →
  Forall (fun c => blank c = true) ws →
  delimiter d = true →
  vectors (world st) !! v = Some l →
  (0 < fuel)%nat →
  ∃ st1, parse_vector_loop sy (S fuel) v st = parse_vector_loop sy fuel v st1
         ∧ put_back st1 = Tok_None ∧ Stream.good (input st1) = true
         ∧ ahead (input st1) = d :: tl
         ∧ vectors (world st1) = <[v := l ++ [int_cell i]]> (vectors (world st))
         ∧ conses (world st1) = conses (world st).
Proof.
  intros Hi Hpb Hg Ha Hws Hd Hv Hfuel.
  destruct (get_token_integer st ws i d tl Hi Hpb Hg Ha Hws Hd)
    as (st1 & Htok & Hnum & Hpb1 & Hahead1 & Hg1 & Hw1).
  rewrite parse_vector_loop_unfold.
  rewrite (ReaderFrame.R_bind_eq input_good _ st true st)
    by (unfold input_good; by rewrite Hg).
  cbn [negb].
  rewrite (ReaderFrame.R_bind_eq get_token _ st Tok_Number st1 Htok).
  rewrite (ReaderFrame.R_bind_eq (set_put_back Tok_Number) _ st1 ()
             (with_put_back st1 Tok_Number)) by done.
  rewrite (ReaderFrame.R_bind_eq _ _ _ _ _
             (read_back sy fuel (with_put_back st1 Tok_Number) Hfuel eq_refl)).
  change (numtok (with_put_back st1 Tok_Number)) with (numtok st1). rewrite Hnum.
  set (st3 := with_put_back _ Tok_None).
  assert (Hw3 : world st3 = world st) by (unfold st3; cbn; by rewrite Hw1).
  assert (Hv3 : vectors (world st3) !! v = Some l) by (by rewrite Hw3).
  rewrite (ReaderFrame.R_bind_eq _ _ _ _ _ (vector_push_at st3 v l (int_cell i) Hv3)).
  eexists. split; [reflexivity|].
  cbn [put_back input world with_world vectors conses].
  rewrite Hw3. split; [done|]. split; [done|]. split; [|done].
  unfold st3. cbn. exact Hahead1.
Qed.

(** The loop of [parse_vector] on the elements after the first. *)
Lemma parse_vector_loop_integers (ns : list Z) :
  ∀ (fuel : nat) (st : Reader) (v : nat) (l : list Cell) (rest : list ascii),
    Forall (fun i => in_range i) ns →
    put_back st = Tok_None →
    Stream.good (input st) = true →
    ahead (input st) = list_ascii_of_string (spaced (decimal <$> ns)) ++ ")"%char :: rest →
    vectors (world st) !! v = Some l →
    (length ns < fuel)%nat →
    ∃ st', parse_vector_loop sy fuel v st = (Ret (CVector v), st')
           ∧ vectors (world st')
             = <[v := l ++ ((fun i => int_cell i) <$> ns)]> (vectors (world st))
           ∧ conses (world st') = conses (world st)
           ∧ ahead (input st') = rest.
Proof.
  induction ns as [|i ns IH]; intros fuel st v l rest Hr Hpb Hg Ha Hv Hf.
  - destruct fuel as [|fuel]; [cbn in Hf; lia|].
    rewrite parse_vector_loop_unfold.
    rewrite (ReaderFrame.R_bind_eq input_good _ st true st)
      by (unfold input_good; by rewrite Hg).
    cbn [negb].
    rewrite (ReaderFrame.R_bind_eq get_token _ st Tok_CBrace _
               (get_token_special st [] ")"%char rest Hpb Hg Ha
                  ltac:(constructor) eq_refl eq_refl)).
    eexists. split; [reflexivity|]. cbn. rewrite app_nil_r.
    by rewrite list_insert_id.
  - apply Forall_cons in Hr as [Hi Hr].
    destruct fuel as [|fuel]; [cbn in Hf; lia|].
    assert (Hfuel : (0 < fuel)%nat) by (cbn in Hf; lia).
    destruct (after_element ns rest) as (d & tl & Hafter & Hd).
    assert (Ha1 : ahead (input st)
                  = [" "%char] ++ list_ascii_of_string (decimal i) ++ d :: tl).
    { rewrite Ha. cbn [fmap list_fmap spaced foldr].
      rewrite StringFacts.app_cons, StringFacts.app_nil. cbn [list_ascii_of_string app].
      rewrite list_of_append, <- app_assoc. by rewrite <- Hafter. }
    destruct (parse_vector_step fuel st v l [" "%char] i d tl)
      as (st1 & -> & Hpb1 & Hg1 & Hahead1 & Hv1 & Hc1); [done|done|done|done|by repeat constructor|done|done|done|].
    destruct (IH fuel st1 v (l ++ [int_cell i]) rest) as (st' & Hloop & H1 & H2 & H3);
      [done|done|done|by rewrite Hahead1, Hafter| |cbn in Hf; lia|].
    { rewrite Hv1. apply list_lookup_insert_eq. by eapply lookup_lt_Some. }
    exists st'. split; [done|].
    rewrite H1, H2, Hv1, Hc1, list_insert_insert_eq, <- app_assoc. done.
Qed.

Lemma read_tokens_vector (fuel : nat) (st st1 : Reader) :
  get_token st = (Ret Tok_Vector, st1) →
  read_tokens sy (S fuel) st
  = (v ← new_vector;
     tok ← get_token;
     if bool_decide (tok = Tok_OBrace) then parse_vector_loop sy fuel v
     else raise vector_error) st1.
Proof.
  intros Htok. cbn [read_tokens].
  by rewrite (ReaderFrame.R_bind_eq get_token _ _ _ _ Htok).
Qed.

(** [read] on the text of a vector of integers. *)
Lemma read_integer_vector (fuel : nat) (st : Reader) (ns : list Z) (rest : list ascii) :
  Forall (fun i => in_range i) ns →
  put_back st = Tok_None →
  ahead (input st)
  = list_ascii_of_string
      (match ns with
       | [] => "#()"
       | i0 :: ns' => "#(" +:+ decimal i0 +:+ spaced (decimal <$> ns') +:+ ")"
       end) ++ rest →
  (length ns < fuel)%nat →
  ∃ st', read sy (S fuel) st = (Ret (CVector (length (vectors (world st)))), st')
         ∧ vectors (world st') = vectors (world st) ++ [(fun i => int_cell i) <$> ns]
         ∧ conses (world st') = conses (world st)
         ∧ ahead (input st') = rest.
Proof.
  intros Hns Hpb Ha Hf.
  assert (Ha0 : ∃ body, ahead (input st) = "#"%char :: "("%char :: body
                 ∧ body = match ns with
                          | [] => ")"%char :: rest
                          | i0 :: ns' =>
                              list_ascii_of_string (decimal i0)
                              ++ list_ascii_of_string (spaced (decimal <$> ns'))
                              ++ ")"%char :: rest
                          end).
  { eexists. split; [|reflexivity]. rewrite Ha. destruct ns as [|i0 ns']; [done|].
    rewrite !StringFacts.app_cons, StringFacts.app_nil.
    cbn [list_ascii_of_string app]. rewrite !list_of_append, <- !app_assoc. done. }
  destruct Ha0 as (body & Ha0 & Hbody).
  unfold read.
  rewrite (ReaderFrame.R_bind_eq clear_input _ st ()
             (with_input st (Stream.clear (input st)))) by done.
  destruct (get_token_vector (with_input st (Stream.clear (input st))) [] body
              Hpb eq_refl Ha0) as (ins1 & Htok & Ha1 & Hg1); [by constructor|].
  rewrite (read_tokens_vector fuel _ _ Htok).
  rewrite (ReaderFrame.R_bind_eq new_vector _ _ _ _ eq_refl).
  cbn [world with_lexeme with_input].
  set (st2 := with_world _ _).
  destruct (get_token_open st2 [] body) as (ins3 & Hopen & Ha3 & Hg3);
    [done|done|done|by constructor|].
  rewrite (ReaderFrame.R_bind_eq get_token _ _ _ _ Hopen).
  rewrite bool_decide_eq_true_2 by done.
  set (st3 := with_lexeme st2 "(" ins3).
  assert (Hv3 : vectors (world st3) !! length (vectors (world st)) = Some []).
  { unfold st3, st2. cbn. rewrite lookup_app_r by lia. by rewrite Nat.sub_diag. }
  assert (Hfinal : ∀ l, <[length (vectors (world st)) := l]> (vectors (world st3))
                        = vectors (world st) ++ [l]).
  { intros l. unfold st3, st2. cbn. rewrite insert_app_r_alt by lia.
    by rewrite Nat.sub_diag. }
  destruct ns as [|i0 ns'].
  - destruct (parse_vector_loop_integers [] fuel st3 (length (vectors (world st))) [] rest)
      as (st' & Hloop & H1 & H2 & H3); [done|done|done|by rewrite <- Hbody|done|done|].
    exists st'. split; [done|]. by rewrite H1, H2, Hfinal.
  - apply Forall_cons in Hns as [Hi0 Hns].
    destruct fuel as [|fuel]; [cbn in Hf; lia|].
    destruct (after_element ns' rest) as (d & tl & Hafter & Hd).
    destruct (parse_vector_step fuel st3 (length (vectors (world st))) [] [] i0 d tl)
      as (st4 & -> & Hpb4 & Hg4 & Ha4 & Hv4 & Hc4);
      [done|done|done|by rewrite <- Hafter, <- Hbody|by constructor|done|done|cbn in Hf; lia|].
    destruct (parse_vector_loop_integers ns' fuel st4 (length (vectors (world st)))
                [int_cell i0] rest) as (st' & Hloop & H1 & H2 & H3);
      [done|done|done|by rewrite Ha4, Hafter| |cbn in Hf; lia|].
    { rewrite Hv4. apply list_lookup_insert_eq. by eapply lookup_lt_Some. }
    exists st'. split; [done|].
    rewrite H1, H2, Hv4, Hc4, list_insert_insert_eq, Hfinal. done.
Qed.

End Reading.

End VectorRead.

(** X23: a vector of integers that is written and read again has the same
    elements.  When the cell is a vector of 64-bit integers, the input is
    the text the printer gives for it and no token is put back, [read]
    returns, on a unit of fuel more than the vector has elements, a new
    vector with the same integers in the same order; the vectors that
    were there and the pairs are unchanged. *)
Theorem X23_integer_vector_written_and_read (ops : NumberOps) (sy : Symbols) (n fuel v : nat)
    (st : Reader) (ns : list Z) (text : string) :
  Forall (fun i => - 2 ^ 63 ≤ i ≤ 2 ^ 63 - 1) ns →
  vectors (world st) !! v = Some ((fun i => CNumber (Num.NInt i)) <$> ns) →
  Printer.write_Cell (S (S n)) (world st) (CVector v) = Ret text →
  put_back st = Tok_None →
  ahead (input st) = list_ascii_of_string text →
  (length ns < fuel)%nat →
  ∃ st',
    Parser.read sy (S fuel) st = (Ret (CVector (length (vectors (world st)))), st')
    ∧ vectors (world st')
      = vectors (world st) ++ [(fun i => CNumber (Num.NInt i)) <$> ns]
    ∧ conses (world st') = conses (world st).
Proof.
  intros Hns Hv Hw Hpb Ha Hf.
  assert (Htext : text = match ns with
                         | [] => "#()"
                         | i0 :: ns' => "#(" +:+ NumPrint.decimal i0
                                        +:+ Text.spaced (NumPrint.decimal <$> ns') +:+ ")"
                         end).
  { cbn [Printer.write_Cell] in Hw. unfold Printer.write_Vector in Hw. rewrite Hv in Hw.
    destruct ns as [|i0 ns']; [by injection Hw as <-|].
    cbn [fmap list_fmap] in Hw.
    change (Printer.write_Cell (S n) (world st) (CNumber (Num.NInt i0)))
      with (Ret (NumPrint.decimal i0)) in Hw.
    cbn in Hw.
    rewrite (PrintFacts.write_elements_spaced _ _ (NumPrint.decimal <$> ns')) in Hw.
    - cbn in Hw. injection Hw as <-. by rewrite !PrintFacts.app_assoc_string.
    - clear. induction ns' as [|i l IH]; constructor; done. }
  subst text.
  destruct (VectorRead.read_integer_vector sy fuel st ns [])
    as (st' & Hread & H1 & H2 & _); [done|done|by rewrite app_nil_r|done|].
  by exists st'.
Qed.

Lemma X23_integer_vector_written_and_read_witness :
  ∃ st',
    Parser.read (ops := NumSpec.ops) Parser.symbols 4
      (Parser.start "#(4 -5)" (mkScheme [] [[CNumber (Num.NInt 4); CNumber (Num.NInt (-5))]] ∅ ∅))
    = (Ret (CVector 1), st')
    ∧ vectors (world st') !! 1%nat = Some [CNumber (Num.NInt 4); CNumber (Num.NInt (-5))].
Proof.
  destruct (X23_integer_vector_written_and_read NumSpec.ops Parser.symbols 0 3 0
              (Parser.start "#(4 -5)"
                 (mkScheme [] [[CNumber (Num.NInt 4); CNumber (Num.NInt (-5))]] ∅ ∅))
              [4; -5] "#(4 -5)"
              ltac:(repeat constructor; lia) eq_refl eq_refl eq_refl eq_refl
              ltac:(simpl; lia))
    as (st' & Hread & Hv & _).
  exists st'. split; [exact Hread|]. rewrite Hv. reflexivity.
Defined.

(** ** Names that look like numbers *)

(** X24: a name that starts with one of the letters of the numbers' own
    alphabet ([e], [E], [i], [I]) followed by a digit, such as [e1] or
    [i2], is not read as a symbol.  [is_digit] looks at the first two
    characters only and takes the lexeme for a number, [lex_number] then
    rejects it, and [read] throws the parse error of an invalid token. *)
Theorem X24_letter_digit_name_rejected (ops : NumberOps) (sy : Symbols) (fuel : nat)
    (st : Reader) (a b : ascii) (s : string) :
  a ∈ ["e"; "E"; "i"; "I"]%char →
  Ctype.iswdigit (Ctype.int_of_char b) = true →
  Forall (fun c => Lexeme.delimiter c = false) (list_ascii_of_string s) →
  put_back st = Tok_None →
  ahead (input st) = a :: b :: list_ascii_of_string s →
  (Parser.read sy (S fuel) st).1 = Throw (parse_error "invalid token").
Proof.
  intros Ha Hb Hs Hpb Hahead.
  destruct (IntRead.digit_plain b Hb) as [Hbd _].
  assert (Hfacts : Lexeme.delimiter a = false ∧ (a ∉ Lexeme.dispatch)
                   ∧ Ctype.iswdigit (Ctype.int_of_char a) = false
                   ∧ Ctype.strchr "+-.iIeE" (Ctype.int_of_char a) = true
                   ∧ Ctype.strchr "+-" (Ctype.int_of_char a) = false
                   ∧ Ctype.strchr "+-." (Ctype.int_of_char a) = false).
  { repeat (apply elem_of_cons in Ha as [->|Ha]); [..|by apply elem_of_nil in Ha];
      (split; [done|]; split; [apply (bool_decide_unpack _); by vm_compute|done]). }
  destruct Hfacts as (Had & Hdis & Hnd & Hmark & Hsign & Hsigned).
  unfold Parser.read.
  rewrite (ReaderFrame.R_bind_eq Parser.clear_input _ st ()
             (Parser.with_input st (Stream.clear (input st)))) by done.
  destruct (LexemeFacts.get_token_last_lexeme
              (Parser.with_input st (Stream.clear (input st)))
              [] a (b :: list_ascii_of_string s)) as (ins' & Htok & _);
    [done|done|done|done|done|by constructor|].
  cbn [string_of_list_ascii] in Htok.
  rewrite string_of_list_ascii_of_string in Htok.
  rewrite (LexemeFacts.classify_plain _ a (String b s)) in Htok by done.
  assert (Hdig : Lexer.is_digit (String a (String b s)) 2 = true).
  { unfold Lexer.is_digit. cbn [Nat.eqb].
    change (Lexer.code_at (String a (String b s)) 0) with (Ctype.int_of_char a).
    rewrite Hnd. cbn. rewrite Hnd, Hmark, Hb. cbn. done. }
  assert (Hlex : ∀ num, Lexer.lex_number (String a (String b s)) num
                        = Ret (Tok_Error, Num.NInt 0)).
  { intros num. unfold Lexer.lex_number.
    change ((Lexer.size (String a (String b s)) =? 0)%nat) with false.
    change (Lexer.code_at (String a (String b s)) 0) with (Ctype.int_of_char a).
    rewrite Hsign, Hsigned. cbn [andb].
    change (Lexer.code_at (String a (String b s)) 0) with (Ctype.int_of_char a).
    by rewrite Hnd. }
  rewrite Hdig, Hlex in Htok.
  cbn [Parser.read_tokens].
  by rewrite (ReaderFrame.R_bind_eq Parser.get_token _ _ _ _ Htok).
Qed.

Lemma X24_letter_digit_name_rejected_witness :
  Lexer.lex_symbol "e1" = Tok_Symbol
  ∧ (Parser.read (ops := NumSpec.ops) Parser.symbols 1 (Parser.start "e1" Heaps.empty)).1
    = Throw (parse_error "invalid token").
Proof.
  split; [reflexivity|].
  apply (X24_letter_digit_name_rejected NumSpec.ops Parser.symbols 0
           (Parser.start "e1" Heaps.empty) "e"%char "1"%char "").
  - apply (bool_decide_unpack _). by vm_compute.
  - reflexivity.
  - constructor.
  - reflexivity.
  - reflexivity.
Defined.

(** ** Lexemes that start with [#t] or [#f] *)

Module HashFacts.
Import Ctype Lexer CharLexer Lexeme Parser LexemeFacts.

Section Tokens.
Context {ops : NumberOps}.

(** A lexeme and what follows it, the end of the input or a delimiter. *)
Lemma get_token_whole (st : Reader) (ws : list ascii) (c : ascii) (w rest : list ascii) :
  put_back st = Tok_None →
  Stream.good (input st) = true →
  ahead (input st) = ws ++ c :: w ++ rest →
  Forall (fun c => blank c = true) ws →
  delimiter c = false →
  Forall (fun c => delimiter c = false) w →
  ends rest = true →
  ∃ ins', get_token st = classify (with_lexeme st (String c (string_of_list_ascii w)) ins')
          ∧ ahead ins' = rest.
Proof.
  intros Hpb Hg Ha Hws Hc Hw Hrest.
  destruct rest as [|d rest].
  - rewrite app_nil_r in Ha.
    destruct (get_token_last_lexeme st ws c w) as (ins' & H & H' & _); [done..|].
    by exists ins'.
  - destruct (get_token_lexeme st ws c w d rest) as (ins' & H & H' & _); [done..|].
    by exists ins'.
Qed.

End Tokens.

End HashFacts.

(** X25: a boolean that is written and read again is the same boolean,
    and the long forms [#true] and [#false] are read as booleans too.
    The lexeme may be preceded by white space and must be followed by the
    end of the input or by a delimiter; the interpreter is left as it
    was. *)
Theorem X25_boolean_written_and_read (ops : NumberOps) (sy : Symbols) (n fuel : nat)
    (st : Reader) (b : bool) (text : string) (ws rest : list ascii) :
  Printer.write_Cell (S n) (world st) (CBool b) = Ret text
  ∨ text = (if b then "#true" else "#false") →
  put_back st = Tok_None →
  ahead (input st) = ws ++ list_ascii_of_string text ++ rest →
  Forall (fun c => Lexeme.blank c = true) ws →
  Lexeme.ends rest = true →
  ∃ st', Parser.read sy (S fuel) st = (Ret (CBool b), st')
         ∧ world st' = world st ∧ ahead (input st') = rest.
Proof.
  intros Htext Hpb Ha Hws Hrest.
  assert (Hcases : text ∈ (if b then ["#t"; "#true"] else ["#f"; "#false"])).
  { destruct Htext as [Hw | ->].
    - cbn in Hw. injection Hw as <-. destruct b; by left.
    - destruct b; right; by left. }
  unfold Parser.read.
  rewrite (ReaderFrame.R_bind_eq Parser.clear_input _ st ()
             (Parser.with_input st (Stream.clear (input st)))) by done.
  assert (Htok : ∃ st1, Parser.get_token (Parser.with_input st (Stream.clear (input st)))
                        = (Ret (if b then Tok_True else Tok_False), st1)
                        ∧ world st1 = world st ∧ ahead (input st1) = rest).
  { destruct b; repeat (apply elem_of_cons in Hcases as [->|Hcases]);
      try (by apply elem_of_nil in Hcases);
      cbn [list_ascii_of_string app] in Ha;
      match type of Ha with
      | _ = _ ++ ?c :: ?l =>
          match l with
          | context [rest] => idtac
          end
      end;
      match type of Ha with
      | _ = ws ++ "#"%char :: "t"%char :: rest =>
          destruct (HashFacts.get_token_whole (Parser.with_input st (Stream.clear (input st)))
                      ws "#"%char ["t"%char] rest Hpb eq_refl Ha Hws eq_refl
                      ltac:(repeat constructor) Hrest) as (ins' & -> & Ha')
      | _ = ws ++ "#"%char :: "f"%char :: rest =>
          destruct (HashFacts.get_token_whole (Parser.with_input st (Stream.clear (input st)))
                      ws "#"%char ["f"%char] rest Hpb eq_refl Ha Hws eq_refl
                      ltac:(repeat constructor) Hrest) as (ins' & -> & Ha')
      | _ = ws ++ "#"%char :: "t"%char :: "r"%char :: "u"%char :: "e"%char :: rest =>
          destruct (HashFacts.get_token_whole (Parser.with_input st (Stream.clear (input st)))
                      ws "#"%char (list_ascii_of_string "true") rest Hpb eq_refl Ha Hws eq_refl
                      ltac:(repeat constructor) Hrest) as (ins' & -> & Ha')
      | _ = ws ++ "#"%char :: "f"%char :: "a"%char :: "l"%char :: "s"%char :: "e"%char :: rest =>
          destruct (HashFacts.get_token_whole (Parser.with_input st (Stream.clear (input st)))
                      ws "#"%char (list_ascii_of_string "false") rest Hpb eq_refl Ha Hws eq_refl
                      ltac:(repeat constructor) Hrest) as (ins' & -> & Ha')
      end;
      (eexists; split; [reflexivity|done]). }
  destruct Htok as (st1 & Htok & Hw1 & Ha1).
  cbn [Parser.read_tokens].
  rewrite (ReaderFrame.R_bind_eq Parser.get_token _ _ _ _ Htok).
  exists st1. by destruct b.
Qed.

Lemma X25_boolean_written_and_read_witness :
  (Parser.read (ops := NumSpec.ops) Parser.symbols 1
     (Parser.start " #false)" Heaps.empty)).1 = Ret (CBool false).
Proof.
  destruct (X25_boolean_written_and_read NumSpec.ops Parser.symbols 0 0
              (Parser.start " #false)" Heaps.empty) false "#false" [" "%char] [")"%char]
              ltac:(right; reflexivity) eq_refl eq_refl ltac:(repeat constructor) eq_refl)
    as (st' & H & _).
  by rewrite H.
Defined.


